(** * pysweeper: the [MineSweeper] class of [minesweeper.py]

    A shallow embedding of the board constructors, of the recursive
    [reveal], of the read-only accessors and of the printer, followed by
    the properties of the board model, of the adjacency counts, of the
    cascade and of the game state.

    Conventions of the embedding.
    - Python integers are [Z]; array shapes are [nat].
    - A 2-D numpy array is its shape together with its rows.
    - A [float32] sample of an image is the rational it stands for.
    - A Python exception is the [Raise] branch of [result]; the object
      state at the time of the exception is dropped.
    - The recursion of [reveal] is driven by a depth budget, the room
      that the recursion limit of the interpreter leaves for nested
      activations; running out of it is [RecursionError]. *)

From Stdlib Require Import ZArith QArith List Lia Bool Ascii String.
From stdpp Require Import base tactics option list numbers strings relations pretty.

Local Open Scope Z_scope.

(** ** Exceptions and the result monad *)

Inductive exn : Type :=
| ValueError
| IndexError
| RecursionError.

Inductive result (A : Type) : Type :=
| Ok (a : A)
| Raise (e : exn).
Arguments Ok {A} a.
Arguments Raise {A} e.

Definition result_bind {A B : Type} (f : A → result B) (x : result A) : result B :=
  match x with
  | Ok a => f a
  | Raise e => Raise e
  end.

#[global] Instance result_mret : MRet result := λ A a, Ok a.
#[global] Instance result_mbind : MBind result := λ A B f x, result_bind f x.

Definition is_Ok {A : Type} (x : result A) : Prop := ∃ a, x = Ok a.

(** [for x in xs: acc = body(acc, x)] with exceptions. *)
Fixpoint for_each {A S : Type} (xs : list A) (body : S → A → result S) (acc : S)
  : result S :=
  match xs with
  | [] => Ok acc
  | x :: xs' => acc' ← body acc x; for_each xs' body acc'
  end.

(** ** numpy arrays of rank 2 *)

Record ndarray : Type := NdArray {
  shape : nat * nat;
  data : list (list Z)
}.

(** The buffer agrees with the shape. *)
Definition nd_wf (a : ndarray) : Prop :=
  length (data a) = (shape a).1 ∧
  Forall (λ row, length row = (shape a).2) (data a).

(** Integer indexing.  [NumPy] is what numpy does: an index [i] with
    [-n <= i < 0] addresses [i + n].  [Strict] refuses every index
    outside [0, n); it is used to state that an access never leaves that
    range. *)
Inductive index_mode : Type := NumPy | Strict.

Definition norm_index (im : index_mode) (n : nat) (i : Z) : option nat :=
  if (0 <=? i) && (i <? Z.of_nat n) then Some (Z.to_nat i)
  else match im with
       | NumPy =>
           if (- Z.of_nat n <=? i) && (i <? 0) then Some (Z.to_nat (i + Z.of_nat n))
           else None
       | Strict => None
       end.

(** Entry of the buffer, for indices already normalised. *)
Definition cell (a : ndarray) (i j : nat) : option Z :=
  row ← data a !! i; row !! j.

(** [a[row, col]] *)
Definition getitem (im : index_mode) (a : ndarray) (row col : Z) : result Z :=
  match norm_index im (shape a).1 row, norm_index im (shape a).2 col with
  | Some i, Some j =>
      match cell a i j with
      | Some v => Ok v
      | None => Raise IndexError
      end
  | _, _ => Raise IndexError
  end.

(** [a[row, col] = v] *)
Definition setitem (im : index_mode) (a : ndarray) (row col : Z) (v : Z)
  : result ndarray :=
  match norm_index im (shape a).1 row, norm_index im (shape a).2 col with
  | Some i, Some j =>
      match data a !! i with
      | Some r => Ok (NdArray (shape a) (<[i := <[j := v]> r]> (data a)))
      | None => Raise IndexError
      end
  | _, _ => Raise IndexError
  end.

(** Wrap-around of a store into an [int8] array. *)
Definition int8 (z : Z) : Z := (z + 128) mod 256 - 128.

(** [np.zeros(dims, dtype=np.int8)]: negative dimensions are refused. *)
Definition np_zeros (dims : Z * Z) : result ndarray :=
  if (dims.1 <? 0) || (dims.2 <? 0) then Raise ValueError
  else
    let r := Z.to_nat dims.1 in
    let c := Z.to_nat dims.2 in
    Ok (NdArray (r, c) (replicate r (replicate c 0))).

(** [np.ones(shape, dtype=np.int8)] *)
Definition np_ones (sh : nat * nat) : ndarray :=
  NdArray sh (replicate sh.1 (replicate sh.2 1)).

(** [np.empty(shape, dtype=np.int8)]: the contents are whatever the
    allocator left there, given here by [junk]. *)
Definition np_empty (junk : nat → nat → Z) (sh : nat * nat) : ndarray :=
  NdArray sh (map (λ i, map (λ j, int8 (junk i j)) (seq 0 sh.2)) (seq 0 sh.1)).

(** [np.asarray(a > 0, dtype=np.int8)] *)
Definition gt0_int8 (a : ndarray) : ndarray :=
  NdArray (shape a) (map (map (λ v, if 0 <? v then 1 else 0)) (data a)).

(** [np.sum(a)] *)
Definition np_sum (a : ndarray) : Z :=
  foldr Z.add 0 (map (foldr Z.add 0) (data a)).

(** [a[r, :]] for [r] taken from [range(shape[0])]. *)
Definition get_row (a : ndarray) (r : nat) : result (list Z) :=
  match data a !! r with
  | Some row => Ok row
  | None => Raise IndexError
  end.

(** [a[:, c]] for [c] taken from [range(shape[1])]. *)
Definition get_col (a : ndarray) (c : nat) : result (list Z) :=
  if decide (c < (shape a).2)%nat
  then Ok (map (λ row, default 0 (row !! c)) (data a))
  else Raise IndexError.

(** Broadcasting of a rank-1 value to a slice of length [n]: the lengths
    agree, or the value has length one. *)
Definition broadcast_to (n : nat) (v : list Z) : result (list Z) :=
  if decide (length v = n) then Ok v
  else match v with
       | [x] => Ok (replicate n x)
       | _ => Raise ValueError
       end.

(** [a[r, :] = v] into an [int8] array. *)
Definition set_row (a : ndarray) (r : nat) (v : list Z) : result ndarray :=
  if decide (r < (shape a).1)%nat then
    v' ← broadcast_to (shape a).2 v;
    Ok (NdArray (shape a) (<[r := map int8 v']> (data a)))
  else Raise IndexError.

(** [a[:, c] = v] into an [int8] array. *)
Definition set_col (a : ndarray) (c : nat) (v : list Z) : result ndarray :=
  if decide (c < (shape a).2)%nat then
    v' ← broadcast_to (shape a).1 v;
    Ok (NdArray (shape a) (zip_with (λ row x, <[c := int8 x]> row) (data a) v'))
  else Raise IndexError.

(** ** [np.convolve(a, v, 'same')] *)

(** Zero padding of a vector. *)
Definition padded (a : list Z) (i : Z) : Z :=
  if i <? 0 then 0 else default 0 (a !! Z.to_nat i).

(** numpy's correlation in mode 'same', for [length w <= length a]:
    [out[i] = sum_j a[i + j - n_left] * w[j]] with [n_left = len(w) / 2]
    and [length a] outputs. *)
Definition correlate_same (a w : list Z) : list Z :=
  let n_left := Z.of_nat (length w / 2) in
  map (λ i : nat,
         foldr Z.add 0
           (imap (λ (j : nat) wj, padded a (Z.of_nat i + Z.of_nat j - n_left) * wj) w))
      (seq 0 (length a)).

(** The longer operand comes first, an empty operand is refused, and the
    convolution is the correlation with the reversed second operand. *)
Definition np_convolve_same (a v : list Z) : result (list Z) :=
  let '(a, v) := if (length a <? length v)%nat then (v, a) else (a, v) in
  if (length a =? 0)%nat then Raise ValueError
  else if (length v =? 0)%nat then Raise ValueError
  else Ok (correlate_same a (rev v)).

(** ** The class *)

Record MineSweeper : Type := Build_MineSweeper {
  mines : ndarray;
  size : nat * nat;
  num_mines : Z;
  board : ndarray;
  covered : ndarray;
  num_covered : Z;
  game_state : string
}.

Definition set_covered (self : MineSweeper) (c : ndarray) : MineSweeper :=
  Build_MineSweeper (mines self) (size self) (num_mines self) (board self)
    c (num_covered self) (game_state self).

Definition set_num_covered (self : MineSweeper) (n : Z) : MineSweeper :=
  Build_MineSweeper (mines self) (size self) (num_mines self) (board self)
    (covered self) n (game_state self).

Definition set_game_state (self : MineSweeper) (s : string) : MineSweeper :=
  Build_MineSweeper (mines self) (size self) (num_mines self) (board self)
    (covered self) (num_covered self) s.

(** [__init__(self, mines)] *)
Definition __init__ (junk : nat → nat → Z) (mines0 : ndarray) : result MineSweeper :=
  let mines := gt0_int8 mines0 in
  let size := shape mines in
  let num_mines := np_sum mines in
  let board := np_empty junk size in
  let covered := np_ones size in
  let num_covered := Z.of_nat size.1 * Z.of_nat size.2 in
  let game_state := "in_progress"%string in
  board ← for_each (seq 0 size.1)
             (λ board r,
                row ← get_row mines r;
                conv ← np_convolve_same row [1; 1; 1];
                set_row board r conv)
             board;
  board ← for_each (seq 0 size.2)
             (λ board c,
                col ← get_col board c;
                conv ← np_convolve_same col [1; 1; 1];
                set_col board c conv)
             board;
  Ok (Build_MineSweeper mines size num_mines board covered num_covered game_state).

(** numpy's integer [//] and [%]: a zero divisor gives zero. *)
Definition np_floordiv (a b : Z) : Z := if b =? 0 then 0 else a / b.
Definition np_mod (a b : Z) : Z := if b =? 0 then 0 else a mod b.

(** [fromdimensions(cls, board_dims, num_mines)].  [choice] stands for
    [np.random.choice(n, k, replace=False)]: whatever it draws, or the
    exception it raises. *)
Definition fromdimensions (junk : nat → nat → Z) (choice : Z → Z → result (list Z))
    (board_dims : Z * Z) (num_mines : Z) : result MineSweeper :=
  mines ← np_zeros board_dims;
  mine_indices ← choice (board_dims.1 * board_dims.2) num_mines;
  mines ← for_each (seq 0 (Z.to_nat num_mines))
             (λ mines i,
                idx ← match mine_indices !! i with
                      | Some x => Ok x
                      | None => Raise IndexError
                      end;
                setitem NumPy mines
                  (np_floordiv idx board_dims.2) (np_mod idx board_dims.2) 1)
             mines;
  __init__ junk mines.

(** ** Images *)

(** What [imread] returns for a PNG file it can decode: [float32]
    samples between 0 and 1, in an array of rank 2 for a greyscale image
    and of rank 3, with three or four samples to the pixel, for a colour
    image.  A [float32] that is a number is a rational. *)
Inductive image : Type :=
  | Grey (sh : nat * nat) (px : list (list Q))
  | Colour (sh : nat * nat * nat) (px : list (list (list Q))).

(** [im_data[:, :, 0]]: one index too many for an array of rank 2, and
    no sample 0 on an empty last axis. *)
Definition first_channel (im_data : image)
  : result ((nat * nat) * list (list Q)) :=
  match im_data with
  | Grey _ _ => Raise IndexError
  | Colour sh px =>
      if (sh.2 =? 0)%nat then Raise IndexError
      else Ok ((sh.1.1, sh.1.2), map (map (λ p, default 0%Q (head p))) px)
  end.

(** The cast of a [float32] to [int8] drops the fraction. *)
Definition float_to_int8 (x : Q) : Z := int8 (Z.quot (Qnum x) (Z.pos (Qden x))).

(** [np.asarray(a, dtype=np.int8)] for an array of [float32]. *)
Definition asarray_int8 (a : (nat * nat) * list (list Q)) : ndarray :=
  NdArray a.1 (map (map float_to_int8) a.2).

(** [k - a] for an [int8] array [a]. *)
Definition rsub_int8 (k : Z) (a : ndarray) : ndarray :=
  NdArray (shape a) (map (map (λ v, int8 (k - v))) (data a)).

(** [fromPNG(cls, image_path)].  [imread] stands for matplotlib's reader. *)
Definition fromPNG (junk : nat → nat → Z) (imread : string → image)
    (image_path : string) : result MineSweeper :=
  let im_data := imread image_path in
  red ← first_channel im_data;
  let mines := rsub_int8 1 (asarray_int8 red) in
  __init__ junk mines.

(** The coordinates [reveal] recurses into, in the order of the source. *)
Definition neighbours8 (row col : Z) : list (Z * Z) :=
  [ (row - 1, col - 1); (row - 1, col); (row - 1, col + 1);
    (row, col - 1); (row, col + 1);
    (row + 1, col - 1); (row + 1, col); (row + 1, col + 1) ].

(** The bounds test shared by [reveal] and [getsquare]. *)
Definition out_of_bounds (self : MineSweeper) (row col : Z) : bool :=
  (row <? 0) || (Z.of_nat (size self).1 <=? row)
  || (col <? 0) || (Z.of_nat (size self).2 <=? col).

(** Lines 88 to 91 of the source: uncover, decrement, test for a win. *)
Definition uncover (self : MineSweeper) (covered' : ndarray) : MineSweeper :=
  let self := set_covered self covered' in
  let self := set_num_covered self (num_covered self - 1) in
  if num_covered self =? num_mines self then set_game_state self "win" else self.

(** One nested call of the cascade: the callee's return code is dropped,
    the mutated object is kept. *)
Definition cascade_step (call : MineSweeper → Z → Z → result (MineSweeper * Z))
    (self : MineSweeper) (rc : Z * Z) : result MineSweeper :=
  res ← call self rc.1 rc.2;
  Ok res.1.

(** [reveal(self, row, col)].  [depth] bounds the nesting of the
    activations that get past the guard. *)
Fixpoint reveal_rec (im : index_mode) (depth : nat) (self : MineSweeper)
    (row col : Z) : result (MineSweeper * Z) :=
  if out_of_bounds self row col then Ok (self, -1)
  else
    cov ← getitem im (covered self) row col;
    if cov =? 0 then Ok (self, -1)
    else
      match depth with
      | O => Raise RecursionError
      | S depth' =>
          covered' ← setitem im (covered self) row col 0;
          let self := uncover self covered' in
          is_mine ← getitem im (mines self) row col;
          if negb (is_mine =? 0) then Ok (set_game_state self "failure", 0)
          else
            hint ← getitem im (board self) row col;
            if hint =? 0 then
              self ← for_each (neighbours8 row col)
                        (cascade_step (reveal_rec im depth')) self;
              Ok (self, 1)
            else Ok (self, 1)
      end.

(** The call of the interface when the recursion limit of the interpreter
    is no obstacle: a budget of one level per cell of the board is never
    used up.  Under a limit that lets the activations past the guard
    nest [depth] deep the call is [reveal_rec NumPy depth], which
    returns what [reveal] returns or raises [RecursionError]. *)
Definition reveal (self : MineSweeper) (row col : Z) : result (MineSweeper * Z) :=
  reveal_rec NumPy ((size self).1 * (size self).2) self row col.

(** [getstate(self)] *)
Definition getstate (self : MineSweeper) : string := game_state self.

(** [getsquare(self, row, col)] *)
Definition getsquare_in (im : index_mode) (self : MineSweeper) (row col : Z)
  : result Z :=
  if out_of_bounds self row col then Ok (-3)
  else
    cov ← getitem im (covered self) row col;
    if negb (cov =? 0) then Ok (-1)
    else
      is_mine ← getitem im (mines self) row col;
      if negb (is_mine =? 0) then Ok (-2)
      else getitem im (board self) row col.

Definition getsquare : MineSweeper → Z → Z → result Z := getsquare_in NumPy.

(** The line feed. *)
Definition nl : string := String "010"%char "".

(** [f"{x}"] for an integer [x]: its decimal digits, after a minus sign
    when it is negative. *)
Definition format_int (x : Z) : string := pretty x.

(** [__str__(self)] *)
Definition __str__ (self : MineSweeper) : result string :=
  for_each (seq 0 (size self).1)
    (λ out r,
       let out := out +:+ "|" in
       out ← for_each (seq 0 (size self).2)
                (λ out c,
                   cov ← getitem NumPy (covered self) (Z.of_nat r) (Z.of_nat c);
                   if negb (cov =? 0) then Ok (out +:+ " .")
                   else
                     is_mine ← getitem NumPy (mines self) (Z.of_nat r) (Z.of_nat c);
                     if negb (is_mine =? 0) then Ok (out +:+ " X")
                     else
                       hint ← getitem NumPy (board self) (Z.of_nat r) (Z.of_nat c);
                       if negb (hint =? 0)
                       then Ok (out +:+ " " +:+ format_int hint)
                       else Ok (out +:+ "  "))
                out;
       Ok (out +:+ " |" +:+ nl))
    nl.

(** A sequence of [reveal] calls, with the codes they return. *)
Fixpoint reveal_all (self : MineSweeper) (moves : list (Z * Z))
  : result (MineSweeper * list Z) :=
  match moves with
  | [] => Ok (self, [])
  | rc :: moves' =>
      res ← reveal self rc.1 rc.2;
      res' ← reveal_all res.1 moves';
      Ok (res'.1, res.2 :: res'.2)
  end.

(** Boards of examples. *)
Definition no_junk : nat → nat → Z := λ _ _, 0.
Definition grid (sh : nat * nat) (rows : list (list Z)) : ndarray := NdArray sh rows.

Definition mask_3x3_corner : ndarray :=
  grid (3, 3)%nat [[1; 0; 0]; [0; 0; 0]; [0; 0; 0]].
Definition mask_3x3_centre : ndarray :=
  grid (3, 3)%nat [[0; 0; 0]; [0; 1; 0]; [0; 0; 0]].
Definition mask_3x3_two : ndarray :=
  grid (3, 3)%nat [[1; 0; 1]; [0; 0; 0]; [0; 0; 0]].
Definition mask_1x1 : ndarray := grid (1, 1)%nat [[0]].
Definition mask_5x5_empty : ndarray :=
  grid (5, 5)%nat (replicate 5 (replicate 5 0)).

(** * The vocabulary of the properties *)

(** ** Indexing *)

Definition in_range (sh : nat * nat) (row col : Z) : Prop :=
  (0 ≤ row < Z.of_nat sh.1) ∧ (0 ≤ col < Z.of_nat sh.2).

(** The entry at an integer position, zero where there is none. *)
Definition val (a : ndarray) (row col : Z) : Z :=
  default 0 (cell a (Z.to_nat row) (Z.to_nat col)).

(** The array after [a[row, col] = v] at a position in range. *)
Definition upd (a : ndarray) (row col : Z) (v : Z) : ndarray :=
  match data a !! Z.to_nat row with
  | Some r =>
      NdArray (shape a) (<[Z.to_nat row := <[Z.to_nat col := v]> r]> (data a))
  | None => a
  end.

(** ** Counting the covered cells *)

Definition count_nz (row : list Z) : nat := length (filter (λ v, v ≠ 0) row).

(** Number of true entries of an array. *)
Definition count_nonzero (a : ndarray) : nat := sum_list (map count_nz (data a)).

(** ** Boards whose arrays have the shape [size] *)

Definition has_shape (a : ndarray) (sh : nat * nat) : Prop :=
  nd_wf a ∧ shape a = sh.

Record shaped (b : MineSweeper) : Prop := Shaped {
  shaped_mines : has_shape (mines b) (size b);
  shaped_board : has_shape (board b) (size b);
  shaped_covered : has_shape (covered b) (size b)
}.

Definition in_bounds (b : MineSweeper) (rc : Z * Z) : Prop :=
  in_range (size b) rc.1 rc.2.

(** The three grids read at an in-bounds cell. *)
Definition is_covered (b : MineSweeper) (rc : Z * Z) : Prop :=
  val (covered b) rc.1 rc.2 ≠ 0.
Definition is_mine (b : MineSweeper) (rc : Z * Z) : Prop :=
  val (mines b) rc.1 rc.2 ≠ 0.
Definition hint (b : MineSweeper) (rc : Z * Z) : Z :=
  val (board b) rc.1 rc.2.

(** ** One activation of [reveal] *)

(** The board after the activation at a covered cell, before any nested
    call. *)
Definition uncovered_at (b : MineSweeper) (row col : Z) : MineSweeper :=
  uncover b (upd (covered b) row col 0).

#[global] Instance in_bounds_dec (b : MineSweeper) (rc : Z * Z) :
  Decision (in_bounds b rc).
Proof. unfold in_bounds, in_range. apply _. Defined.

#[global] Instance is_covered_dec (b : MineSweeper) (rc : Z * Z) :
  Decision (is_covered b rc).
Proof. unfold is_covered. apply _. Defined.

(** ** What every activation preserves *)

Record extends (b b' : MineSweeper) : Prop := Extends {
  ext_mines : mines b' = mines b;
  ext_size : size b' = size b;
  ext_num_mines : num_mines b' = num_mines b;
  ext_board : board b' = board b;
  ext_shaped : shaped b';
  ext_mono : ∀ rc, in_bounds b rc → ¬ is_covered b rc → ¬ is_covered b' rc;
  ext_count :
    num_covered b - num_covered b' =
    Z.of_nat (count_nonzero (covered b)) - Z.of_nat (count_nonzero (covered b'));
  ext_le : (count_nonzero (covered b') ≤ count_nonzero (covered b))%nat
}.

(** ** The game state across an activation *)

(** A cell whose count is zero is no mine and has no mine next to it. *)
Definition safe_zeros (b : MineSweeper) : Prop :=
  ∀ rc rc', in_bounds b rc → hint b rc = 0 → rc' ∈ rc :: neighbours8 rc.1 rc.2 →
            in_bounds b rc' → ¬ is_mine b rc'.

(** The state a safe activation leaves: [win] exactly when the counter
    passed through [num_mines] on one of its decrements. *)
Definition state_after_safe (b b' : MineSweeper) : string :=
  if decide (num_covered b' ≤ num_mines b < num_covered b)
  then "win"%string else game_state b.

(** ** The cascade *)

(** One step of the cascade: from a cell whose count is zero to one of
    its eight neighbours on the board. *)
Definition cstep (b : MineSweeper) (x y : Z * Z) : Prop :=
  in_bounds b x ∧ hint b x = 0 ∧ y ∈ neighbours8 x.1 x.2 ∧ in_bounds b y.

(** The cells a cascade started at [x] can get to. *)
Definition cascade_reach (b : MineSweeper) : relation (Z * Z) := rtc (cstep b).

(** Every uncovered cell with count zero has its neighbours uncovered. *)
Definition closed (b : MineSweeper) : Prop :=
  ∀ x y, cstep b x y → ¬ is_covered b x → ¬ is_covered b y.

(** ** The constructor *)

(** The sum of an entry and its two neighbours, zero outside. *)
Definition conv3 (a : list Z) : list Z :=
  map (λ i : nat,
         padded a (Z.of_nat i - 1) + padded a (Z.of_nat i) + padded a (Z.of_nat i + 1))
      (seq 0 (length a)).

(** The entry of an array at an integer position, zero outside the
    array. *)
Definition pval (a : ndarray) (row col : Z) : Z :=
  if decide (in_range (shape a) row col) then val a row col else 0.

(** The first loop of [__init__]. *)
Definition row_pass (mines board : ndarray) : result ndarray :=
  for_each (seq 0 (shape mines).1)
    (λ board r,
       row ← get_row mines r;
       conv ← np_convolve_same row [1; 1; 1];
       set_row board r conv)
    board.

(** The second loop of [__init__]. *)
Definition col_pass (sh : nat * nat) (board : ndarray) : result ndarray :=
  for_each (seq 0 sh.2)
    (λ board c,
       col ← get_col board c;
       conv ← np_convolve_same col [1; 1; 1];
       set_col board c conv)
    board.

(** The sum of the mine indicators over the 3x3 window centred on a
    cell, the cell included and positions off the board counting zero. *)
Definition window3x3 (a : ndarray) (r c : Z) : Z :=
  foldr Z.add 0 (map (λ rc : Z * Z, pval a rc.1 rc.2) ((r, c) :: neighbours8 r c)).

(** What a board is right after construction. *)
Record constructed (m : ndarray) (b : MineSweeper) : Prop := Constructed {
  cons_shaped : shaped b;
  cons_size : size b = shape m;
  cons_mines : mines b = gt0_int8 m;
  cons_num_mines : num_mines b = np_sum (mines b);
  cons_covered : covered b = np_ones (size b);
  cons_num_covered : num_covered b = Z.of_nat (size b).1 * Z.of_nat (size b).2;
  cons_game_state : game_state b = "in_progress"%string;
  cons_counts : ∀ rc, in_bounds b rc → hint b rc = window3x3 (mines b) rc.1 rc.2
}.

(** ** Boards reached through the interface *)

(** The boards that [__init__] on the mask [m] followed by calls of
    [reveal] can produce. *)
Inductive reachable (m : ndarray) : MineSweeper → Prop :=
| reach_init (junk : nat → nat → Z) (b : MineSweeper) :
    nd_wf m → __init__ junk m = Ok b → reachable m b
| reach_reveal (b b' : MineSweeper) (row col ret : Z) :
    reachable m b → reveal b row col = Ok (b', ret) → reachable m b'.

(** One for a mine on the board, zero for any other position. *)
Definition mine_indicator (b : MineSweeper) (rc : Z * Z) : Z :=
  if decide (in_bounds b rc ∧ is_mine b rc) then 1 else 0.

(** The counts as the specification words them: the mines in the 3x3
    window around a cell, and the mines among its eight neighbours. *)
Definition window_mines (b : MineSweeper) (rc : Z * Z) : Z :=
  foldr Z.add 0 (map (mine_indicator b) (rc :: neighbours8 rc.1 rc.2)).

Definition adjacent_mines (b : MineSweeper) (rc : Z * Z) : Z :=
  Z.of_nat (length (filter (λ n, in_bounds b n ∧ is_mine b n)
                           (neighbours8 rc.1 rc.2))).

Record board_inv (m : ndarray) (b : MineSweeper) : Prop := BoardInv {
  inv_shaped : shaped b;
  inv_size : size b = shape m;
  inv_mines : mines b = gt0_int8 m;
  inv_num_mines : num_mines b = np_sum (mines b);
  inv_counts : ∀ rc, in_bounds b rc → hint b rc = window3x3 (mines b) rc.1 rc.2;
  inv_num_covered : num_covered b = Z.of_nat (count_nonzero (covered b));
  inv_closed : closed b;
  inv_in_progress :
    game_state b = "in_progress"%string →
    ∀ rc, in_bounds b rc → is_mine b rc → is_covered b rc
}.

(** ** Boards of the examples *)

Definition board_3x3_corner : MineSweeper :=
  Build_MineSweeper
    (grid (3, 3)%nat [[1; 0; 0]; [0; 0; 0]; [0; 0; 0]]) (3, 3)%nat 1
    (grid (3, 3)%nat [[1; 1; 0]; [1; 1; 0]; [0; 0; 0]])
    (grid (3, 3)%nat [[1; 1; 1]; [1; 1; 1]; [1; 1; 1]]) 9 "in_progress".

Definition board_3x3_two : MineSweeper :=
  Build_MineSweeper
    (grid (3, 3)%nat [[1; 0; 1]; [0; 0; 0]; [0; 0; 0]]) (3, 3)%nat 2
    (grid (3, 3)%nat [[1; 2; 1]; [1; 2; 1]; [0; 0; 0]])
    (grid (3, 3)%nat [[1; 1; 1]; [1; 1; 1]; [1; 1; 1]]) 9 "in_progress".

Definition board_3x3_empty : MineSweeper :=
  Build_MineSweeper
    (grid (3, 3)%nat [[0; 0; 0]; [0; 0; 0]; [0; 0; 0]]) (3, 3)%nat 0
    (grid (3, 3)%nat [[0; 0; 0]; [0; 0; 0]; [0; 0; 0]])
    (grid (3, 3)%nat [[1; 1; 1]; [1; 1; 1]; [1; 1; 1]]) 9 "in_progress".

Definition mask_3x3_empty : ndarray :=
  grid (3, 3)%nat [[0; 0; 0]; [0; 0; 0]; [0; 0; 0]].

(** ** Region and ring *)






(** ** The counter and the number of mines *)

(** From [b] to [b'] the counter came from above [num_mines] to
    [num_mines] or below: one of the decrements in between made the two
    equal. *)
Definition crosses (b b' : MineSweeper) : Prop :=
  num_covered b' ≤ num_mines b < num_covered b.

#[global] Instance crosses_dec (b b' : MineSweeper) : Decision (crosses b b').
Proof. unfold crosses. apply _. Defined.


(** ** Counting the activations *)

(** One nested call of the cascade, with the counters of the callee
    added to those of the caller. *)
Definition count_step
    (call : MineSweeper → Z → Z → result (MineSweeper * Z * (nat * nat)))
    (acc : MineSweeper * (nat * nat)) (rc : Z * Z)
  : result (MineSweeper * (nat * nat)) :=
  res ← call acc.1 rc.1 rc.2;
  Ok (res.1.1, (acc.2.1 + res.2.1, acc.2.2 + res.2.2)%nat).

(** [reveal_rec] with two counters: the activations of [reveal] that a
    call makes, itself included, and those of them that get past the
    guard. *)
Fixpoint reveal_calls (im : index_mode) (depth : nat) (self : MineSweeper)
    (row col : Z) : result (MineSweeper * Z * (nat * nat)) :=
  if out_of_bounds self row col then Ok (self, -1, (1, 0)%nat)
  else
    cov ← getitem im (covered self) row col;
    if cov =? 0 then Ok (self, -1, (1, 0)%nat)
    else
      match depth with
      | O => Raise RecursionError
      | S depth' =>
          covered' ← setitem im (covered self) row col 0;
          let self := uncover self covered' in
          is_mine ← getitem im (mines self) row col;
          if negb (is_mine =? 0)
          then Ok (set_game_state self "failure", 0, (1, 1)%nat)
          else
            hint ← getitem im (board self) row col;
            if hint =? 0 then
              acc ← for_each (neighbours8 row col)
                       (count_step (reveal_calls im depth')) (self, (1, 1)%nat);
              Ok (acc.1, 1, acc.2)
            else Ok (self, 1, (1, 1)%nat)
      end.

(** ** Runs of the examples *)

Definition board_of (r : result (MineSweeper * Z)) (d : MineSweeper) : MineSweeper :=
  match r with
  | Ok res => res.1
  | Raise _ => d
  end.

(** The empty 3x3 board after [reveal(1, 1)]. *)
Definition board_3x3_empty_won : MineSweeper :=
  board_of (reveal board_3x3_empty 1 1) board_3x3_empty.

(** The 3x3 board with a mine in the corner after [reveal(2, 2)]. *)
Definition board_3x3_corner_won : MineSweeper :=
  board_of (reveal board_3x3_corner 2 2) board_3x3_corner.

(** The same after a further [reveal(0, 0)]. *)
Definition board_3x3_corner_lost : MineSweeper :=
  board_of (reveal board_3x3_corner_won 0 0) board_3x3_corner_won.

(** The 3x3 board with a mine in the corner after [reveal(0, 0)], and
    after a further [reveal(2, 2)]. *)
Definition board_3x3_corner_hit : MineSweeper :=
  board_of (reveal board_3x3_corner 0 0) board_3x3_corner.
Definition board_3x3_corner_hit_won : MineSweeper :=
  board_of (reveal board_3x3_corner_hit 2 2) board_3x3_corner_hit.

(** The 3x3 board with a mine in the centre: after the mine and all
    other cells but (2, 2) have been revealed, and after (2, 2) too. *)
Definition board_3x3_centre : MineSweeper :=
  Build_MineSweeper
    (grid (3, 3)%nat [[0; 0; 0]; [0; 1; 0]; [0; 0; 0]]) (3, 3)%nat 1
    (grid (3, 3)%nat [[1; 1; 1]; [1; 1; 1]; [1; 1; 1]])
    (grid (3, 3)%nat [[1; 1; 1]; [1; 1; 1]; [1; 1; 1]]) 9 "in_progress".
Definition moves_3x3_centre : list (Z * Z) :=
  [(1, 1); (0, 0); (0, 1); (0, 2); (1, 0); (1, 2); (2, 0); (2, 1)].
Definition board_3x3_centre_late : MineSweeper :=
  match reveal_all board_3x3_centre moves_3x3_centre with
  | Ok res => res.1
  | Raise _ => board_3x3_centre
  end.
Definition board_3x3_centre_end : MineSweeper :=
  board_of (reveal board_3x3_centre_late 2 2) board_3x3_centre_late.



(** The board of 32 rows and 32 columns without a mine. *)
Definition board_32x32_empty : MineSweeper :=
  let zeros := NdArray (32, 32)%nat (replicate 32 (replicate 32 0)) in
  Build_MineSweeper zeros (32, 32)%nat 0 zeros (np_ones (32, 32)%nat) 1024
    "in_progress".

(** ** The pixels of an image *)

(** The buffer of a colour image agrees with its shape. *)
Definition pixels_wf (sh : nat * nat * nat) (px : list (list (list Q))) : Prop :=
  length px = sh.1.1 ∧
  Forall (λ row, length row = sh.1.2 ∧ Forall (λ p, length p = sh.2) row) px.

(** The first sample of the pixel in row [r] and column [c]. *)
Definition red_sample (px : list (list (list Q))) (r c : nat) : Q :=
  default 0%Q (row ← px !! r; p ← row !! c; head p).

(** A 3x3 colour image: white, black and green; red, grey and white;
    white, white and white. *)
Definition image_3x3 : image :=
  Colour (3, 3, 3)%nat
    [ [ [1%Q; 1%Q; 1%Q]; [0%Q; 0%Q; 0%Q]; [0%Q; 1%Q; 0%Q] ];
      [ [1%Q; 0%Q; 0%Q]; [Qmake 1 2; Qmake 1 2; Qmake 1 2]; [1%Q; 1%Q; 1%Q] ];
      [ [1%Q; 1%Q; 1%Q]; [1%Q; 1%Q; 1%Q]; [1%Q; 1%Q; 1%Q] ] ].

(** ** The text of a board *)

(** The texts [f 0], ..., [f (n - 1)] one after the other. *)
Fixpoint cat_upto (f : nat → string) (n : nat) : string :=
  match n with
  | O => ""
  | S k => cat_upto f k +:+ f k
  end.

(** The two characters that stand for a code of [getsquare]. *)
Definition glyph (code : Z) : string :=
  if code =? -1 then " ."
  else if code =? -2 then " X"
  else if code =? 0 then "  "
  else " " +:+ pretty code.

(** The code of [getsquare] at a cell of the board. *)
Definition code_at (b : MineSweeper) (r c : nat) : Z :=
  match getsquare b (Z.of_nat r) (Z.of_nat c) with
  | Ok v => v
  | Raise _ => -3
  end.

(** A line per row, between bars, of the glyphs of its cells. *)
Definition render (b : MineSweeper) : string :=
  nl +:+ cat_upto
           (λ r, "|" +:+ cat_upto (λ c, glyph (code_at b r c)) (size b).2
                     +:+ " |" +:+ nl)
           (size b).1.

(** * Properties *)

(** ** The result monad *)

Lemma bind_Ok {A B : Type} (f : A → result B) (a : A) : (Ok a ≫= f) = f a.
Proof. reflexivity. Qed.

Lemma bind_Ok_inv {A B : Type} (f : A → result B) (x : result A) (b : B) :
  (x ≫= f) = Ok b → ∃ a, x = Ok a ∧ f a = Ok b.
Proof. destruct x as [a|e]; [eauto | discriminate]. Qed.

(** Invariant of a loop, indexed by the elements already visited. *)
Lemma for_each_prefix_ind {A S : Type} (I : list A → S → Prop)
    (xs : list A) (body : S → A → result S) (s s' : S) :
  I [] s →
  (∀ pre x t t', I pre t → x ∈ xs → body t x = Ok t' → I (pre ++ [x]) t') →
  for_each xs body s = Ok s' →
  I xs s'.
Proof.
  intros H0 Hstep.
  assert (G : ∀ rest pre t, I pre t → (∀ x, x ∈ rest → x ∈ xs) →
              for_each rest body t = Ok s' → I (pre ++ rest) s').
  { induction rest as [|x rest IH]; intros pre t Hpre Hsub Hrun; simpl in Hrun.
    - injection Hrun as <-. by rewrite app_nil_r.
    - apply bind_Ok_inv in Hrun as (t' & Hx & Hrun).
      replace (pre ++ x :: rest) with ((pre ++ [x]) ++ rest)
        by (by rewrite <- app_assoc).
      apply (IH _ t'); [| |done].
      + eapply Hstep; [done| |done]. apply Hsub. by left.
      + intros y Hy. apply Hsub. by right. }
  intros Hrun. by apply (G xs [] s).
Qed.

Lemma for_each_ind {A S : Type} (I : S → Prop)
    (xs : list A) (body : S → A → result S) (s s' : S) :
  I s →
  (∀ x t t', I t → x ∈ xs → body t x = Ok t' → I t') →
  for_each xs body s = Ok s' →
  I s'.
Proof.
  intros H0 Hstep. apply (for_each_prefix_ind (λ _, I)); [done|]. eauto.
Qed.

(** A loop whose body cannot fail under the invariant does not fail. *)
Lemma for_each_total {A S : Type} (I : S → Prop)
    (xs : list A) (body : S → A → result S) (s : S) :
  I s →
  (∀ x t, I t → x ∈ xs → ∃ t', body t x = Ok t' ∧ I t') →
  ∃ s', for_each xs body s = Ok s' ∧ I s'.
Proof.
  revert s. induction xs as [|x xs IH]; intros s Hs Hstep; simpl.
  - eauto.
  - destruct (Hstep x s Hs) as (t' & -> & Ht'); [by left|].
    rewrite bind_Ok. apply IH; [done|].
    intros y t Ht Hy. apply Hstep; [done | by right].
Qed.

(** ** Indexing *)

Lemma norm_index_in (im : index_mode) (n : nat) (i : Z) :
  0 ≤ i < Z.of_nat n → norm_index im n i = Some (Z.to_nat i).
Proof.
  intros H. unfold norm_index.
  replace (0 <=? i) with true by (symmetry; apply Z.leb_le; lia).
  replace (i <? Z.of_nat n) with true by (symmetry; apply Z.ltb_lt; lia).
  done.
Qed.

Lemma norm_index_strict (n : nat) (i : Z) (k : nat) :
  norm_index Strict n i = Some k → 0 ≤ i < Z.of_nat n.
Proof.
  unfold norm_index.
  destruct (0 <=? i) eqn:E1; destruct (i <? Z.of_nat n) eqn:E2; simpl; try done.
  intros _. apply Z.leb_le in E1. apply Z.ltb_lt in E2. lia.
Qed.

(** A strict access that succeeds is an access in range. *)
Lemma getitem_strict_in_range (a : ndarray) (row col v : Z) :
  getitem Strict a row col = Ok v → in_range (shape a) row col.
Proof.
  unfold getitem.
  destruct (norm_index Strict (shape a).1 row) as [i|] eqn:Hi; [|done].
  destruct (norm_index Strict (shape a).2 col) as [j|] eqn:Hj; [|done].
  intros _. split; by eapply norm_index_strict.
Qed.

Lemma setitem_strict_in_range (a a' : ndarray) (row col v : Z) :
  setitem Strict a row col v = Ok a' → in_range (shape a) row col.
Proof.
  unfold setitem.
  destruct (norm_index Strict (shape a).1 row) as [i|] eqn:Hi; [|done].
  destruct (norm_index Strict (shape a).2 col) as [j|] eqn:Hj; [|done].
  intros _. split; by eapply norm_index_strict.
Qed.

Lemma cell_is_Some (a : ndarray) (i j : nat) :
  nd_wf a → (i < (shape a).1)%nat → (j < (shape a).2)%nat →
  is_Some (cell a i j).
Proof.
  intros [Hlen Hrows] Hi Hj. unfold cell.
  destruct (lookup_lt_is_Some_2 (data a) i) as [r Hr]; [lia|].
  rewrite Hr. simpl. apply lookup_lt_is_Some_2.
  rewrite Forall_lookup in Hrows. rewrite (Hrows _ _ Hr). lia.
Qed.

Lemma getitem_val (im : index_mode) (a : ndarray) (row col : Z) :
  nd_wf a → in_range (shape a) row col →
  getitem im a row col = Ok (val a row col).
Proof.
  intros Hwf [Hr Hc]. unfold getitem, val.
  rewrite !norm_index_in by done.
  destruct (cell_is_Some a (Z.to_nat row) (Z.to_nat col)) as [v ->];
    [done | lia | lia | done].
Qed.

Lemma setitem_upd (im : index_mode) (a : ndarray) (row col v : Z) :
  nd_wf a → in_range (shape a) row col →
  setitem im a row col v = Ok (upd a row col v).
Proof.
  intros [Hlen _] [Hr Hc]. unfold setitem, upd.
  rewrite !norm_index_in by done.
  destruct (lookup_lt_is_Some_2 (data a) (Z.to_nat row)) as [r ->]; [lia|done].
Qed.

Lemma upd_shape (a : ndarray) (row col v : Z) : shape (upd a row col v) = shape a.
Proof. unfold upd. by destruct (data a !! Z.to_nat row). Qed.

Lemma upd_wf (a : ndarray) (row col v : Z) : nd_wf a → nd_wf (upd a row col v).
Proof.
  intros [Hlen Hrows]. unfold upd.
  destruct (data a !! Z.to_nat row) as [r|] eqn:Hr; [|done].
  split; simpl.
  - by rewrite length_insert.
  - apply Forall_insert; [done|]. rewrite length_insert.
    rewrite Forall_lookup in Hrows. by apply (Hrows _ _ Hr).
Qed.

Lemma val_upd (a : ndarray) (row col v r c : Z) :
  nd_wf a → in_range (shape a) row col → 0 ≤ r → 0 ≤ c →
  val (upd a row col v) r c = if decide (r = row ∧ c = col) then v else val a r c.
Proof.
  intros [Hlen Hrows] [Hr Hc] Hr0 Hc0. unfold val, upd, cell.
  destruct (lookup_lt_is_Some_2 (data a) (Z.to_nat row)) as [x Hx]; [lia|].
  rewrite Hx. simpl.
  assert (Hxl : length x = (shape a).2)
    by (rewrite Forall_lookup in Hrows; by apply (Hrows _ _ Hx)).
  destruct (decide (r = row)) as [->|Hne].
  - rewrite list_lookup_insert_eq by (apply lookup_lt_Some in Hx; lia). simpl.
    destruct (decide (c = col)) as [->|Hne].
    + rewrite list_lookup_insert_eq by lia. simpl.
      rewrite decide_True; done.
    + rewrite list_lookup_insert_ne by lia.
      rewrite decide_False by tauto. by rewrite Hx.
  - rewrite list_lookup_insert_ne by lia.
    rewrite decide_False by tauto. done.
Qed.

(** ** Counting the covered cells *)

Lemma count_nz_insert (row : list Z) (j : nat) (x : Z) :
  row !! j = Some x → x ≠ 0 →
  (count_nz (<[j := 0%Z]> row) + 1 = count_nz row)%nat.
Proof.
  unfold count_nz. revert j. induction row as [|y row IH]; intros j Hj Hx; [done|].
  destruct j as [|j]; simpl in *.
  - injection Hj as ->. rewrite filter_cons_False by (intros K; by apply K).
    rewrite filter_cons_True by done. simpl. lia.
  - specialize (IH j Hj Hx).
    destruct (decide (y ≠ 0)).
    + rewrite !filter_cons_True by done. simpl. lia.
    + rewrite !filter_cons_False by done. done.
Qed.

Lemma sum_list_map_insert {A : Type} (f : A → nat) (l : list A) (i : nat) (x y : A) :
  l !! i = Some x →
  (sum_list (map f (<[i := y]> l)) + f x = sum_list (map f l) + f y)%nat.
Proof.
  revert i. induction l as [|z l IH]; intros i Hi; [done|].
  destruct i as [|i]; simpl in *.
  - injection Hi as ->. lia.
  - specialize (IH i Hi). lia.
Qed.

Lemma count_nonzero_upd (a : ndarray) (row col : Z) :
  nd_wf a → in_range (shape a) row col → val a row col ≠ 0 →
  (count_nonzero (upd a row col 0%Z) + 1 = count_nonzero a)%nat.
Proof.
  intros Hwf [Hr Hc] Hv. unfold count_nonzero, upd, val, cell in *.
  destruct (data a !! Z.to_nat row) as [r|] eqn:Hrow; simpl in *; [|done].
  destruct (r !! Z.to_nat col) as [x|] eqn:Hx; simpl in *; [|done].
  pose proof (sum_list_map_insert count_nz _ _ _ (<[Z.to_nat col := 0]> r) Hrow).
  pose proof (count_nz_insert _ _ _ Hx Hv). lia.
Qed.

Lemma count_nz_le (row : list Z) : (count_nz row ≤ length row)%nat.
Proof. apply length_filter. Qed.

Lemma count_nonzero_le (a : ndarray) :
  nd_wf a → (count_nonzero a ≤ (shape a).1 * (shape a).2)%nat.
Proof.
  intros [Hlen Hrows]. unfold count_nonzero. rewrite <- Hlen.
  generalize dependent (shape a).2. intros c Hrows. clear Hlen.
  induction Hrows as [|r l Hr _ IH]; simpl; [lia|].
  pose proof (count_nz_le r). lia.
Qed.

(** ** Boards whose arrays have the shape [size] *)

Lemma out_of_bounds_false (b : MineSweeper) (row col : Z) :
  out_of_bounds b row col = false ↔ in_bounds b (row, col).
Proof.
  unfold out_of_bounds, in_bounds, in_range.
  rewrite !orb_false_iff, !Z.ltb_ge, !Z.leb_gt. tauto.
Qed.

Lemma out_of_bounds_true (b : MineSweeper) (row col : Z) :
  out_of_bounds b row col = true ↔ ¬ in_bounds b (row, col).
Proof.
  rewrite <- out_of_bounds_false. by destruct (out_of_bounds b row col).
Qed.

Lemma has_shape_upd (a : ndarray) (sh : nat * nat) (row col v : Z) :
  has_shape a sh → has_shape (upd a row col v) sh.
Proof. intros [Hwf <-]. split; [by apply upd_wf | apply upd_shape]. Qed.

Lemma shaped_uncover (b : MineSweeper) (row col : Z) :
  shaped b → shaped (uncover b (upd (covered b) row col 0)).
Proof.
  intros [Hm Hb Hc]. unfold uncover. simpl.
  destruct (_ =? _); split; simpl; auto using has_shape_upd.
Qed.

Lemma shaped_set_game_state (b : MineSweeper) (s : string) :
  shaped b → shaped (set_game_state b s).
Proof. intros [Hm Hb Hc]. by split. Qed.

(** ** One activation of [reveal] *)

Lemma reveal_rec_out (im : index_mode) (depth : nat) (b : MineSweeper) (row col : Z) :
  ¬ in_bounds b (row, col) → reveal_rec im depth b row col = Ok (b, -1).
Proof.
  intros H. apply out_of_bounds_true in H. destruct depth; simpl; by rewrite H.
Qed.

Lemma reveal_rec_uncovered (im : index_mode) (depth : nat) (b : MineSweeper)
    (row col : Z) :
  in_bounds b (row, col) → getitem im (covered b) row col = Ok 0 →
  reveal_rec im depth b row col = Ok (b, -1).
Proof.
  intros H Hc. apply out_of_bounds_false in H.
  destruct depth; simpl; by rewrite H, Hc.
Qed.

Lemma reveal_rec_S (im : index_mode) (depth : nat) (self : MineSweeper)
    (row col : Z) :
  reveal_rec im (S depth) self row col =
    if out_of_bounds self row col then Ok (self, -1)
    else
      cov ← getitem im (covered self) row col;
      if cov =? 0 then Ok (self, -1)
      else
        covered' ← setitem im (covered self) row col 0;
        let self := uncover self covered' in
        is_mine ← getitem im (mines self) row col;
        if negb (is_mine =? 0) then Ok (set_game_state self "failure", 0)
        else
          hint ← getitem im (board self) row col;
          if hint =? 0 then
            self ← for_each (neighbours8 row col)
                      (cascade_step (reveal_rec im depth)) self;
            Ok (self, 1)
          else Ok (self, 1).
Proof. reflexivity. Qed.

Lemma reveal_rec_covered (im : index_mode) (depth : nat) (b : MineSweeper)
    (row col : Z) :
  shaped b → in_bounds b (row, col) → is_covered b (row, col) →
  reveal_rec im (S depth) b row col =
    if decide (is_mine b (row, col))
    then Ok (set_game_state (uncovered_at b row col) "failure", 0)
    else if decide (hint b (row, col) = 0)
    then self ← for_each (neighbours8 row col)
                   (cascade_step (reveal_rec im depth)) (uncovered_at b row col);
         Ok (self, 1)
    else Ok (uncovered_at b row col, 1).
Proof.
  intros [[Hm Hms] [Hb Hbs] [Hc Hcs]] Hin Hcov.
  unfold is_covered, is_mine, hint, in_bounds in *. cbn [fst snd] in *.
  rewrite reveal_rec_S.
  pose proof Hin as Hin'. apply out_of_bounds_false in Hin'. rewrite Hin'.
  rewrite (getitem_val im (covered b)) by (by rewrite ?Hcs). rewrite bind_Ok.
  rewrite (proj2 (Z.eqb_neq _ _) Hcov).
  rewrite setitem_upd by (by rewrite ?Hcs). rewrite bind_Ok.
  cbv zeta. fold (uncovered_at b row col).
  assert (E1 : mines (uncovered_at b row col) = mines b)
    by (unfold uncovered_at, uncover; simpl; by destruct (_ =? _)).
  assert (E2 : board (uncovered_at b row col) = board b)
    by (unfold uncovered_at, uncover; simpl; by destruct (_ =? _)).
  rewrite E1, E2.
  rewrite (getitem_val im (mines b)) by (by rewrite ?Hms). rewrite bind_Ok.
  destruct (decide (val (mines b) row col ≠ 0)) as [Hmine|Hmine].
  - by rewrite (proj2 (Z.eqb_neq _ _) Hmine).
  - assert (val (mines b) row col = 0) as -> by lia. cbn [Z.eqb negb].
    rewrite (getitem_val im (board b)) by (by rewrite ?Hbs). rewrite bind_Ok.
    destruct (decide (val (board b) row col = 0)) as [Hz|Hz].
    + by rewrite Hz.
    + by rewrite (proj2 (Z.eqb_neq _ _) Hz).
Qed.

Lemma reveal_rec_no_budget (im : index_mode) (b : MineSweeper) (row col : Z) :
  shaped b → in_bounds b (row, col) → is_covered b (row, col) →
  reveal_rec im 0 b row col = Raise RecursionError.
Proof.
  intros [_ _ [Hc Hcs]] Hin Hcov. unfold is_covered, in_bounds in *.
  cbn [fst snd reveal_rec] in *.
  pose proof Hin as Hin'. apply out_of_bounds_false in Hin'. rewrite Hin'.
  rewrite (getitem_val im (covered b)) by (by rewrite ?Hcs). rewrite bind_Ok.
  by rewrite (proj2 (Z.eqb_neq _ _) Hcov).
Qed.

Lemma cascade_step_inv (call : MineSweeper → Z → Z → result (MineSweeper * Z))
    (s s' : MineSweeper) (rc : Z * Z) :
  cascade_step call s rc = Ok s' → ∃ ret, call s rc.1 rc.2 = Ok (s', ret).
Proof.
  unfold cascade_step. intros H. apply bind_Ok_inv in H as ([t ret] & Hc & Ht).
  injection Ht as <-. eauto.
Qed.

(** The ways an activation can return. *)
Lemma reveal_rec_cases (im : index_mode) (depth : nat) (b b' : MineSweeper)
    (row col ret : Z) :
  shaped b → reveal_rec im depth b row col = Ok (b', ret) →
  (b' = b ∧ ret = -1 ∧ (¬ in_bounds b (row, col) ∨ ¬ is_covered b (row, col)))
  ∨ (in_bounds b (row, col) ∧ is_covered b (row, col) ∧
     ∃ depth', depth = S depth' ∧
       ((is_mine b (row, col) ∧
         b' = set_game_state (uncovered_at b row col) "failure" ∧ ret = 0)
        ∨ (¬ is_mine b (row, col) ∧ hint b (row, col) ≠ 0 ∧
           b' = uncovered_at b row col ∧ ret = 1)
        ∨ (¬ is_mine b (row, col) ∧ hint b (row, col) = 0 ∧ ret = 1 ∧
           for_each (neighbours8 row col) (cascade_step (reveal_rec im depth'))
             (uncovered_at b row col) = Ok b'))).
Proof.
  intros Hsh Hrun.
  destruct (decide (in_bounds b (row, col))) as [Hin|Hout].
  2:{ rewrite reveal_rec_out in Hrun by done. injection Hrun as <- <-. auto. }
  destruct (decide (is_covered b (row, col))) as [Hcov|Hunc].
  2:{ rewrite reveal_rec_uncovered in Hrun; [injection Hrun as <- <-; auto|done|].
      destruct Hsh as [_ _ [Hc Hcs]]. rewrite getitem_val by (by rewrite ?Hcs).
      f_equal. unfold is_covered in Hunc. simpl in Hunc. lia. }
  right. split; [done|]. split; [done|].
  destruct depth as [|depth'].
  { by rewrite reveal_rec_no_budget in Hrun. }
  exists depth'. split; [done|].
  rewrite reveal_rec_covered in Hrun by done.
  destruct (decide (is_mine b (row, col))) as [Hm|Hm].
  { injection Hrun as <- <-. auto. }
  destruct (decide (hint b (row, col) = 0)) as [Hz|Hz].
  - apply bind_Ok_inv in Hrun as (s & Hfe & Hs). injection Hs as <- <-.
    right. right. auto.
  - injection Hrun as <- <-. right. left. auto.
Qed.

(** ** What every activation preserves *)

Lemma extends_refl (b : MineSweeper) : shaped b → extends b b.
Proof. intros H. split; auto; lia. Qed.

Lemma extends_in_bounds (b b' : MineSweeper) (rc : Z * Z) :
  extends b b' → in_bounds b' rc ↔ in_bounds b rc.
Proof. intros H. unfold in_bounds. by rewrite (ext_size _ _ H). Qed.

Lemma extends_trans (b1 b2 b3 : MineSweeper) :
  extends b1 b2 → extends b2 b3 → extends b1 b3.
Proof.
  intros H12 H23. split.
  - by rewrite (ext_mines _ _ H23), (ext_mines _ _ H12).
  - by rewrite (ext_size _ _ H23), (ext_size _ _ H12).
  - by rewrite (ext_num_mines _ _ H23), (ext_num_mines _ _ H12).
  - by rewrite (ext_board _ _ H23), (ext_board _ _ H12).
  - apply (ext_shaped _ _ H23).
  - intros rc Hin Hu. apply (ext_mono _ _ H23).
    + by apply (extends_in_bounds _ _ _ H12).
    + by apply (ext_mono _ _ H12).
  - pose proof (ext_count _ _ H12). pose proof (ext_count _ _ H23). lia.
  - pose proof (ext_le _ _ H12). pose proof (ext_le _ _ H23). lia.
Qed.

Lemma extends_set_game_state (b b' : MineSweeper) (s : string) :
  extends b b' → extends b (set_game_state b' s).
Proof.
  intros [H1 H2 H3 H4 H5 H6 H7 H8]. split; simpl; auto using shaped_set_game_state.
Qed.

Lemma uncovered_at_fields (b : MineSweeper) (row col : Z) :
  mines (uncovered_at b row col) = mines b ∧
  size (uncovered_at b row col) = size b ∧
  num_mines (uncovered_at b row col) = num_mines b ∧
  board (uncovered_at b row col) = board b ∧
  covered (uncovered_at b row col) = upd (covered b) row col 0 ∧
  num_covered (uncovered_at b row col) = num_covered b - 1 ∧
  game_state (uncovered_at b row col) =
    if num_covered b - 1 =? num_mines b then "win"%string else game_state b.
Proof. unfold uncovered_at, uncover. simpl. by destruct (_ =? _). Qed.

Lemma is_covered_uncovered_at (b : MineSweeper) (row col : Z) (rc : Z * Z) :
  shaped b → in_bounds b (row, col) → in_bounds b rc →
  is_covered (uncovered_at b row col) rc ↔ is_covered b rc ∧ rc ≠ (row, col).
Proof.
  intros [_ _ [Hc Hcs]] Hin [Hr Hcl].
  destruct (uncovered_at_fields b row col) as (_ & _ & _ & _ & E & _).
  unfold is_covered. rewrite E.
  rewrite val_upd; [|done|by rewrite Hcs|lia|lia].
  destruct rc as [r c]. simpl in *. case_decide as Hd.
  - destruct Hd as [-> ->]. split; [done|]. intros [_ K]. by destruct K.
  - split; [|tauto]. intros K. split; [done|]. intros [= -> ->]. tauto.
Qed.

Lemma extends_uncovered_at (b : MineSweeper) (row col : Z) :
  shaped b → in_bounds b (row, col) → is_covered b (row, col) →
  extends b (uncovered_at b row col) ∧
  (count_nonzero (covered (uncovered_at b row col)) + 1
   = count_nonzero (covered b))%nat.
Proof.
  intros Hsh Hin Hcov.
  destruct (uncovered_at_fields b row col) as (E1 & E2 & E3 & E4 & E5 & E6 & _).
  assert (Hcnt : (count_nonzero (covered (uncovered_at b row col)) + 1
                  = count_nonzero (covered b))%nat).
  { rewrite E5. destruct Hsh as [_ _ [Hc Hcs]].
    apply count_nonzero_upd; [done|by rewrite Hcs|done]. }
  split; [|done]. split; try done.
  - by apply shaped_uncover.
  - intros rc Hrc Hu K. apply is_covered_uncovered_at in K; tauto.
  - lia.
  - lia.
Qed.

Lemma reveal_rec_extends (im : index_mode) (depth : nat) :
  ∀ (b b' : MineSweeper) (row col ret : Z),
    shaped b → reveal_rec im depth b row col = Ok (b', ret) → extends b b'.
Proof.
  induction depth as [|depth IH]; intros b b' row col ret Hsh Hrun;
    apply reveal_rec_cases in Hrun as
      [(-> & _ & _)|(Hin & Hcov & depth' & Hd & Hcase)]; try done;
    try by apply extends_refl.
  injection Hd as <-.
  destruct (extends_uncovered_at b row col Hsh Hin Hcov) as [Hext _].
  destruct Hcase as [(_ & -> & _)|[(_ & _ & -> & _)|(_ & _ & _ & Hfe)]].
  - by apply extends_set_game_state.
  - done.
  - revert Hfe. apply for_each_ind; [done|].
    intros rc t t' Ht _ Hstep. apply cascade_step_inv in Hstep as [r Hstep].
    eapply extends_trans; [done|]. eapply IH; [|done]. apply (ext_shaped _ _ Ht).
Qed.

(** ** The budget *)

Lemma reveal_rec_total (im : index_mode) (depth : nat) :
  ∀ (b : MineSweeper) (row col : Z),
    shaped b → (count_nonzero (covered b) ≤ depth)%nat →
    ∃ b' ret, reveal_rec im depth b row col = Ok (b', ret).
Proof.
  induction depth as [|depth IH]; intros b row col Hsh Hcnt.
  - destruct (decide (in_bounds b (row, col))) as [Hin|Hout].
    2:{ rewrite reveal_rec_out by done. eauto. }
    destruct (decide (is_covered b (row, col))) as [Hcov|Hunc].
    + destruct (extends_uncovered_at b row col Hsh Hin Hcov) as [_ K]. lia.
    + rewrite reveal_rec_uncovered; [eauto|done|].
      destruct Hsh as [_ _ [Hc Hcs]]. rewrite getitem_val by (by rewrite ?Hcs).
      f_equal. unfold is_covered in Hunc. simpl in Hunc. lia.
  - destruct (decide (in_bounds b (row, col))) as [Hin|Hout].
    2:{ rewrite reveal_rec_out by done. eauto. }
    destruct (decide (is_covered b (row, col))) as [Hcov|Hunc].
    2:{ rewrite reveal_rec_uncovered; [eauto|done|].
        destruct Hsh as [_ _ [Hc Hcs]]. rewrite getitem_val by (by rewrite ?Hcs).
        f_equal. unfold is_covered in Hunc. simpl in Hunc. lia. }
    rewrite reveal_rec_covered by done.
    destruct (decide (is_mine b (row, col))); [eauto|].
    destruct (decide (hint b (row, col) = 0)); [|eauto].
    destruct (extends_uncovered_at b row col Hsh Hin Hcov) as [Hext Hone].
    destruct (for_each_total (extends (uncovered_at b row col))
                (neighbours8 row col) (cascade_step (reveal_rec im depth))
                (uncovered_at b row col)) as (s' & -> & _).
    + apply extends_refl, (ext_shaped _ _ Hext).
    + intros rc t Ht _.
      destruct (IH t rc.1 rc.2) as (t' & r & Hrun).
      * apply (ext_shaped _ _ Ht).
      * pose proof (ext_le _ _ Ht). lia.
      * exists t'. unfold cascade_step. rewrite Hrun. split; [done|].
        eapply extends_trans; [done|].
        eapply reveal_rec_extends; [|done]. apply (ext_shaped _ _ Ht).
    + rewrite bind_Ok. eauto.
Qed.

Lemma shaped_count_le (b : MineSweeper) :
  shaped b → (count_nonzero (covered b) ≤ (size b).1 * (size b).2)%nat.
Proof. intros [_ _ [Hc <-]]. by apply count_nonzero_le. Qed.

(** ** The return code *)

Lemma reveal_rec_code (im : index_mode) (depth : nat) (b b' : MineSweeper)
    (row col ret : Z) :
  shaped b → reveal_rec im depth b row col = Ok (b', ret) →
  (ret = -1 ∧ b' = b ∧ ¬ (in_bounds b (row, col) ∧ is_covered b (row, col)))
  ∨ (ret = 0 ∧ in_bounds b (row, col) ∧ is_covered b (row, col)
     ∧ is_mine b (row, col))
  ∨ (ret = 1 ∧ in_bounds b (row, col) ∧ is_covered b (row, col)
     ∧ ¬ is_mine b (row, col)).
Proof.
  intros Hsh Hrun.
  apply reveal_rec_cases in Hrun as
    [(-> & -> & K)|(Hin & Hcov & depth' & Hd & Hcase)]; [left; tauto| |done].
  destruct Hcase as [(? & _ & ->)|[(? & _ & _ & ->)|(? & _ & -> & _)]]; tauto.
Qed.

(** ** The game state across an activation *)

Lemma extends_is_mine (b b' : MineSweeper) (rc : Z * Z) :
  extends b b' → is_mine b' rc ↔ is_mine b rc.
Proof. intros H. unfold is_mine. by rewrite (ext_mines _ _ H). Qed.

Lemma extends_hint (b b' : MineSweeper) (rc : Z * Z) :
  extends b b' → hint b' rc = hint b rc.
Proof. intros H. unfold hint. by rewrite (ext_board _ _ H). Qed.

Lemma extends_safe_zeros (b b' : MineSweeper) :
  extends b b' → safe_zeros b → safe_zeros b'.
Proof.
  intros H Hs rc rc' Hin Hz Hn Hin'.
  rewrite (extends_is_mine _ _ _ H). rewrite (extends_hint _ _ _ H) in Hz.
  apply (extends_in_bounds _ _ _ H) in Hin. apply (extends_in_bounds _ _ _ H) in Hin'.
  by apply (Hs rc rc').
Qed.

Lemma extends_num_covered_le (b b' : MineSweeper) :
  extends b b' → num_covered b' ≤ num_covered b.
Proof. intros H. pose proof (ext_count _ _ H). pose proof (ext_le _ _ H). lia. Qed.

Lemma reveal_rec_state (im : index_mode) (depth : nat) :
  ∀ (b b' : MineSweeper) (row col ret : Z),
    shaped b → safe_zeros b →
    reveal_rec im depth b row col = Ok (b', ret) →
    (ret = 0 ∧ game_state b' = "failure"%string)
    ∨ (ret ≠ 0 ∧ game_state b' = state_after_safe b b').
Proof.
  induction depth as [|depth IH]; intros b b' row col ret Hsh Hsafe Hrun;
    pose proof (reveal_rec_extends _ _ _ _ _ _ _ Hsh Hrun) as Hbb';
    apply reveal_rec_cases in Hrun as
      [(-> & -> & _)|(Hin & Hcov & depth' & Hd & Hcase)]; try done;
    try (right; split; [done|]; unfold state_after_safe;
         rewrite decide_False by lia; done).
  injection Hd as <-.
  destruct (extends_uncovered_at b row col Hsh Hin Hcov) as [Hext _].
  destruct (uncovered_at_fields b row col) as (_ & _ & E3 & _ & _ & E6 & E7).
  destruct Hcase as [(_ & -> & ->)|[(_ & _ & -> & ->)|(_ & Hz & -> & Hfe)]].
  - by left.
  - right. split; [done|]. unfold state_after_safe. rewrite E7, E6.
    destruct (Z.eqb_spec (num_covered b - 1) (num_mines b)).
    + by rewrite decide_True by lia.
    + by rewrite decide_False by lia.
  - right. split; [done|].
    assert (G : extends (uncovered_at b row col) b' ∧
                game_state b' = state_after_safe (uncovered_at b row col) b').
    { revert Hfe.
      apply (for_each_ind
               (λ t, extends (uncovered_at b row col) t ∧
                     game_state t = state_after_safe (uncovered_at b row col) t)).
      - split; [apply extends_refl, (ext_shaped _ _ Hext)|].
        unfold state_after_safe. by rewrite decide_False by lia.
      - intros rc t t' [Ht Hgs] Hrc Hstep.
        apply cascade_step_inv in Hstep as [r Hstep].
        pose proof (ext_shaped _ _ Ht) as Hsht.
        pose proof (reveal_rec_extends _ _ _ _ _ _ _ Hsht Hstep) as Htt'.
        split; [by eapply extends_trans|].
        pose proof (extends_trans _ _ _ Hext Ht) as Hbt.
        pose proof (reveal_rec_code _ _ _ _ _ _ _ Hsht Hstep) as Hcode.
        destruct (IH _ _ _ _ _ Hsht (extends_safe_zeros _ _ Hbt Hsafe) Hstep)
          as [[-> _]|[_ Hgs']].
        { destruct Hcode as [(? & _)|[(_ & Hi & _ & Hm)|(? & _)]]; try done.
          exfalso. destruct rc as [r' c']. simpl in *.
          apply (Hsafe (row, col) (r', c')); try done.
          - by right.
          - by apply (extends_in_bounds _ _ _ Hbt).
          - by apply (extends_is_mine _ _ _ Hbt). }
        rewrite Hgs'. unfold state_after_safe in *.
        pose proof (extends_num_covered_le _ _ Ht).
        pose proof (extends_num_covered_le _ _ Htt').
        rewrite (ext_num_mines _ _ Ht). rewrite Hgs.
        repeat case_decide; try done; lia. }
    destruct G as [Hb1b' ->]. unfold state_after_safe.
    pose proof (extends_num_covered_le _ _ Hb1b').
    rewrite E3, E6, E7.
    destruct (Z.eqb_spec (num_covered b - 1) (num_mines b));
      repeat case_decide; try done; lia.
Qed.

(** ** The cascade *)

Lemma extends_cstep (b b' : MineSweeper) (x y : Z * Z) :
  extends b b' → cstep b' x y ↔ cstep b x y.
Proof.
  intros H. unfold cstep.
  by rewrite (extends_hint _ _ _ H), !(extends_in_bounds _ _ _ H).
Qed.

Lemma extends_cascade_reach (b b' : MineSweeper) (x y : Z * Z) :
  extends b b' → cascade_reach b' x y → cascade_reach b x y.
Proof.
  intros H. apply rtc_subrel. intros u v Huv. by apply (extends_cstep _ _ _ _ H).
Qed.

Lemma is_covered_set_game_state (b : MineSweeper) (s : string) (rc : Z * Z) :
  is_covered (set_game_state b s) rc ↔ is_covered b rc.
Proof. done. Qed.

(** An activation uncovers its target, and every zero-count cell it
    uncovers has all its neighbours uncovered when it returns. *)
Lemma reveal_rec_closes (im : index_mode) (depth : nat) :
  ∀ (b b' : MineSweeper) (row col ret : Z),
    shaped b → safe_zeros b →
    reveal_rec im depth b row col = Ok (b', ret) →
    (in_bounds b (row, col) → ¬ is_covered b' (row, col)) ∧
    (∀ x y, cstep b x y → is_covered b x → ¬ is_covered b' x → ¬ is_covered b' y).
Proof.
  induction depth as [|depth IH]; intros b b' row col ret Hsh Hsafe Hrun;
    apply reveal_rec_cases in Hrun as
      [(-> & -> & K)|(Hin & Hcov & depth' & Hd & Hcase)]; try done;
    try (split; [tauto|intros; tauto]).
  injection Hd as <-.
  destruct (extends_uncovered_at b row col Hsh Hin Hcov) as [Hext _].
  assert (Hone : ∀ rc, in_bounds b rc →
            is_covered (uncovered_at b row col) rc ↔ is_covered b rc ∧ rc ≠ (row, col))
    by (intros; by apply is_covered_uncovered_at).
  assert (Hself : ¬ is_covered (uncovered_at b row col) (row, col)).
  { rewrite Hone by done. tauto. }
  assert (Hrest : ∀ x, in_bounds b x → is_covered b x →
                       ¬ is_covered (uncovered_at b row col) x → x = (row, col)).
  { intros x Hx Hcx Hux. rewrite Hone in Hux by done.
    destruct (decide (x = (row, col))); tauto. }
  destruct Hcase as [(Hm & -> & _)|[(_ & Hnz & -> & _)|(_ & Hz & _ & Hfe)]].
  - split; [done|]. intros x y (Hx & Hzx & Hy & Hiy) Hcx Hux.
    rewrite is_covered_set_game_state in Hux.
    rewrite (Hrest x Hx Hcx Hux) in Hzx. exfalso.
    apply (Hsafe (row, col) (row, col)); try done. by left.
  - split; [done|]. intros x y (Hx & Hzx & Hy & Hiy) Hcx Hux.
    rewrite (Hrest x Hx Hcx Hux) in Hzx. done.
  - set (b1 := uncovered_at b row col) in *.
    assert (G : extends b1 b' ∧
                (∀ y, y ∈ neighbours8 row col → in_bounds b y → ¬ is_covered b' y) ∧
                (∀ x y, cstep b x y → is_covered b1 x → ¬ is_covered b' x →
                        ¬ is_covered b' y)).
    { revert Hfe.
      apply (for_each_prefix_ind
               (λ pre t, extends b1 t ∧
                  (∀ y, y ∈ pre → in_bounds b y → ¬ is_covered t y) ∧
                  (∀ x y, cstep b x y → is_covered b1 x → ¬ is_covered t x →
                          ¬ is_covered t y))).
      - split; [apply extends_refl, (ext_shaped _ _ Hext)|].
        split; [intros y Hy; by apply elem_of_nil in Hy|]. intros; tauto.
      - intros pre rc t t' (Ht & Hpre & Hcl) Hrc Hstep.
        apply cascade_step_inv in Hstep as [r Hstep].
        pose proof (ext_shaped _ _ Ht) as Hsht.
        pose proof (reveal_rec_extends _ _ _ _ _ _ _ Hsht Hstep) as Htt'.
        pose proof (extends_trans _ _ _ Hext Ht) as Hbt.
        destruct (IH _ _ _ _ _ Hsht (extends_safe_zeros _ _ Hbt Hsafe) Hstep)
          as [Htgt Hnew].
        split; [by eapply extends_trans|]. split.
        + intros y Hy Hiy. apply elem_of_app in Hy as [Hy|Hy].
          * apply (ext_mono _ _ Htt'); [by apply (extends_in_bounds _ _ _ Hbt)|].
            by apply Hpre.
          * apply list_elem_of_singleton in Hy as ->. destruct rc as [r' c'].
            apply Htgt. by apply (extends_in_bounds _ _ _ Hbt).
        + intros x y Hxy Hcx Hux.
          destruct (decide (is_covered t x)) as [Hct|Hut].
          * apply (Hnew x y); [by apply (extends_cstep _ _ _ _ Hbt)|done|done].
          * apply (ext_mono _ _ Htt').
            -- apply (extends_in_bounds _ _ _ Hbt). apply Hxy.
            -- by apply (Hcl x y). }
    destruct G as (Hb1b' & Hnb & Hcl). split.
    + intros _. apply (ext_mono _ _ Hb1b'); [by apply (extends_in_bounds _ _ _ Hext)|done].
    + intros x y Hxy Hcx Hux.
      destruct (decide (x = (row, col))) as [->|Hne].
      * destruct Hxy as (_ & _ & Hy & Hiy). by apply Hnb.
      * apply (Hcl x y); [done| |done]. apply Hone; [apply Hxy|done].
Qed.

(** An activation uncovers nothing beyond what the cascade reaches from
    its target. *)
Lemma reveal_rec_sound (im : index_mode) (depth : nat) :
  ∀ (b b' : MineSweeper) (row col ret : Z),
    shaped b →
    reveal_rec im depth b row col = Ok (b', ret) →
    ∀ x, in_bounds b x → is_covered b x → ¬ is_covered b' x →
         cascade_reach b (row, col) x.
Proof.
  induction depth as [|depth IH]; intros b b' row col ret Hsh Hrun;
    apply reveal_rec_cases in Hrun as
      [(-> & -> & K)|(Hin & Hcov & depth' & Hd & Hcase)]; try done.
  injection Hd as <-.
  destruct (extends_uncovered_at b row col Hsh Hin Hcov) as [Hext _].
  assert (Hone : ∀ rc, in_bounds b rc →
            is_covered (uncovered_at b row col) rc ↔ is_covered b rc ∧ rc ≠ (row, col))
    by (intros; by apply is_covered_uncovered_at).
  assert (Hrest : ∀ x, in_bounds b x → is_covered b x →
                       ¬ is_covered (uncovered_at b row col) x → x = (row, col)).
  { intros x Hx Hcx Hux. rewrite Hone in Hux by done.
    destruct (decide (x = (row, col))); tauto. }
  destruct Hcase as [(Hm & -> & _)|[(_ & Hnz & -> & _)|(_ & Hz & _ & Hfe)]].
  - intros x Hx Hcx Hux. rewrite is_covered_set_game_state in Hux.
    rewrite (Hrest x Hx Hcx Hux). apply rtc_refl.
  - intros x Hx Hcx Hux. rewrite (Hrest x Hx Hcx Hux). apply rtc_refl.
  - set (b1 := uncovered_at b row col) in *.
    assert (G : extends b1 b' ∧
                (∀ x, in_bounds b x → is_covered b1 x → ¬ is_covered b' x →
                      ∃ n, n ∈ neighbours8 row col ∧ in_bounds b n ∧
                           cascade_reach b n x)).
    { revert Hfe.
      apply (for_each_ind
               (λ t, extends b1 t ∧
                  (∀ x, in_bounds b x → is_covered b1 x → ¬ is_covered t x →
                        ∃ n, n ∈ neighbours8 row col ∧ in_bounds b n ∧
                             cascade_reach b n x))).
      - split; [apply extends_refl, (ext_shaped _ _ Hext)|]. intros; tauto.
      - intros rc t t' (Ht & Hold) Hrc Hstep.
        apply cascade_step_inv in Hstep as [r Hstep].
        pose proof (ext_shaped _ _ Ht) as Hsht.
        pose proof (reveal_rec_extends _ _ _ _ _ _ _ Hsht Hstep) as Htt'.
        pose proof (extends_trans _ _ _ Hext Ht) as Hbt.
        split; [by eapply extends_trans|].
        intros x Hx Hcx Hux.
        destruct (decide (is_covered t x)) as [Hct|Hut]; [|by apply Hold].
        assert (Hr : cascade_reach t (rc.1, rc.2) x).
        { eapply IH; [done|done| |done|done].
          by apply (extends_in_bounds _ _ _ Hbt). }
        exists rc. split; [done|].
        destruct (reveal_rec_code _ _ _ _ _ _ _ Hsht Hstep)
          as [(_ & -> & _)|[(_ & Hi & _)|(_ & Hi & _)]]; [done| |];
          (split; [destruct rc; by apply (extends_in_bounds _ _ _ Hbt)|];
           destruct rc; by apply (extends_cascade_reach _ _ _ _ Hbt)). }
    destruct G as (Hb1b' & Hnew).
    intros x Hx Hcx Hux.
    destruct (decide (x = (row, col))) as [->|Hne]; [apply rtc_refl|].
    destruct (Hnew x) as (n & Hn & Hin' & Hreach); [done| |done|].
    { apply Hone; done. }
    eapply rtc_l; [|done]. done.
Qed.

Lemma closed_reach (b : MineSweeper) (x y : Z * Z) :
  closed b → cascade_reach b x y → ¬ is_covered b x → ¬ is_covered b y.
Proof.
  intros Hcl Hr. induction Hr as [|x y z Hxy _ IH]; [done|].
  intros Hx. apply IH. by apply (Hcl x y).
Qed.

Lemma reveal_rec_closed (im : index_mode) (depth : nat) (b b' : MineSweeper)
    (row col ret : Z) :
  shaped b → safe_zeros b → closed b →
  reveal_rec im depth b row col = Ok (b', ret) → closed b'.
Proof.
  intros Hsh Hsafe Hcl Hrun x y Hxy Hux.
  pose proof (reveal_rec_extends _ _ _ _ _ _ _ Hsh Hrun) as Hbb'.
  apply (extends_cstep _ _ _ _ Hbb') in Hxy.
  destruct (reveal_rec_closes _ _ _ _ _ _ _ Hsh Hsafe Hrun) as [_ Hnew].
  destruct (decide (is_covered b x)) as [Hcx|Hnx].
  - by apply (Hnew x y).
  - apply (ext_mono _ _ Hbb'); [apply Hxy|]. by apply (Hcl x y).
Qed.

(** ** The constructor *)

(** [for k in range(n)] with an invariant indexed by the iteration. *)
Lemma for_range_total {S : Type} (I : nat → S → Prop) (n : nat)
    (body : S → nat → result S) (s : S) :
  I 0%nat s →
  (∀ k t, (k < n)%nat → I k t → ∃ t', body t k = Ok t' ∧ I (Datatypes.S k) t') →
  ∃ s', for_each (seq 0 n) body s = Ok s' ∧ I n s'.
Proof.
  intros H0 Hstep.
  assert (G : ∀ m k t, (k + m = n)%nat → I k t →
              ∃ s', for_each (seq k m) body t = Ok s' ∧ I n s').
  { induction m as [|m IH]; intros k t Hk Ht; simpl.
    - replace n with k by lia. eauto.
    - destruct (Hstep k t) as (t' & -> & Ht'); [lia|done|].
      rewrite bind_Ok. apply IH; [lia|done]. }
  by apply (G n 0%nat s).
Qed.

Lemma length_conv3 (a : list Z) : length (conv3 a) = length a.
Proof. unfold conv3. by rewrite length_map, length_seq. Qed.

Lemma np_convolve_same_111 (a : list Z) :
  (3 ≤ length a)%nat → np_convolve_same a [1; 1; 1] = Ok (conv3 a).
Proof.
  intros Hlen. unfold np_convolve_same. cbn [length].
  destruct (Nat.ltb_spec (length a) 3); [lia|].
  destruct (Nat.eqb_spec (length a) 0); [lia|].
  simpl. f_equal. unfold correlate_same, conv3. apply map_ext. intros i. simpl.
  replace (Z.of_nat i + Z.of_nat 0 - Z.of_nat 1) with (Z.of_nat i - 1) by lia.
  replace (Z.of_nat i + Z.of_nat 1 - Z.of_nat 1) with (Z.of_nat i) by lia.
  replace (Z.of_nat i + Z.of_nat 2 - Z.of_nat 1) with (Z.of_nat i + 1) by lia.
  lia.
Qed.

(** A vector shorter than the kernel comes back with the kernel's
    length. *)
Lemma np_convolve_same_short (a : list Z) (r : list Z) :
  (length a < 3)%nat → np_convolve_same a [1; 1; 1] = Ok r → length r = 3%nat.
Proof.
  intros Hlen. unfold np_convolve_same. cbn [length].
  destruct (Nat.ltb_spec (length a) 3); [|lia].
  simpl. destruct (length a =? 0)%nat; [done|]. intros [= <-].
  unfold correlate_same. by rewrite length_map, length_seq.
Qed.

Lemma padded_lookup (a : list Z) (i : nat) :
  padded a (Z.of_nat i) = default 0 (a !! i).
Proof.
  unfold padded. replace (Z.of_nat i <? 0) with false by (symmetry; apply Z.ltb_ge; lia).
  by rewrite Nat2Z.id.
Qed.

Lemma padded_outside (a : list Z) (i : Z) :
  i < 0 ∨ Z.of_nat (length a) ≤ i → padded a i = 0.
Proof.
  intros H. unfold padded. destruct (Z.ltb_spec i 0); [done|].
  rewrite lookup_ge_None_2; [done|lia].
Qed.

Lemma lookup_conv3 (a : list Z) (i : nat) :
  (i < length a)%nat →
  conv3 a !! i =
    Some (padded a (Z.of_nat i - 1) + padded a (Z.of_nat i) + padded a (Z.of_nat i + 1)).
Proof.
  intros Hi. unfold conv3. rewrite list_lookup_fmap.
  rewrite lookup_seq_lt by done. done.
Qed.

Lemma init_unfold (junk : nat → nat → Z) (m : ndarray) :
  __init__ junk m =
    (board ← row_pass (gt0_int8 m) (np_empty junk (shape m));
     board ← col_pass (shape m) board;
     Ok (Build_MineSweeper (gt0_int8 m) (shape m) (np_sum (gt0_int8 m)) board
           (np_ones (shape m))
           (Z.of_nat (shape m).1 * Z.of_nat (shape m).2) "in_progress")).
Proof. reflexivity. Qed.

Lemma val_nat (a : ndarray) (i j : nat) :
  val a (Z.of_nat i) (Z.of_nat j) = default 0 (cell a i j).
Proof. unfold val. by rewrite !Nat2Z.id. Qed.

Lemma row_length (a : ndarray) (i : nat) (row : list Z) :
  nd_wf a → data a !! i = Some row → length row = (shape a).2.
Proof. intros [_ H] Hi. rewrite Forall_lookup in H. by apply (H i). Qed.

Lemma padded_row (a : ndarray) (i : nat) (row : list Z) (z : Z) :
  nd_wf a → data a !! i = Some row →
  padded row z = pval a (Z.of_nat i) z.
Proof.
  intros Hwf Hi. pose proof (row_length _ _ _ Hwf Hi) as Hlen.
  pose proof (lookup_lt_Some _ _ _ Hi) as Hlt. destruct Hwf as [Hrows _].
  unfold pval. case_decide as Hd.
  - destruct Hd as [_ [Hz1 Hz2]]. simpl in *.
    rewrite <- (Z2Nat.id z) by done. rewrite padded_lookup, val_nat.
    unfold cell. by rewrite Hi.
  - apply padded_outside. unfold in_range in Hd. simpl in Hd. lia.
Qed.

Lemma padded_col (a : ndarray) (k : nat) (z : Z) :
  nd_wf a → (k < (shape a).2)%nat →
  padded (map (λ row, default 0 (row !! k)) (data a)) z = pval a z (Z.of_nat k).
Proof.
  intros Hwf Hk. unfold pval. case_decide as Hd.
  - destruct Hd as [[Hz1 Hz2] _]. simpl in *.
    rewrite <- (Z2Nat.id z) at 1 by done. rewrite padded_lookup.
    rewrite <- (Z2Nat.id z) by done. rewrite val_nat. rewrite Z2Nat.id by done.
    rewrite list_lookup_fmap. unfold cell.
    destruct Hwf as [Hrows _].
    destruct (lookup_lt_is_Some_2 (data a) (Z.to_nat z)) as [row ->]; [lia|].
    simpl. by destruct (row !! k).
  - apply padded_outside. rewrite length_map. destruct Hwf as [-> _].
    unfold in_range in Hd. simpl in Hd. lia.
Qed.

Lemma broadcast_to_same (n : nat) (v : list Z) :
  length v = n → broadcast_to n v = Ok v.
Proof. intros H. unfold broadcast_to. by rewrite decide_True. Qed.

Lemma broadcast_to_three (n : nat) (v : list Z) :
  length v = 3%nat → n ≠ 3%nat → broadcast_to n v = Raise ValueError.
Proof.
  intros H Hn. unfold broadcast_to. rewrite decide_False by lia.
  by destruct v as [|? [|? [|? [|? ?]]]].
Qed.

(** What the row loop leaves in [board]: each row of [mines] summed with
    its left and right neighbours. *)
Lemma row_pass_ok (m bd : ndarray) :
  nd_wf m → nd_wf bd → shape bd = shape m → (3 ≤ (shape m).2)%nat →
  ∃ b1, row_pass m bd = Ok b1 ∧ nd_wf b1 ∧ shape b1 = shape m ∧
        ∀ r c, in_range (shape m) r c →
               val b1 r c = int8 (pval m r (c - 1) + pval m r c + pval m r (c + 1)).
Proof.
  intros Hm Hbd Hsh Hc3. unfold row_pass.
  destruct (for_range_total
              (λ k t, nd_wf t ∧ shape t = shape m ∧
                 ∀ r c, in_range (shape m) r c → r < Z.of_nat k →
                   val t r c =
                     int8 (pval m r (c - 1) + pval m r c + pval m r (c + 1)))
              (shape m).1
              (λ board r,
                 row ← get_row m r;
                 conv ← np_convolve_same row [1; 1; 1];
                 set_row board r conv) bd) as (b1 & Hrun & Hwf & Hs & Hv).
  - split; [done|]. split; [done|]. intros r c [Hr _] Hk. lia.
  - intros k t Hk (Hwt & Hst & Hvt).
    destruct (lookup_lt_is_Some_2 (data m) k) as [row Hrow];
      [destruct Hm as [-> _]; lia|].
    pose proof (row_length _ _ _ Hm Hrow) as Hlen.
    unfold get_row. rewrite Hrow, bind_Ok.
    rewrite np_convolve_same_111 by lia. rewrite bind_Ok.
    unfold set_row. rewrite Hst. rewrite decide_True by done.
    rewrite broadcast_to_same by (by rewrite length_conv3). rewrite bind_Ok.
    eexists. split; [done|]. split; [|split; [done|]].
    + destruct Hwt as [Hl Hrows]. split; simpl.
      * by rewrite length_insert, Hl, Hst.
      * rewrite Hst in Hrows. apply Forall_insert; [done|].
        by rewrite length_map, length_conv3.
    + intros r c Hin Hr. pose proof Hin as [[Hr0 Hr1] [Hc0 Hc1]].
      destruct (decide (r = Z.of_nat k)) as [->|Hne].
      * rewrite <- (Z2Nat.id c) at 1 by done. rewrite val_nat.
        unfold cell. simpl.
        rewrite list_lookup_insert_eq by (destruct Hwt as [Hl _]; rewrite Hl, Hst; lia).
        simpl. rewrite list_lookup_fmap, lookup_conv3 by lia. simpl.
        rewrite Z2Nat.id by done.
        by rewrite !(padded_row m k row) by done.
      * unfold val, cell. simpl. rewrite list_lookup_insert_ne by lia.
        apply Hvt; [done|lia].
  - exists b1. split; [done|]. split; [done|]. split; [done|].
    intros r c Hin. apply Hv; [done|]. destruct Hin as [? _]. lia.
Qed.

(** What the column loop leaves in [board]: each column summed with its
    upper and lower neighbours. *)
Lemma col_pass_ok (b1 : ndarray) :
  nd_wf b1 → (3 ≤ (shape b1).1)%nat →
  ∃ b2, col_pass (shape b1) b1 = Ok b2 ∧ nd_wf b2 ∧ shape b2 = shape b1 ∧
        ∀ r c, in_range (shape b1) r c →
               val b2 r c =
                 int8 (pval b1 (r - 1) c + pval b1 r c + pval b1 (r + 1) c).
Proof.
  intros Hb1 Hr3. unfold col_pass.
  destruct (for_range_total
              (λ k t, nd_wf t ∧ shape t = shape b1 ∧
                 ∀ r c, in_range (shape b1) r c →
                   val t r c =
                     if decide (c < Z.of_nat k)
                     then int8 (pval b1 (r - 1) c + pval b1 r c + pval b1 (r + 1) c)
                     else val b1 r c)
              (shape b1).2
              (λ board c,
                 col ← get_col board c;
                 conv ← np_convolve_same col [1; 1; 1];
                 set_col board c conv) b1) as (b2 & Hrun & Hwf & Hs & Hv).
  - split; [done|]. split; [done|]. intros r c [_ Hc]. by rewrite decide_False by lia.
  - intros k t Hk (Hwt & Hst & Hvt).
    assert (Hlen : length (data t) = (shape b1).1)
      by (destruct Hwt as [-> _]; by rewrite Hst).
    unfold get_col. rewrite Hst, decide_True by done. rewrite bind_Ok.
    set (col := map (λ row, default 0 (row !! k)) (data t)).
    assert (Hcl : length col = (shape b1).1) by (unfold col; by rewrite length_map).
    rewrite np_convolve_same_111 by lia. rewrite bind_Ok.
    unfold set_col. rewrite Hst, decide_True by done.
    rewrite broadcast_to_same by (by rewrite length_conv3). rewrite bind_Ok.
    eexists. split; [done|].
    assert (Hpv : ∀ z, padded col z = pval b1 z (Z.of_nat k)).
    { intros z. unfold col. rewrite padded_col by (by rewrite ?Hst).
      unfold pval. rewrite Hst. case_decide as Hd; [|done].
      rewrite (Hvt _ _ Hd). by rewrite decide_False by lia. }
    split; [|split; [done|]].
    + split; simpl.
      * rewrite length_zip_with, length_conv3. lia.
      * apply Forall_lookup. intros i row' Hi.
        apply lookup_zip_with_Some in Hi as (row & x & -> & Hrow & _).
        rewrite length_insert. rewrite <- Hst.
        by apply (row_length t i).
    + intros r c Hin. pose proof Hin as [[Hr0 Hr1] [Hc0 Hc1]].
      destruct (lookup_lt_is_Some_2 (data t) (Z.to_nat r)) as [row Hrow]; [lia|].
      pose proof (row_length _ _ _ Hwt Hrow) as Hrl. rewrite Hst in Hrl.
      assert (Hci : conv3 col !! Z.to_nat r =
                    Some (pval b1 (r - 1) (Z.of_nat k) + pval b1 r (Z.of_nat k)
                          + pval b1 (r + 1) (Z.of_nat k))).
      { rewrite lookup_conv3 by lia. rewrite !Hpv. by rewrite Z2Nat.id by done. }
      unfold val at 1. unfold cell. simpl.
      rewrite lookup_zip_with. rewrite Hrow, Hci. simpl.
      destruct (decide (c = Z.of_nat k)) as [->|Hne].
      * rewrite Nat2Z.id. rewrite list_lookup_insert_eq by lia. simpl.
        by rewrite decide_True by lia.
      * rewrite list_lookup_insert_ne by lia.
        transitivity (val t r c); [unfold val, cell; by rewrite Hrow|].
        rewrite (Hvt _ _ Hin). repeat case_decide; try done; lia.
  - exists b2. split; [done|]. split; [done|]. split; [done|].
    intros r c Hin. rewrite (Hv _ _ Hin). destruct Hin as [_ ?].
    by rewrite decide_True by lia.
Qed.

Lemma int8_small (z : Z) : -128 ≤ z < 128 → int8 z = z.
Proof. intros H. unfold int8. rewrite Z.mod_small; lia. Qed.

Lemma gt0_int8_wf (m : ndarray) : nd_wf m → nd_wf (gt0_int8 m).
Proof.
  intros [Hl Hrows]. split; simpl.
  - by rewrite length_map.
  - apply Forall_fmap. eapply Forall_impl; [done|]. intros row Hr. simpl.
    by rewrite length_map.
Qed.

Lemma val_gt0_int8 (m : ndarray) (r c : Z) :
  val (gt0_int8 m) r c = if 0 <? val m r c then 1 else 0.
Proof.
  unfold val, cell. simpl. rewrite list_lookup_fmap.
  destruct (data m !! Z.to_nat r) as [row|]; simpl; [|done].
  rewrite list_lookup_fmap. by destruct (row !! Z.to_nat c).
Qed.

Lemma pval_gt0_int8_range (m : ndarray) (r c : Z) : 0 ≤ pval (gt0_int8 m) r c ≤ 1.
Proof.
  unfold pval. case_decide; [|lia]. rewrite val_gt0_int8. destruct (0 <? _); lia.
Qed.

Lemma np_ones_wf (sh : nat * nat) : nd_wf (np_ones sh).
Proof.
  split; simpl; [by rewrite length_replicate|].
  apply Forall_replicate. by rewrite length_replicate.
Qed.

Lemma val_np_ones (sh : nat * nat) (r c : Z) :
  in_range sh r c → val (np_ones sh) r c = 1.
Proof.
  intros [Hr Hc]. unfold val, cell. simpl.
  rewrite lookup_replicate_2 by lia. simpl.
  by rewrite lookup_replicate_2 by lia.
Qed.

Lemma count_nonzero_np_ones (sh : nat * nat) :
  count_nonzero (np_ones sh) = (sh.1 * sh.2)%nat.
Proof.
  destruct sh as [r c]. unfold count_nonzero. simpl.
  assert (Hrow : count_nz (replicate c 1) = c).
  { unfold count_nz. induction c as [|c IH]; [done|]. cbn [replicate].
    rewrite filter_cons_True by done. cbn [length]. by rewrite IH. }
  induction r as [|r IH]; [done|]. simpl. rewrite IH, Hrow. done.
Qed.

Lemma np_empty_wf (junk : nat → nat → Z) (sh : nat * nat) : nd_wf (np_empty junk sh).
Proof.
  split; simpl; [by rewrite length_map, length_seq|].
  apply Forall_fmap, Forall_forall. intros i _. simpl.
  by rewrite length_map, length_seq.
Qed.

(** A loop over a non-empty range whose first iteration raises. *)
Lemma for_range_first_fails {S : Type} (n : nat) (body : S → nat → result S)
    (s : S) (e : exn) :
  (0 < n)%nat → body s 0%nat = Raise e → for_each (seq 0 n) body s = Raise e.
Proof. intros Hn Hb. destruct n; [lia|]. simpl. by rewrite Hb. Qed.

Lemma init_large (junk : nat → nat → Z) (m : ndarray) :
  nd_wf m → (3 ≤ (shape m).1)%nat → (3 ≤ (shape m).2)%nat →
  ∃ b, __init__ junk m = Ok b ∧ constructed m b.
Proof.
  intros Hm Hr3 Hc3. rewrite init_unfold.
  destruct (row_pass_ok (gt0_int8 m) (np_empty junk (shape m)))
    as (b1 & -> & Hw1 & Hs1 & Hv1);
    [by apply gt0_int8_wf|apply np_empty_wf|done|done|].
  rewrite bind_Ok. simpl in Hs1.
  destruct (col_pass_ok b1) as (b2 & Hrun & Hw2 & Hs2 & Hv2);
    [done|by rewrite Hs1|].
  rewrite Hs1 in Hrun. rewrite Hrun, bind_Ok.
  eexists. split; [done|]. split; simpl; try done.
  - split; simpl.
    + split; [by apply gt0_int8_wf|done].
    + split; [done|]. by rewrite Hs2, Hs1.
    + split; [apply np_ones_wf|done].
  - intros [r c] Hin. unfold in_bounds, hint in *. simpl in *.
    rewrite Hv2 by (by rewrite Hs1).
    set (g := gt0_int8 m) in *.
    assert (Hp1 : ∀ r' c', 0 ≤ c' < Z.of_nat (shape m).2 →
              pval b1 r' c' = pval g r' (c' - 1) + pval g r' c' + pval g r' (c' + 1)).
    { intros r' c' Hc'. unfold pval at 1. rewrite Hs1. case_decide as Hd.
      - rewrite Hv1 by done. apply int8_small.
        pose proof (pval_gt0_int8_range m r' (c' - 1)).
        pose proof (pval_gt0_int8_range m r' c').
        pose proof (pval_gt0_int8_range m r' (c' + 1)). unfold g. lia.
      - assert (Hz : ∀ c'', pval g r' c'' = 0).
        { intros c''. unfold pval. rewrite decide_False; [done|].
          unfold in_range in *. simpl in *. lia. }
        by rewrite !Hz. }
    destruct Hin as [Hr Hc]. rewrite !Hp1 by done.
    unfold window3x3. simpl.
    pose proof (λ r' c', pval_gt0_int8_range m r' c') as Hb. fold g in Hb.
    rewrite int8_small.
    + lia.
    + pose proof (Hb (r - 1) (c - 1)). pose proof (Hb (r - 1) c).
      pose proof (Hb (r - 1) (c + 1)). pose proof (Hb r (c - 1)).
      pose proof (Hb r c). pose proof (Hb r (c + 1)).
      pose proof (Hb (r + 1) (c - 1)). pose proof (Hb (r + 1) c).
      pose proof (Hb (r + 1) (c + 1)). lia.
Qed.

(** [np.convolve] raises nothing but [ValueError]. *)
Lemma np_convolve_same_error (a v : list Z) (e : exn) :
  np_convolve_same a v = Raise e → e = ValueError.
Proof.
  unfold np_convolve_same. destruct (length a <? length v)%nat.
  - destruct (length v =? 0)%nat; [congruence|].
    destruct (length a =? 0)%nat; congruence.
  - destruct (length a =? 0)%nat; [congruence|].
    destruct (length v =? 0)%nat; congruence.
Qed.

Lemma set_row_three_fails (a : ndarray) (r : nat) (v : list Z) :
  (r < (shape a).1)%nat → ((shape a).2 < 3)%nat → length v = 3%nat →
  set_row a r v = Raise ValueError.
Proof.
  intros Hr Hc Hv. unfold set_row. rewrite decide_True by done.
  by rewrite broadcast_to_three by lia.
Qed.

Lemma set_col_three_fails (a : ndarray) (c : nat) (v : list Z) :
  (c < (shape a).2)%nat → ((shape a).1 < 3)%nat → length v = 3%nat →
  set_col a c v = Raise ValueError.
Proof.
  intros Hr Hc Hv. unfold set_col. rewrite decide_True by done.
  by rewrite broadcast_to_three by lia.
Qed.

(** The constructor raises on a grid with fewer than three columns. *)
Lemma init_narrow (junk : nat → nat → Z) (m : ndarray) :
  nd_wf m → (0 < (shape m).1)%nat → ((shape m).2 < 3)%nat →
  __init__ junk m = Raise ValueError.
Proof.
  intros Hm Hr Hc. rewrite init_unfold. unfold row_pass.
  rewrite (for_range_first_fails _ _ _ ValueError); [done|done|].
  pose proof (gt0_int8_wf _ Hm) as Hg.
  destruct (lookup_lt_is_Some_2 (data (gt0_int8 m)) 0) as [row Hrow];
    [destruct Hg as [-> _]; simpl; lia|].
  unfold get_row. rewrite Hrow, bind_Ok.
  pose proof (row_length _ _ _ Hg Hrow) as Hlen. simpl in Hlen.
  destruct (np_convolve_same row [1; 1; 1]) as [r|e] eqn:Hcv.
  - rewrite bind_Ok. apply set_row_three_fails; simpl; [done|done|].
    apply (np_convolve_same_short row); [lia|done].
  - by rewrite (np_convolve_same_error _ _ _ Hcv).
Qed.

(** The constructor raises on a grid with fewer than three rows, the
    grid without any cell apart. *)
Lemma init_low (junk : nat → nat → Z) (m : ndarray) :
  nd_wf m → ((shape m).1 < 3)%nat → (0 < (shape m).2)%nat →
  __init__ junk m = Raise ValueError.
Proof.
  intros Hm Hr Hc.
  destruct (decide ((shape m).2 < 3)%nat) as [Hc3|Hc3].
  { destruct (decide ((shape m).1 = 0)%nat) as [Hr0|Hr0].
    2:{ apply init_narrow; [done|lia|done]. }
    rewrite init_unfold. unfold row_pass. simpl. rewrite Hr0. simpl.
    unfold col_pass.
    rewrite (for_range_first_fails _ _ _ ValueError); [done|done|].
    unfold get_col. simpl. rewrite decide_True by done. rewrite Hr0. done. }
  rewrite init_unfold.
  destruct (row_pass_ok (gt0_int8 m) (np_empty junk (shape m)))
    as (b1 & -> & Hw1 & Hs1 & _);
    [by apply gt0_int8_wf|apply np_empty_wf|done|simpl; lia|].
  rewrite bind_Ok. simpl in Hs1. unfold col_pass.
  rewrite (for_range_first_fails _ _ _ ValueError); [done|done|].
  unfold get_col. rewrite Hs1, decide_True by done. rewrite bind_Ok.
  set (col := map _ (data b1)).
  assert (Hlen : length col = (shape m).1).
  { unfold col. rewrite length_map. destruct Hw1 as [-> _]. by rewrite Hs1. }
  destruct (np_convolve_same col [1; 1; 1]) as [r|e] eqn:Hcv.
  - rewrite bind_Ok. apply set_col_three_fails; rewrite ?Hs1; [done|done|].
    apply (np_convolve_same_short col); [lia|done].
  - by rewrite (np_convolve_same_error _ _ _ Hcv).
Qed.

(** The shapes the constructor accepts. *)
Lemma init_dims (junk : nat → nat → Z) (m : ndarray) (b : MineSweeper) :
  nd_wf m → __init__ junk m = Ok b →
  shape m = (0%nat, 0%nat) ∨ ((3 ≤ (shape m).1)%nat ∧ (3 ≤ (shape m).2)%nat).
Proof.
  intros Hm Hrun.
  destruct (decide ((shape m).1 < 3)%nat) as [Hr|Hr].
  - destruct (decide (0 < (shape m).2)%nat) as [Hc|Hc].
    { rewrite init_low in Hrun by done. done. }
    destruct (decide (0 < (shape m).1)%nat) as [Hr0|Hr0].
    { rewrite init_narrow in Hrun by (done || lia). done. }
    left. destruct (shape m) as [r c]. simpl in *. f_equal; lia.
  - destruct (decide ((shape m).2 < 3)%nat) as [Hc|Hc].
    { rewrite init_narrow in Hrun by (done || lia). done. }
    right. lia.
Qed.

Lemma init_constructed (junk : nat → nat → Z) (m : ndarray) (b : MineSweeper) :
  nd_wf m → __init__ junk m = Ok b → constructed m b.
Proof.
  intros Hm Hrun.
  destruct (init_dims _ _ _ Hm Hrun) as [Hz|[Hr Hc]].
  - destruct m as [sh d]. simpl in Hz. subst sh. destruct Hm as [Hl _].
    simpl in Hl. destruct d; [|done].
    vm_compute in Hrun. injection Hrun as <-.
    split; [|done|done|done|done|done|done|].
    + split; split; try done; split; simpl; auto.
    + intros rc [Hr _]. simpl in Hr. lia.
  - destruct (init_large junk m Hm Hr Hc) as (b0 & Hb0 & Hcons).
    rewrite Hrun in Hb0. by injection Hb0 as <-.
Qed.

(** ** Boards reached through the interface *)

Lemma pval_mines (m : ndarray) (b : MineSweeper) (r c : Z) :
  board_inv m b → pval (mines b) r c = mine_indicator b (r, c).
Proof.
  intros Hi. destruct (inv_shaped _ _ Hi) as [[_ Hs] _ _].
  unfold pval, mine_indicator, in_bounds, is_mine. rewrite Hs. simpl.
  rewrite (inv_mines _ _ Hi), val_gt0_int8.
  destruct (decide (in_range (size b) r c)) as [Hin|Hout].
  - destruct (0 <? val m r c).
    + by rewrite decide_True.
    + rewrite decide_False; [done|]. intros [_ K]. by apply K.
  - rewrite decide_False; [done|tauto].
Qed.

Lemma mine_indicator_range (b : MineSweeper) (rc : Z * Z) :
  0 ≤ mine_indicator b rc ≤ 1.
Proof. unfold mine_indicator. case_decide; lia. Qed.

Lemma hint_window_mines (m : ndarray) (b : MineSweeper) (rc : Z * Z) :
  board_inv m b → in_bounds b rc → hint b rc = window_mines b rc.
Proof.
  intros Hi Hin. rewrite (inv_counts _ _ Hi) by done. destruct rc as [r0 c0].
  unfold window3x3, window_mines. f_equal. apply map_ext.
  intros [r c]. simpl. by apply (pval_mines m).
Qed.

Lemma sum_indicators_zero (b : MineSweeper) (l : list (Z * Z)) (x : Z * Z) :
  foldr Z.add 0 (map (mine_indicator b) l) = 0 → x ∈ l → mine_indicator b x = 0.
Proof.
  induction l as [|y l IH]; intros Hs Hx; [by apply elem_of_nil in Hx|].
  simpl in Hs. pose proof (mine_indicator_range b y).
  assert (0 ≤ foldr Z.add 0 (map (mine_indicator b) l)).
  { clear. induction l as [|z l IH]; simpl; [lia|].
    pose proof (mine_indicator_range b z). lia. }
  apply elem_of_cons in Hx as [->|Hx]; [lia|]. apply IH; [lia|done].
Qed.

Lemma sum_indicators_count (b : MineSweeper) (l : list (Z * Z)) :
  foldr Z.add 0 (map (mine_indicator b) l) =
  Z.of_nat (length (filter (λ n, in_bounds b n ∧ is_mine b n) l)).
Proof.
  induction l as [|y l IH]; [done|]. simpl. rewrite IH. unfold mine_indicator.
  case_decide.
  - rewrite filter_cons_True by done. simpl. lia.
  - rewrite filter_cons_False by done. lia.
Qed.

Lemma board_inv_safe_zeros (m : ndarray) (b : MineSweeper) :
  board_inv m b → safe_zeros b.
Proof.
  intros Hi rc rc' Hin Hz Hn Hin' Hm.
  rewrite (hint_window_mines m) in Hz by done.
  pose proof (sum_indicators_zero b _ rc' Hz Hn) as K.
  unfold mine_indicator in K. by rewrite decide_True in K.
Qed.

(** A non-mine cell has at most eight mines around it, and its count is
    their number. *)
Lemma hint_adjacent_mines (m : ndarray) (b : MineSweeper) (rc : Z * Z) :
  board_inv m b → in_bounds b rc → ¬ is_mine b rc →
  hint b rc = adjacent_mines b rc ∧ 0 ≤ hint b rc ≤ 8.
Proof.
  intros Hi Hin Hm. rewrite (hint_window_mines m) by done.
  unfold window_mines, adjacent_mines. cbn [map foldr].
  rewrite sum_indicators_count.
  assert (mine_indicator b rc = 0) as ->
    by (unfold mine_indicator; rewrite decide_False; tauto).
  split; [lia|].
  pose proof (length_filter (λ n, in_bounds b n ∧ is_mine b n)
                (neighbours8 rc.1 rc.2)) as K.
  simpl in K. simpl. lia.
Qed.

Lemma cascade_reach_safe (b : MineSweeper) (x y : Z * Z) :
  safe_zeros b → cascade_reach b x y → ¬ is_mine b x → ¬ is_mine b y.
Proof.
  intros Hs Hr Hx. apply rtc_inv_r in Hr as [<-|(z & _ & Hz & Hzz & Hy & Hiy)];
    [done|].
  apply (Hs z y); [done|done|by right|done].
Qed.

Lemma constructed_board_inv (m : ndarray) (b : MineSweeper) :
  constructed m b → board_inv m b.
Proof.
  intros [H1 H2 H3 H4 H5 H6 H7 H8]. split; try done.
  - rewrite H6, H5, count_nonzero_np_ones. lia.
  - intros x y (Hx & _) Hu. exfalso. apply Hu. unfold is_covered.
    rewrite H5, val_np_ones; done.
  - intros _ rc Hin _. unfold is_covered. rewrite H5, val_np_ones; done.
Qed.

Lemma reveal_rec_board_inv (im : index_mode) (depth : nat) (m : ndarray)
    (b b' : MineSweeper) (row col ret : Z) :
  board_inv m b → reveal_rec im depth b row col = Ok (b', ret) → board_inv m b'.
Proof.
  intros Hi Hrun. pose proof (inv_shaped _ _ Hi) as Hsh.
  pose proof (board_inv_safe_zeros _ _ Hi) as Hsafe.
  pose proof (reveal_rec_extends _ _ _ _ _ _ _ Hsh Hrun) as Hext.
  split.
  - apply (ext_shaped _ _ Hext).
  - rewrite (ext_size _ _ Hext). apply (inv_size _ _ Hi).
  - rewrite (ext_mines _ _ Hext). apply (inv_mines _ _ Hi).
  - rewrite (ext_num_mines _ _ Hext), (ext_mines _ _ Hext).
    apply (inv_num_mines _ _ Hi).
  - intros rc Hin. rewrite (extends_hint _ _ _ Hext), (ext_mines _ _ Hext).
    apply (inv_counts _ _ Hi). by apply (extends_in_bounds _ _ _ Hext).
  - pose proof (ext_count _ _ Hext). pose proof (inv_num_covered _ _ Hi). lia.
  - by eapply reveal_rec_closed; [| |apply (inv_closed _ _ Hi)|].
  - intros Hgs rc Hin Hm.
    apply (extends_in_bounds _ _ _ Hext) in Hin.
    apply (extends_is_mine _ _ _ Hext) in Hm.
    destruct (reveal_rec_state _ _ _ _ _ _ _ Hsh Hsafe Hrun) as [[_ K]|[Hret K]];
      [congruence|].
    unfold state_after_safe in K. case_decide; [congruence|].
    rewrite K in Hgs. pose proof (inv_in_progress _ _ Hi Hgs rc Hin Hm) as Hc.
    destruct (decide (is_covered b' rc)) as [|Hu]; [done|]. exfalso.
    pose proof (reveal_rec_sound _ _ _ _ _ _ _ Hsh Hrun rc Hin Hc Hu) as Hr.
    apply (cascade_reach_safe _ _ _ Hsafe Hr); [|done].
    destruct (reveal_rec_code _ _ _ _ _ _ _ Hsh Hrun)
      as [(_ & -> & _)|[(-> & _)|(_ & _ & _ & Hnm)]]; done.
Qed.

Lemma reachable_board_inv (m : ndarray) (b : MineSweeper) :
  reachable m b → board_inv m b.
Proof.
  induction 1 as [junk b Hm Hrun|b b' row col ret _ IH Hrun].
  - by apply constructed_board_inv, (init_constructed junk).
  - by eapply reveal_rec_board_inv.
Qed.

Lemma reveal_total (b : MineSweeper) (row col : Z) :
  shaped b → ∃ b' ret, reveal b row col = Ok (b', ret).
Proof. intros Hsh. apply reveal_rec_total; [done|by apply shaped_count_le]. Qed.

(** ** The accessors *)

Lemma getsquare_in_bounds (im : index_mode) (b : MineSweeper) (row col : Z) :
  shaped b → in_bounds b (row, col) →
  getsquare_in im b row col =
    Ok (if decide (is_covered b (row, col)) then -1
        else if decide (is_mine b (row, col)) then -2
        else hint b (row, col)).
Proof.
  intros [[Hm Hms] [Hb Hbs] [Hc Hcs]] Hin. unfold getsquare_in.
  pose proof Hin as Hin'. apply out_of_bounds_false in Hin'. rewrite Hin'.
  unfold in_bounds, is_covered, is_mine, hint in *. cbn [fst snd] in *.
  rewrite (getitem_val im (covered b)) by (by rewrite ?Hcs). rewrite bind_Ok.
  destruct (decide (val (covered b) row col ≠ 0)) as [Hcov|Hcov].
  { by rewrite (proj2 (Z.eqb_neq _ _) Hcov). }
  assert (val (covered b) row col = 0) as -> by lia. cbn [Z.eqb negb].
  rewrite (getitem_val im (mines b)) by (by rewrite ?Hms). rewrite bind_Ok.
  destruct (decide (val (mines b) row col ≠ 0)) as [Hmine|Hmine].
  { by rewrite (proj2 (Z.eqb_neq _ _) Hmine). }
  assert (val (mines b) row col = 0) as -> by lia. cbn [Z.eqb negb].
  by rewrite (getitem_val im (board b)) by (by rewrite ?Hbs).
Qed.

Lemma getsquare_out (im : index_mode) (b : MineSweeper) (row col : Z) :
  ¬ in_bounds b (row, col) → getsquare_in im b row col = Ok (-3).
Proof. intros H. apply out_of_bounds_true in H. unfold getsquare_in. by rewrite H. Qed.

(** ** Boards of the examples *)

Lemma grid_3x3_wf (rows : list (list Z)) :
  length rows = 3%nat → Forall (λ row, length row = 3%nat) rows →
  nd_wf (grid (3, 3)%nat rows).
Proof. by split. Qed.

Lemma mask_3x3_corner_wf : nd_wf mask_3x3_corner.
Proof. apply grid_3x3_wf; [done|]. repeat constructor. Qed.

Lemma mask_3x3_two_wf : nd_wf mask_3x3_two.
Proof. apply grid_3x3_wf; [done|]. repeat constructor. Qed.

Lemma mask_3x3_empty_wf : nd_wf mask_3x3_empty.
Proof. apply grid_3x3_wf; [done|]. repeat constructor. Qed.

Lemma init_3x3_corner : __init__ no_junk mask_3x3_corner = Ok board_3x3_corner.
Proof. reflexivity. Qed.

Lemma init_3x3_two : __init__ no_junk mask_3x3_two = Ok board_3x3_two.
Proof. reflexivity. Qed.

Lemma init_3x3_empty : __init__ no_junk mask_3x3_empty = Ok board_3x3_empty.
Proof. reflexivity. Qed.

Lemma reachable_3x3_corner : reachable mask_3x3_corner board_3x3_corner.
Proof. exact (reach_init _ _ _ mask_3x3_corner_wf init_3x3_corner). Qed.

Lemma reachable_3x3_two : reachable mask_3x3_two board_3x3_two.
Proof. exact (reach_init _ _ _ mask_3x3_two_wf init_3x3_two). Qed.

Lemma reachable_3x3_empty : reachable mask_3x3_empty board_3x3_empty.
Proof. exact (reach_init _ _ _ mask_3x3_empty_wf init_3x3_empty). Qed.

Lemma shaped_3x3_corner : shaped board_3x3_corner.
Proof. apply (inv_shaped mask_3x3_corner), reachable_board_inv, reachable_3x3_corner. Qed.

(** ** Runs of the examples *)

Lemma reveal_3x3_empty_centre :
  reveal board_3x3_empty 1 1 = Ok (board_3x3_empty_won, 1).
Proof. reflexivity. Qed.

Lemma reveal_3x3_corner_far :
  reveal board_3x3_corner 2 2 = Ok (board_3x3_corner_won, 1).
Proof. reflexivity. Qed.

Lemma reveal_3x3_corner_mine :
  reveal board_3x3_corner_won 0 0 = Ok (board_3x3_corner_lost, 0).
Proof. reflexivity. Qed.

Lemma reachable_3x3_corner_won : reachable mask_3x3_corner board_3x3_corner_won.
Proof. exact (reach_reveal _ _ _ _ _ _ reachable_3x3_corner reveal_3x3_corner_far). Qed.

Lemma reachable_reveal_all (m : ndarray) (moves : list (Z * Z)) :
  ∀ (b b' : MineSweeper) (rets : list Z),
    reachable m b → reveal_all b moves = Ok (b', rets) → reachable m b'.
Proof.
  induction moves as [|[row col] moves IH]; intros b b' rets Hreach Hrun;
    simpl in Hrun.
  { by injection Hrun as <- <-. }
  apply bind_Ok_inv in Hrun as ([b1 ret] & Hstep & Hrun).
  apply bind_Ok_inv in Hrun as ([b2 rets'] & Hrest & Hrun).
  simpl in *. injection Hrun as <- <-.
  eapply IH; [|done]. by eapply reach_reveal.
Qed.

Lemma mask_3x3_centre_wf : nd_wf mask_3x3_centre.
Proof. apply grid_3x3_wf; [done|]. repeat constructor. Qed.

Lemma reachable_3x3_centre : reachable mask_3x3_centre board_3x3_centre.
Proof. exact (reach_init _ no_junk _ mask_3x3_centre_wf eq_refl). Qed.

Lemma reachable_3x3_centre_late : reachable mask_3x3_centre board_3x3_centre_late.
Proof.
  apply (reachable_reveal_all _ moves_3x3_centre board_3x3_centre _
           [0; 1; 1; 1; 1; 1; 1; 1]); [apply reachable_3x3_centre|].
  vm_compute. reflexivity.
Qed.

Lemma reveal_3x3_centre_last :
  reveal board_3x3_centre_late 2 2 = Ok (board_3x3_centre_end, 1).
Proof. vm_compute. reflexivity. Qed.


Lemma in_bounds_3x3_cases (b : MineSweeper) (row col : Z) :
  size b = (3, 3)%nat → in_bounds b (row, col) →
  (row = 0 ∨ row = 1 ∨ row = 2) ∧ (col = 0 ∨ col = 1 ∨ col = 2).
Proof.
  intros Hs [Hr Hc]. rewrite Hs in Hr, Hc. simpl in Hr, Hc. lia.
Qed.

Lemma in_bounds_3x3 (b : MineSweeper) (row col : Z) :
  size b = (3, 3)%nat → 0 ≤ row < 3 → 0 ≤ col < 3 → in_bounds b (row, col).
Proof. intros Hs Hr Hc. unfold in_bounds, in_range. rewrite Hs. simpl. lia. Qed.

(** * The claims *)

(** C6.  A [reveal] at a coordinate outside the board, or at a cell that
    is already uncovered, returns -1 and hands back the very same board:
    covered grid, [num_covered], [game_state], mines and counts are as
    before the call.  This holds for the call of the interface and for
    every nested activation, whatever the budget left. *)
Theorem reveal_blocked_is_noop (b : MineSweeper) (row col : Z)
    (Hblocked : ¬ in_bounds b (row, col) ∨ getitem NumPy (covered b) row col = Ok 0) :
  reveal b row col = Ok (b, -1) ∧
  ∀ depth, reveal_rec NumPy depth b row col = Ok (b, -1).
Proof.
  assert (G : ∀ depth, reveal_rec NumPy depth b row col = Ok (b, -1)).
  { intros depth. destruct (decide (in_bounds b (row, col))) as [Hin|Hout].
    - destruct Hblocked as [?|Hc]; [done|]. by apply reveal_rec_uncovered.
    - by apply reveal_rec_out. }
  split; [apply G|done].
Qed.

Lemma reveal_blocked_is_noop_witness :
  reveal board_3x3_corner 3 0 = Ok (board_3x3_corner, -1) ∧
  ∀ depth, reveal_rec NumPy depth board_3x3_corner 3 0 = Ok (board_3x3_corner, -1).
Proof.
  apply reveal_blocked_is_noop. left. unfold in_bounds, in_range. simpl. lia.
Defined.

(** C8.  [num_covered] is the number of true entries of [covered] when
    the constructor returns, and every activation of [reveal], nested or
    not, keeps it so: an activation that gets past the guard turns
    exactly its own cell from covered to uncovered and takes one off the
    counter, a blocked one changes nothing, and no cell that is uncovered
    before a call is covered after it. *)
Theorem num_covered_counts_covered (junk : nat → nat → Z) (m : ndarray)
    (b0 : MineSweeper) (Hm : nd_wf m) (Hinit : __init__ junk m = Ok b0) :
  num_covered b0 = Z.of_nat (count_nonzero (covered b0)) ∧
  ∀ im depth b row col b' ret,
    shaped b →
    num_covered b = Z.of_nat (count_nonzero (covered b)) →
    reveal_rec im depth b row col = Ok (b', ret) →
    num_covered b' = Z.of_nat (count_nonzero (covered b')) ∧
    (∀ rc, in_bounds b rc → ¬ is_covered b rc → ¬ is_covered b' rc) ∧
    (ret = -1 → b' = b) ∧
    (ret ≠ -1 →
       num_covered (uncovered_at b row col) = num_covered b - 1 ∧
       (count_nonzero (covered (uncovered_at b row col)) + 1
        = count_nonzero (covered b))%nat ∧
       (∀ rc, in_bounds b rc →
              is_covered (uncovered_at b row col) rc ↔
              is_covered b rc ∧ rc ≠ (row, col)) ∧
       extends (uncovered_at b row col) b').
Proof.
  split.
  { apply (inv_num_covered m), constructed_board_inv. by apply (init_constructed junk). }
  intros im depth b row col b' ret Hsh Hnc Hrun.
  pose proof (reveal_rec_extends _ _ _ _ _ _ _ Hsh Hrun) as Hext.
  split; [pose proof (ext_count _ _ Hext); lia|].
  split; [apply (ext_mono _ _ Hext)|].
  destruct (reveal_rec_cases _ _ _ _ _ _ _ Hsh Hrun)
    as [(-> & -> & _)|(Hin & Hcov & depth' & -> & Hcase)]; [done|].
  assert (Hret : ret ≠ -1)
    by (destruct Hcase as [(_ & _ & ->)|[(_ & _ & _ & ->)|(_ & _ & -> & _)]]; lia).
  split; [done|]. intros _.
  destruct (extends_uncovered_at b row col Hsh Hin Hcov) as [Hext1 Hone].
  destruct (uncovered_at_fields b row col) as (_ & _ & _ & _ & _ & E6 & _).
  split; [done|]. split; [done|].
  split; [intros rc Hrc; by apply is_covered_uncovered_at|].
  destruct Hcase as [(_ & -> & _)|[(_ & _ & -> & _)|(_ & _ & _ & Hfe)]].
  - apply extends_set_game_state, extends_refl, (ext_shaped _ _ Hext1).
  - apply extends_refl, (ext_shaped _ _ Hext1).
  - revert Hfe. apply for_each_ind.
    + apply extends_refl, (ext_shaped _ _ Hext1).
    + intros rc t t' Ht _ Hstep. apply cascade_step_inv in Hstep as [r Hstep].
      eapply extends_trans; [done|].
      eapply reveal_rec_extends; [|done]. apply (ext_shaped _ _ Ht).
Qed.

Lemma num_covered_counts_covered_witness :
  num_covered board_3x3_corner
  = Z.of_nat (count_nonzero (covered board_3x3_corner)) ∧
  (shaped board_3x3_corner →
   num_covered board_3x3_corner
   = Z.of_nat (count_nonzero (covered board_3x3_corner)) →
   reveal_rec NumPy 9 board_3x3_corner 2 2 = Ok (board_3x3_corner_won, 1) →
   num_covered board_3x3_corner_won
   = Z.of_nat (count_nonzero (covered board_3x3_corner_won))).
Proof.
  destruct (num_covered_counts_covered no_junk mask_3x3_corner
              board_3x3_corner mask_3x3_corner_wf init_3x3_corner) as [H0 H].
  split; [exact H0|].
  intros Hsh Hnc Hrun. exact (proj1 (H _ _ _ _ _ _ _ Hsh Hnc Hrun)).
Defined.

(** C3.  On every board the count of a cell is the number of mines in
    the 3x3 window centred on it, the cell itself included and positions
    off the board counting zero; hence [getsquare] at an uncovered cell
    that is no mine returns the number of mines among its eight
    neighbours on the board. *)
Theorem counts_are_window_sums (m : ndarray) (b : MineSweeper)
    (Hreach : reachable m b) :
  (∀ rc, in_bounds b rc → is_mine b rc ↔ 0 < val m rc.1 rc.2) ∧
  (∀ rc, in_bounds b rc → hint b rc = window_mines b rc) ∧
  (∀ row col,
     in_bounds b (row, col) → ¬ is_covered b (row, col) →
     ¬ is_mine b (row, col) →
     getsquare b row col = Ok (adjacent_mines b (row, col))).
Proof.
  pose proof (reachable_board_inv _ _ Hreach) as Hi.
  split.
  { intros rc _. unfold is_mine. rewrite (inv_mines _ _ Hi), val_gt0_int8.
    destruct (Z.ltb_spec 0 (val m rc.1 rc.2)); split; (done || lia). }
  split; [intros rc Hin; by apply (hint_window_mines m)|].
  intros row col Hin Hu Hm. unfold getsquare.
  rewrite getsquare_in_bounds by (done || apply (inv_shaped _ _ Hi)).
  rewrite !decide_False by done. f_equal.
  by apply (hint_adjacent_mines m).
Qed.

Lemma counts_are_window_sums_witness :
  (∀ rc, in_bounds board_3x3_corner_won rc →
         is_mine board_3x3_corner_won rc ↔ 0 < val mask_3x3_corner rc.1 rc.2) ∧
  (∀ rc, in_bounds board_3x3_corner_won rc →
         hint board_3x3_corner_won rc = window_mines board_3x3_corner_won rc) ∧
  (∀ row col,
     in_bounds board_3x3_corner_won (row, col) →
     ¬ is_covered board_3x3_corner_won (row, col) →
     ¬ is_mine board_3x3_corner_won (row, col) →
     getsquare board_3x3_corner_won row col
     = Ok (adjacent_mines board_3x3_corner_won (row, col))).
Proof.
  exact (counts_are_window_sums mask_3x3_corner board_3x3_corner_won
           reachable_3x3_corner_won).
Defined.

(** ** Indexing modes *)

Lemma for_each_ext_inv {A S : Type} (I : S → Prop) (xs : list A)
    (body1 body2 : S → A → result S) (s : S) :
  I s →
  (∀ t x, I t → body1 t x = body2 t x) →
  (∀ t x t', I t → body2 t x = Ok t' → I t') →
  for_each xs body1 s = for_each xs body2 s.
Proof.
  intros Hs Heq Hpres. revert s Hs.
  induction xs as [|x xs IH]; intros s Hs; simpl; [done|].
  rewrite (Heq s x Hs). destruct (body2 s x) as [t'|e] eqn:Hb; [|done].
  rewrite !bind_Ok. apply IH. by eapply Hpres.
Qed.

Lemma for_each_raise_inv {A S : Type} (I : S → Prop) (xs : list A)
    (body : S → A → result S) (s : S) (e : exn) :
  I s →
  (∀ t x t', I t → body t x = Ok t' → I t') →
  for_each xs body s = Raise e →
  ∃ t x, I t ∧ body t x = Raise e.
Proof.
  intros Hs Hpres. revert s Hs.
  induction xs as [|x xs IH]; intros s Hs; simpl; [done|].
  destruct (body s x) as [t'|e'] eqn:Hb.
  - rewrite bind_Ok. apply IH. by eapply Hpres.
  - intros [= ->]. eauto.
Qed.

Lemma cascade_step_shaped (im : index_mode) (depth : nat) (t t' : MineSweeper)
    (rc : Z * Z) :
  shaped t → cascade_step (reveal_rec im depth) t rc = Ok t' → shaped t'.
Proof.
  intros Ht Hstep. apply cascade_step_inv in Hstep as [r Hstep].
  apply (ext_shaped t). by eapply reveal_rec_extends.
Qed.

Lemma uncovered_getitem (im : index_mode) (b : MineSweeper) (row col : Z) :
  shaped b → in_bounds b (row, col) → ¬ is_covered b (row, col) →
  getitem im (covered b) row col = Ok 0.
Proof.
  intros [_ _ [Hc Hcs]] Hin Hunc. rewrite getitem_val by (by rewrite ?Hcs).
  f_equal. unfold is_covered in Hunc. simpl in Hunc. lia.
Qed.

(** Indexing that refuses every index outside [0, n) gives the
    activation the same result as numpy's. *)
Lemma reveal_rec_mode (depth : nat) :
  ∀ (b : MineSweeper) (row col : Z),
    shaped b →
    reveal_rec Strict depth b row col = reveal_rec NumPy depth b row col.
Proof.
  induction depth as [|depth IH]; intros b row col Hsh;
    (destruct (decide (in_bounds b (row, col))) as [Hin|Hout];
     [|by rewrite !reveal_rec_out]);
    (destruct (decide (is_covered b (row, col))) as [Hcov|Hunc];
     [|by rewrite !reveal_rec_uncovered by (done || by apply uncovered_getitem)]).
  - by rewrite !reveal_rec_no_budget.
  - rewrite !reveal_rec_covered by done.
    destruct (decide (is_mine b (row, col))); [done|].
    destruct (decide (hint b (row, col) = 0)); [|done].
    rewrite (for_each_ext_inv shaped _
               (cascade_step (reveal_rec Strict depth))
               (cascade_step (reveal_rec NumPy depth))); [done| | |].
    + by apply shaped_uncover.
    + intros t rc Ht. unfold cascade_step. by rewrite IH.
    + intros t rc t' Ht. by apply cascade_step_shaped.
Qed.

(** An activation raises nothing but the exhaustion of its budget. *)
Lemma reveal_rec_raises (im : index_mode) (depth : nat) :
  ∀ (b : MineSweeper) (row col : Z) (e : exn),
    shaped b → reveal_rec im depth b row col = Raise e → e = RecursionError.
Proof.
  induction depth as [|depth IH]; intros b row col e Hsh Hrun;
    (destruct (decide (in_bounds b (row, col))) as [Hin|Hout];
     [|by rewrite reveal_rec_out in Hrun]);
    (destruct (decide (is_covered b (row, col))) as [Hcov|Hunc];
     [|by rewrite reveal_rec_uncovered in Hrun
         by (done || by apply uncovered_getitem)]).
  - rewrite reveal_rec_no_budget in Hrun by done. by injection Hrun.
  - rewrite reveal_rec_covered in Hrun by done.
    destruct (decide (is_mine b (row, col))); [done|].
    destruct (decide (hint b (row, col) = 0)); [|done].
    destruct (for_each _ _ _) as [s|e'] eqn:Hfe; [done|].
    injection Hrun as ->.
    apply (for_each_raise_inv shaped) in Hfe as (t & rc & Ht & Hstep).
    + unfold cascade_step in Hstep.
      destruct (reveal_rec im depth t rc.1 rc.2) as [res|e'] eqn:Hr; [done|].
      injection Hstep as ->. by eapply IH.
    + by apply shaped_uncover.
    + intros t rc t' Ht. by apply cascade_step_shaped.
Qed.

(** C10.  No access made by [reveal] or [getsquare] uses an index
    outside [0, rows) x [0, cols): run with indexing that raises on every
    negative or too large index, either gives exactly what it gives with
    numpy's indexing, and that is never an [IndexError] (nor any
    exception, the budget of [reveal] being enough). *)
Theorem indexing_stays_in_range (depth : nat) (b : MineSweeper) (row col : Z)
    (Hsh : shaped b) :
  reveal_rec Strict depth b row col = reveal_rec NumPy depth b row col ∧
  (∀ e, reveal_rec Strict depth b row col = Raise e → e = RecursionError) ∧
  (((size b).1 * (size b).2 ≤ depth)%nat →
   is_Ok (reveal_rec Strict depth b row col)) ∧
  getsquare_in Strict b row col = getsquare b row col ∧
  is_Ok (getsquare_in Strict b row col).
Proof.
  split; [by apply reveal_rec_mode|].
  split; [intros e; by apply reveal_rec_raises|].
  split.
  { intros Hd. destruct (reveal_rec_total Strict depth b row col Hsh)
      as (b' & ret & ->); [|by eexists].
    pose proof (shaped_count_le b Hsh). lia. }
  unfold getsquare.
  destruct (decide (in_bounds b (row, col))) as [Hin|Hout].
  - rewrite !getsquare_in_bounds by done. split; [done|by eexists].
  - rewrite !getsquare_out by done. split; [done|by eexists].
Qed.

Lemma indexing_stays_in_range_witness :
  reveal_rec Strict 9 board_3x3_corner 2 2
  = reveal_rec NumPy 9 board_3x3_corner 2 2 ∧
  (∀ e, reveal_rec Strict 9 board_3x3_corner 2 2 = Raise e → e = RecursionError) ∧
  (((size board_3x3_corner).1 * (size board_3x3_corner).2 ≤ 9)%nat →
   is_Ok (reveal_rec Strict 9 board_3x3_corner 2 2)) ∧
  getsquare_in Strict board_3x3_corner 2 2 = getsquare board_3x3_corner 2 2 ∧
  is_Ok (getsquare_in Strict board_3x3_corner 2 2).
Proof. apply indexing_stays_in_range, shaped_3x3_corner. Defined.

(** ** The recursion limit *)

Lemma for_each_cascade_mono
    (f g : MineSweeper → Z → Z → result (MineSweeper * Z)) (xs : list (Z * Z)) :
  (∀ s r c x, f s r c = Ok x → g s r c = Ok x) →
  ∀ s s', for_each xs (cascade_step f) s = Ok s' →
          for_each xs (cascade_step g) s = Ok s'.
Proof.
  intros Hfg. induction xs as [|x xs IH]; intros s s' Hrun; simpl in *; [done|].
  apply bind_Ok_inv in Hrun as (s1 & Hstep & Hrun).
  apply cascade_step_inv in Hstep as [ret Hcall].
  assert (cascade_step g s x = Ok s1) as ->.
  { unfold cascade_step. by rewrite (Hfg _ _ _ _ Hcall). }
  rewrite bind_Ok. by apply IH.
Qed.

Lemma reveal_rec_0 (im : index_mode) (self : MineSweeper) (row col : Z) :
  reveal_rec im 0 self row col =
    if out_of_bounds self row col then Ok (self, -1)
    else
      cov ← getitem im (covered self) row col;
      if cov =? 0 then Ok (self, -1) else Raise RecursionError.
Proof. reflexivity. Qed.

Lemma reveal_calls_0 (im : index_mode) (self : MineSweeper) (row col : Z) :
  reveal_calls im 0 self row col =
    if out_of_bounds self row col then Ok (self, -1, (1, 0)%nat)
    else
      cov ← getitem im (covered self) row col;
      if cov =? 0 then Ok (self, -1, (1, 0)%nat) else Raise RecursionError.
Proof. reflexivity. Qed.

Lemma reveal_calls_S (im : index_mode) (depth : nat) (self : MineSweeper)
    (row col : Z) :
  reveal_calls im (S depth) self row col =
    if out_of_bounds self row col then Ok (self, -1, (1, 0)%nat)
    else
      cov ← getitem im (covered self) row col;
      if cov =? 0 then Ok (self, -1, (1, 0)%nat)
      else
        covered' ← setitem im (covered self) row col 0;
        let self := uncover self covered' in
        is_mine ← getitem im (mines self) row col;
        if negb (is_mine =? 0)
        then Ok (set_game_state self "failure", 0, (1, 1)%nat)
        else
          hint ← getitem im (board self) row col;
          if hint =? 0 then
            acc ← for_each (neighbours8 row col)
                     (count_step (reveal_calls im depth)) (self, (1, 1)%nat);
            Ok (acc.1, 1, acc.2)
          else Ok (self, 1, (1, 1)%nat).
Proof. reflexivity. Qed.

(** A call that returns under one limit returns the same under every
    larger one. *)
Lemma reveal_rec_more_budget (im : index_mode) (d : nat) :
  ∀ (d' : nat) (b : MineSweeper) (row col : Z) (x : MineSweeper * Z),
    (d ≤ d')%nat → reveal_rec im d b row col = Ok x →
    reveal_rec im d' b row col = Ok x.
Proof.
  induction d as [|d IH]; intros d' b row col x Hd Hrun.
  - destruct d' as [|d']; [done|]. rewrite reveal_rec_0 in Hrun.
    rewrite reveal_rec_S.
    destruct (out_of_bounds b row col); [done|].
    destruct (getitem im (covered b) row col) as [cov|e]; [|done].
    rewrite bind_Ok in *. destruct (cov =? 0); done.
  - destruct d' as [|d']; [lia|]. rewrite reveal_rec_S in Hrun.
    rewrite reveal_rec_S.
    destruct (out_of_bounds b row col); [done|].
    destruct (getitem im (covered b) row col) as [cov|e]; [|done].
    rewrite bind_Ok in *. destruct (cov =? 0); [done|].
    destruct (setitem im (covered b) row col 0) as [c'|e]; [|done].
    rewrite bind_Ok in *. cbv zeta in *.
    destruct (getitem im (mines (uncover b c')) row col) as [mn|e]; [|done].
    rewrite bind_Ok in *. destruct (negb (mn =? 0)); [done|].
    destruct (getitem im (board (uncover b c')) row col) as [h|e]; [|done].
    rewrite bind_Ok in *. destruct (h =? 0); [|done].
    apply bind_Ok_inv in Hrun as (s' & Hloop & Hret).
    rewrite (for_each_cascade_mono (reveal_rec im d) (reveal_rec im d')
               _ (λ s r c y, IH d' s r c y ltac:(lia)) _ _ Hloop).
    by rewrite bind_Ok.
Qed.

(** Under any limit a call returns what [reveal] returns, or raises
    [RecursionError]. *)
Lemma reveal_rec_limit (depth : nat) (b : MineSweeper) (row col : Z) :
  shaped b →
  reveal_rec NumPy depth b row col = reveal b row col
  ∨ reveal_rec NumPy depth b row col = Raise RecursionError.
Proof.
  intros Hsh. destruct (reveal_rec NumPy depth b row col) as [x|e] eqn:Hrun.
  - left. unfold reveal.
    destruct (decide (depth ≤ (size b).1 * (size b).2)%nat) as [Hle|Hgt].
    + symmetry. by apply (reveal_rec_more_budget NumPy depth).
    + destruct (reveal_total b row col Hsh) as (b' & ret & Hfull).
      unfold reveal in Hfull. rewrite Hfull.
      rewrite (reveal_rec_more_budget NumPy ((size b).1 * (size b).2) depth
                 b row col (b', ret)) in Hrun; [done|lia|done].
  - right. by rewrite (reveal_rec_raises NumPy depth b row col e Hsh Hrun).
Qed.

(** The boards of a game are closed under the calls that return, whatever
    the limit. *)
Lemma reach_reveal_rec (m : ndarray) (depth : nat) (b b' : MineSweeper)
    (row col ret : Z) :
  reachable m b → reveal_rec NumPy depth b row col = Ok (b', ret) →
  reachable m b'.
Proof.
  intros Hreach Hrun. apply (reach_reveal m b b' row col ret); [done|].
  destruct (reveal_rec_limit depth b row col) as [<-|K];
    [apply (inv_shaped m), reachable_board_inv; done|done|congruence].
Qed.

(** The board of 32 rows and 32 columns without a mine is the one
    [__init__] builds from the grid of zeros. *)
Lemma reachable_32x32_empty :
  reachable (NdArray (32, 32)%nat (replicate 32 (replicate 32 0)))
    board_32x32_empty.
Proof.
  apply (reach_init _ no_junk).
  - split; [reflexivity|]. cbn [data shape snd].
    apply Forall_replicate. reflexivity.
  - vm_compute. reflexivity.
Qed.

(** On that board a nesting of 1000 activations, or of fewer, is not
    enough for the cascade from a corner; one of 1024 is. *)
Lemma cascade_32x32_limit (depth : nat) :
  (depth ≤ 1000)%nat →
  reveal_rec NumPy depth board_32x32_empty 0 0 = Raise RecursionError.
Proof.
  intros Hd.
  assert (Hsh : shaped board_32x32_empty)
    by apply (inv_shaped _ _ (reachable_board_inv _ _ reachable_32x32_empty)).
  destruct (reveal_rec NumPy depth board_32x32_empty 0 0) as [x|e] eqn:Hrun.
  - apply (reveal_rec_more_budget NumPy depth 1000) in Hrun; [|done].
    vm_compute in Hrun. discriminate.
  - by rewrite (reveal_rec_raises _ _ _ _ _ _ Hsh Hrun).
Qed.

Example cascade_32x32_returns :
  (res ← reveal_rec NumPy 1024 board_32x32_empty 0 0;
   Ok (num_covered res.1, game_state res.1, res.2))
  = Ok (0, "win"%string, 1).
Proof. vm_compute. reflexivity. Qed.

(** ** The activations of a call *)

Lemma for_each_count_erase
    (f : MineSweeper → Z → Z → result (MineSweeper * Z))
    (g : MineSweeper → Z → Z → result (MineSweeper * Z * (nat * nat)))
    (xs : list (Z * Z)) :
  (∀ s r c, f s r c = (res ← g s r c; Ok res.1)) →
  ∀ s n, for_each xs (cascade_step f) s
         = (acc ← for_each xs (count_step g) (s, n); Ok acc.1).
Proof.
  intros Hfg. induction xs as [|x xs IH]; intros s n; simpl; [done|].
  assert (cascade_step f s x = (res ← g s x.1 x.2; Ok res.1.1)) as ->.
  { unfold cascade_step. rewrite Hfg. by destruct (g s x.1 x.2). }
  assert (count_step g (s, n) x
          = (res ← g s x.1 x.2;
             Ok (res.1.1, (n.1 + res.2.1, n.2 + res.2.2)%nat))) as ->
    by reflexivity.
  destruct (g s x.1 x.2) as [[[s1 ret] k]|e]; [|done].
  rewrite !bind_Ok. cbn [fst snd]. apply IH.
Qed.

(** The counters are an addition: without them [reveal_calls] is
    [reveal_rec]. *)
Lemma reveal_calls_erase (im : index_mode) (depth : nat) :
  ∀ (b : MineSweeper) (row col : Z),
    reveal_rec im depth b row col
    = (res ← reveal_calls im depth b row col; Ok res.1).
Proof.
  induction depth as [|d IH]; intros b row col.
  - rewrite reveal_rec_0, reveal_calls_0.
    destruct (out_of_bounds b row col); [done|].
    destruct (getitem im (covered b) row col) as [cov|e]; [|done].
    rewrite !bind_Ok. destruct (cov =? 0); done.
  - rewrite reveal_rec_S, reveal_calls_S.
    destruct (out_of_bounds b row col); [done|].
    destruct (getitem im (covered b) row col) as [cov|e]; [|done].
    rewrite !bind_Ok. destruct (cov =? 0); [done|].
    destruct (setitem im (covered b) row col 0) as [c'|e]; [|done].
    rewrite !bind_Ok. cbv zeta.
    destruct (getitem im (mines (uncover b c')) row col) as [mn|e]; [|done].
    rewrite !bind_Ok. destruct (negb (mn =? 0)); [done|].
    destruct (getitem im (board (uncover b c')) row col) as [h|e]; [|done].
    rewrite !bind_Ok. destruct (h =? 0); [|done].
    rewrite (for_each_count_erase _ (reveal_calls im d) _ IH _ (1, 1)%nat).
    by destruct (for_each _ _ _) as [[s1 k]|e].
Qed.

Lemma num_covered_uncover (b : MineSweeper) (c' : ndarray) :
  num_covered (uncover b c') = num_covered b - 1.
Proof. unfold uncover. simpl. by destruct (_ =? _). Qed.

(** Every activation past the guard takes one off the counter, and makes
    eight calls or none. *)
Lemma reveal_calls_count (im : index_mode) (depth : nat) :
  ∀ (b b' : MineSweeper) (row col ret : Z) (calls passed : nat),
    reveal_calls im depth b row col = Ok (b', ret, (calls, passed)) →
    Z.of_nat passed = num_covered b - num_covered b' ∧
    (1 ≤ calls ≤ 1 + 8 * passed)%nat.
Proof.
  induction depth as [|d IH]; intros b b' row col ret calls passed Hrun.
  - rewrite reveal_calls_0 in Hrun.
    destruct (out_of_bounds b row col); [injection Hrun as <- _ <- <-; lia|].
    destruct (getitem im (covered b) row col) as [cov|e]; [|done].
    rewrite bind_Ok in Hrun.
    destruct (cov =? 0); [injection Hrun as <- _ <- <-; lia|done].
  - rewrite reveal_calls_S in Hrun.
    destruct (out_of_bounds b row col); [injection Hrun as <- _ <- <-; lia|].
    destruct (getitem im (covered b) row col) as [cov|e]; [|done].
    rewrite bind_Ok in Hrun.
    destruct (cov =? 0); [injection Hrun as <- _ <- <-; lia|].
    destruct (setitem im (covered b) row col 0) as [c'|e]; [|done].
    rewrite bind_Ok in Hrun. cbv zeta in Hrun.
    pose proof (num_covered_uncover b c') as Hdec.
    destruct (getitem im (mines (uncover b c')) row col) as [mn|e]; [|done].
    rewrite bind_Ok in Hrun.
    destruct (negb (mn =? 0)); [injection Hrun as <- _ <- <-; simpl; lia|].
    destruct (getitem im (board (uncover b c')) row col) as [h|e]; [|done].
    rewrite bind_Ok in Hrun.
    destruct (h =? 0); [|injection Hrun as <- _ <- <-; lia].
    apply bind_Ok_inv in Hrun as ([s1 [k1 k2]] & Hloop & Hret).
    injection Hret as <- _ <- <-.
    set (I := λ (pre : list (Z * Z)) (acc : MineSweeper * (nat * nat)),
                Z.of_nat acc.2.2 = num_covered b - num_covered acc.1 ∧
                (1 ≤ acc.2.2)%nat ∧
                (1 ≤ acc.2.1 ≤ 1 + length pre + 8 * (acc.2.2 - 1))%nat).
    assert (G : I (neighbours8 row col) (s1, (k1, k2))).
    { apply (for_each_prefix_ind I (neighbours8 row col)
               (count_step (reveal_calls im d)) (uncover b c', (1, 1)%nat));
        [| |exact Hloop].
      - unfold I. simpl. lia.
      - intros pre x [t [n1 n2]] [t' [n1' n2']] (Hn & Hp & Hc) _ Hstep.
        unfold count_step in Hstep. cbn [fst snd] in *.
        apply bind_Ok_inv in Hstep as ([[t1 r1] [c1 p1]] & Hcall & Hacc).
        cbn [fst snd] in Hacc. injection Hacc as <- <- <-.
        destruct (IH _ _ _ _ _ _ _ Hcall) as [Hp1 Hc1].
        unfold I. cbn [fst snd]. rewrite length_app. simpl. lia. }
    unfold I in G. simpl in G. lia.
Qed.

(** C9, as the code has it.  A call of [reveal] ends on every board and
    at every coordinate, whatever room the recursion limit leaves: it
    returns, and does so whenever [depth], the nesting that the limit
    allows to the activations past the guard, is at least the number of
    covered cells, or it raises [RecursionError].  The activations that get past the guard, each of
    which takes one off [num_covered], are at most the covered cells and
    so at most rows times cols; all the activations, those the guard
    turns away included, are at most one and eight for each that gets
    past. *)
Theorem reveal_terminates (im : index_mode) (depth : nat) (b : MineSweeper)
    (row col : Z) (Hsh : shaped b) :
  reveal_rec im depth b row col
  = (res ← reveal_calls im depth b row col; Ok res.1) ∧
  (∀ e, reveal_rec im depth b row col = Raise e → e = RecursionError) ∧
  ((count_nonzero (covered b) ≤ depth)%nat →
   is_Ok (reveal_rec im depth b row col)) ∧
  (∀ b' ret calls passed,
     reveal_calls im depth b row col = Ok (b', ret, (calls, passed)) →
     Z.of_nat passed = num_covered b - num_covered b' ∧
     (passed ≤ count_nonzero (covered b))%nat ∧
     (count_nonzero (covered b) ≤ (size b).1 * (size b).2)%nat ∧
     (1 ≤ calls ≤ 1 + 8 * passed)%nat).
Proof.
  split; [apply reveal_calls_erase|].
  split; [intros e; by apply reveal_rec_raises|].
  split.
  { intros Hd. destruct (reveal_rec_total im depth b row col Hsh Hd)
      as (b' & ret & ->). by eexists. }
  intros b' ret calls passed Hrun.
  destruct (reveal_calls_count _ _ _ _ _ _ _ _ _ Hrun) as [Hp Hc].
  assert (Hrec : reveal_rec im depth b row col = Ok (b', ret)).
  { by rewrite reveal_calls_erase, Hrun. }
  pose proof (reveal_rec_extends _ _ _ _ _ _ _ Hsh Hrec) as Hext.
  pose proof (ext_count _ _ Hext). pose proof (ext_le _ _ Hext).
  pose proof (shaped_count_le b Hsh). repeat split; lia.
Qed.

Lemma reveal_terminates_witness :
  reveal_rec NumPy 9 board_3x3_corner 2 2
  = (res ← reveal_calls NumPy 9 board_3x3_corner 2 2; Ok res.1) ∧
  (∀ e, reveal_rec NumPy 9 board_3x3_corner 2 2 = Raise e → e = RecursionError) ∧
  ((count_nonzero (covered board_3x3_corner) ≤ 9)%nat →
   is_Ok (reveal_rec NumPy 9 board_3x3_corner 2 2)) ∧
  (∀ b' ret calls passed,
     reveal_calls NumPy 9 board_3x3_corner 2 2 = Ok (b', ret, (calls, passed)) →
     Z.of_nat passed = num_covered board_3x3_corner - num_covered b' ∧
     (passed ≤ count_nonzero (covered board_3x3_corner))%nat ∧
     (count_nonzero (covered board_3x3_corner)
      ≤ (size board_3x3_corner).1 * (size board_3x3_corner).2)%nat ∧
     (1 ≤ calls ≤ 1 + 8 * passed)%nat).
Proof. apply reveal_terminates, shaped_3x3_corner. Defined.

(** C9 as it is worded fails: the activations are not bounded by the
    number of cells.  On the empty 3x3 board [reveal(1, 1)] makes 73 of
    them, its own and eight for each of the nine cells it uncovers, of
    which nine get past the guard. *)
Lemma reveal_terminates_counterexample :
  ¬ (∀ (b b' : MineSweeper) (row col ret : Z) (depth calls passed : nat),
       shaped b →
       reveal_calls NumPy depth b row col = Ok (b', ret, (calls, passed)) →
       (calls ≤ (size b).1 * (size b).2)%nat).
Proof.
  intros H.
  specialize (H board_3x3_empty board_3x3_empty_won 1 1 1 9%nat 73%nat 9%nat).
  assert (K : (73 ≤ (size board_3x3_empty).1 * (size board_3x3_empty).2)%nat).
  { apply H; [|vm_compute; reflexivity].
    apply (inv_shaped mask_3x3_empty), reachable_board_inv,
      reachable_3x3_empty. }
  simpl in K. lia.
Qed.

(** ** Region and ring *)




Lemma extends_cascade_reach_iff (b b' : MineSweeper) (x y : Z * Z) :
  extends b b' → cascade_reach b' x y ↔ cascade_reach b x y.
Proof.
  intros H. split; apply rtc_subrel; intros u v Huv;
    by apply (extends_cstep _ _ _ _ H).
Qed.


(** What a completed call of [reveal] at a covered cell that is no mine
    leaves covered: what was covered, less what the cascade reaches. *)
Lemma reveal_rec_safe_covered (im : index_mode) (depth : nat) (m : ndarray)
    (b b' : MineSweeper) (row col ret : Z) :
  board_inv m b → in_bounds b (row, col) →
  reveal_rec im depth b row col = Ok (b', ret) →
  ∀ x, in_bounds b x →
       is_covered b' x ↔ is_covered b x ∧ ¬ cascade_reach b (row, col) x.
Proof.
  intros Hi Hin Hrun x Hx.
  pose proof (inv_shaped _ _ Hi) as Hsh.
  pose proof (board_inv_safe_zeros _ _ Hi) as Hsafe.
  pose proof (reveal_rec_extends _ _ _ _ _ _ _ Hsh Hrun) as Hext.
  destruct (reveal_rec_closes _ _ _ _ _ _ _ Hsh Hsafe Hrun) as [Htgt _].
  pose proof (reveal_rec_closed _ _ _ _ _ _ _ Hsh Hsafe (inv_closed _ _ Hi) Hrun)
    as Hcl.
  split.
  - intros Hc'. split.
    + destruct (decide (is_covered b x)) as [|Hu]; [done|].
      by destruct (ext_mono _ _ Hext x Hx Hu).
    + intros Hr. apply (extends_cascade_reach_iff _ _ _ _ Hext) in Hr.
      by apply (closed_reach _ _ _ Hcl Hr (Htgt Hin)).
  - intros [Hc Hnr]. destruct (decide (is_covered b' x)) as [|Hu]; [done|].
    destruct Hnr. by eapply reveal_rec_sound.
Qed.




(** On the 3x3 board with a mine in the corner the cascade from the far
    corner leaves the mine covered and nothing else; with a nesting of
    three activations only, it raises [RecursionError]. *)
Example cascade_3x3_corner :
  (res ← reveal_rec NumPy 9 board_3x3_corner 2 2; Ok (covered res.1, res.2))
  = Ok (grid (3, 3)%nat [[1; 0; 0]; [0; 0; 0]; [0; 0; 0]], 1) ∧
  reveal_rec NumPy 3 board_3x3_corner 2 2 = Raise RecursionError.
Proof. vm_compute. done. Qed.

(** ** Counting mines and covered cells *)

Lemma count_nz_Forall2 (r r' : list Z) :
  Forall2 (λ x y, x ≠ 0 ↔ y ≠ 0) r r' → count_nz r = count_nz r'.
Proof.
  unfold count_nz. induction 1 as [|x y r r' Hxy _ IH]; [done|].
  destruct (decide (x ≠ 0)) as [Hx|Hx].
  - rewrite !filter_cons_True by tauto. simpl. by rewrite IH.
  - rewrite !filter_cons_False by tauto. done.
Qed.

Lemma rows_Forall2 (P : Z → Z → Prop) (a a' : ndarray) :
  nd_wf a → nd_wf a' → shape a = shape a' →
  (∀ r c, in_range (shape a) r c → P (val a r c) (val a' r c)) →
  Forall2 (Forall2 P) (data a) (data a').
Proof.
  intros Ha Ha' Hs Hp.
  apply Forall2_same_length_lookup_2.
  { destruct Ha as [-> _], Ha' as [-> _]. by rewrite Hs. }
  intros i row row' Hrow Hrow'.
  pose proof (row_length _ _ _ Ha Hrow) as Hl.
  pose proof (row_length _ _ _ Ha' Hrow') as Hl'.
  pose proof (lookup_lt_Some _ _ _ Hrow) as Hi. destruct Ha as [Hla _].
  apply Forall2_same_length_lookup_2; [by rewrite Hl, Hl', Hs|].
  intros j x y Hx Hy.
  pose proof (lookup_lt_Some _ _ _ Hx) as Hj.
  specialize (Hp (Z.of_nat i) (Z.of_nat j)).
  rewrite !val_nat in Hp. unfold cell in Hp.
  rewrite Hrow, Hrow' in Hp. simpl in Hp. rewrite Hx, Hy in Hp. simpl in Hp.
  apply Hp. split; simpl; lia.
Qed.

Lemma count_nonzero_ext (a a' : ndarray) :
  nd_wf a → nd_wf a' → shape a = shape a' →
  (∀ r c, in_range (shape a) r c → val a r c ≠ 0 ↔ val a' r c ≠ 0) →
  count_nonzero a = count_nonzero a'.
Proof.
  intros Ha Ha' Hs Hp. unfold count_nonzero.
  pose proof (rows_Forall2 (λ x y, x ≠ 0 ↔ y ≠ 0) a a' Ha Ha' Hs Hp) as H.
  induction H as [|r r' l l' Hr _ IH]; [done|]. simpl.
  by rewrite (count_nz_Forall2 _ _ Hr), IH.
Qed.

Lemma np_sum_count (a : ndarray) :
  nd_wf a →
  (∀ r c, in_range (shape a) r c → val a r c = 0 ∨ val a r c = 1) →
  np_sum a = Z.of_nat (count_nonzero a).
Proof.
  intros Ha Hp. unfold np_sum, count_nonzero.
  pose proof (rows_Forall2 (λ _ y, y = 0 ∨ y = 1) a a Ha Ha eq_refl Hp) as H.
  induction H as [|r r' l l' Hr _ IH]; [done|]. simpl. rewrite IH.
  assert (foldr Z.add 0 r' = Z.of_nat (count_nz r')) as ->; [|lia].
  clear -Hr. unfold count_nz. induction Hr as [|x y r r' Hx _ IH]; [done|].
  simpl. rewrite IH. destruct Hx as [->| ->].
  - rewrite filter_cons_False by (intros K; by apply K). lia.
  - rewrite filter_cons_True by done. simpl. lia.
Qed.

Lemma board_inv_num_mines (m : ndarray) (b : MineSweeper) :
  board_inv m b → num_mines b = Z.of_nat (count_nonzero (mines b)).
Proof.
  intros Hi. rewrite (inv_num_mines _ _ Hi).
  destruct (inv_shaped _ _ Hi) as [[Hm _] _ _].
  apply np_sum_count; [done|]. intros r c _.
  rewrite (inv_mines _ _ Hi), val_gt0_int8. destruct (0 <? _); auto.
Qed.

(** With every mine covered and one covered cell that is no mine, the
    counter is one above the number of mines. *)
Lemma last_safe_cell_count (m : ndarray) (b : MineSweeper) (row col : Z) :
  board_inv m b → game_state b = "in_progress"%string →
  in_bounds b (row, col) → is_covered b (row, col) → ¬ is_mine b (row, col) →
  (∀ x, in_bounds b x → is_covered b x → x ≠ (row, col) → is_mine b x) →
  num_covered b = num_mines b + 1.
Proof.
  intros Hi Hgs Hin Hcov Hnm Hlast.
  pose proof (inv_shaped _ _ Hi) as Hsh.
  destruct (extends_uncovered_at b row col Hsh Hin Hcov) as [Hext Hone].
  rewrite (inv_num_covered _ _ Hi), (board_inv_num_mines _ _ Hi).
  assert (count_nonzero (covered (uncovered_at b row col))
          = count_nonzero (mines b)) as E; [|lia].
  destruct (ext_shaped _ _ Hext) as [_ _ [Hc Hcs]].
  destruct Hsh as [[Hm Hms] _ _].
  apply count_nonzero_ext; [done|done| |].
  { by rewrite Hcs, (ext_size _ _ Hext), Hms. }
  intros r c Hrc. rewrite Hcs, (ext_size _ _ Hext) in Hrc.
  change (is_covered (uncovered_at b row col) (r, c) ↔ is_mine b (r, c)).
  rewrite is_covered_uncovered_at by (done || by apply (inv_shaped _ _ Hi)).
  split.
  - intros [Hc' Hne]. by apply Hlast.
  - intros Hmine. split; [by apply (inv_in_progress _ _ Hi)|].
    intros [= -> ->]. done.
Qed.

(** ** The game state *)

(** C4, as the code has it.  A [reveal] at a covered cell on the board
    leaves the state [failure] when the cell is a mine, also when the
    counter equals [num_mines] on that call.  When the cell is no mine
    the state becomes [win] if [num_covered] equals [num_mines] after the
    decrement for the cell or after the decrement for a cell uncovered by
    its cascade, and is unchanged otherwise; for a cell with a non-zero
    count, which starts no cascade, that is the one decrement of the
    call.  On a board still in progress, revealing the last covered cell
    that is no mine sets the state to [win] with [num_covered] equal to
    [num_mines]. *)
Theorem reveal_game_state (m : ndarray) (b b' : MineSweeper) (row col ret : Z)
    (Hreach : reachable m b)
    (Hin : in_bounds b (row, col)) (Hcov : is_covered b (row, col))
    (Hrun : reveal b row col = Ok (b', ret)) :
  (is_mine b (row, col) → ret = 0 ∧ getstate b' = "failure"%string) ∧
  (¬ is_mine b (row, col) →
   ret = 1 ∧
   getstate b' =
     if decide (num_covered b' ≤ num_mines b < num_covered b)
     then "win"%string else getstate b) ∧
  (¬ is_mine b (row, col) → hint b (row, col) ≠ 0 →
   num_covered b' = num_covered b - 1 ∧
   getstate b' =
     if num_covered b - 1 =? num_mines b then "win"%string else getstate b) ∧
  (¬ is_mine b (row, col) → getstate b = "in_progress"%string →
   (∀ x, in_bounds b x → is_covered b x → x ≠ (row, col) → is_mine b x) →
   getstate b' = "win"%string ∧ num_covered b' = num_mines b').
Proof.
  pose proof (reachable_board_inv _ _ Hreach) as Hi.
  pose proof (inv_shaped _ _ Hi) as Hsh.
  pose proof (board_inv_safe_zeros _ _ Hi) as Hsafe.
  pose proof (reveal_rec_extends _ _ _ _ _ _ _ Hsh Hrun) as Hext.
  pose proof (reveal_rec_code _ _ _ _ _ _ _ Hsh Hrun) as Hcode.
  pose proof (reveal_rec_state _ _ _ _ _ _ _ Hsh Hsafe Hrun) as Hstate.
  unfold getstate.
  assert (Hsafe_case : ¬ is_mine b (row, col) →
            ret = 1 ∧ game_state b' = state_after_safe b b').
  { intros Hnm. destruct Hcode as [(_ & _ & K)|[(_ & _ & _ & K)|(-> & _)]];
      [tauto|done|]. split; [done|]. by destruct Hstate as [[? _]|[_ ?]]. }
  split; [|split; [|split]].
  - intros Hm. destruct Hcode as [(_ & _ & K)|[(-> & _)|(_ & _ & _ & K)]];
      [tauto| |done]. split; [done|]. by destruct Hstate as [[_ ?]|[? _]].
  - done.
  - intros Hnm Hnz. destruct (Hsafe_case Hnm) as [_ Hgs].
    destruct (reveal_rec_cases _ _ _ _ _ _ _ Hsh Hrun)
      as [(_ & _ & K)|(_ & _ & depth' & _ & Hcase)]; [tauto|].
    destruct Hcase as [(? & _)|[(_ & _ & -> & _)|(_ & ? & _)]]; [done| |done].
    destruct (uncovered_at_fields b row col) as (_ & _ & _ & _ & _ & E6 & E7).
    by rewrite E6, E7.
  - intros Hnm Hgs Hlast. destruct (Hsafe_case Hnm) as [_ Hgs'].
    pose proof (last_safe_cell_count m b row col Hi Hgs Hin Hcov Hnm Hlast) as Hone.
    destruct (extends_uncovered_at b row col Hsh Hin Hcov) as [Hext1 Hcnt1].
    pose proof (reveal_rec_board_inv _ _ _ _ _ _ _ _ Hi Hrun) as Hi'.
    assert (Hsame : count_nonzero (covered b')
                    = count_nonzero (covered (uncovered_at b row col))).
    { destruct (ext_shaped _ _ Hext) as [_ _ [Hc Hcs]].
      destruct (ext_shaped _ _ Hext1) as [_ _ [Hc1 Hcs1]].
      apply count_nonzero_ext; [done|done| |].
      { by rewrite Hcs, Hcs1, (ext_size _ _ Hext), (ext_size _ _ Hext1). }
      intros r c Hrc. rewrite Hcs, (ext_size _ _ Hext) in Hrc.
      change (is_covered b' (r, c) ↔ is_covered (uncovered_at b row col) (r, c)).
      rewrite is_covered_uncovered_at by done.
      rewrite (reveal_rec_safe_covered _ _ m b b' row col ret) by done.
      split.
      - intros [Hc' Hnr]. split; [done|]. intros [= -> ->]. apply Hnr, rtc_refl.
      - intros [Hc' Hne]. split; [done|]. intros Hr.
        apply (cascade_reach_safe _ _ _ Hsafe Hr Hnm). by apply Hlast. }
    assert (Hnc : num_covered b' = num_mines b).
    { rewrite (inv_num_covered _ _ Hi'), Hsame.
      pose proof (inv_num_covered _ _ Hi). lia. }
    split; [|by rewrite (ext_num_mines _ _ Hext)].
    rewrite Hgs'. unfold state_after_safe. by rewrite decide_True by lia.
Qed.

Lemma reveal_game_state_witness :
  (is_mine board_3x3_corner_won (0, 0) →
   0 = 0 ∧ getstate board_3x3_corner_lost = "failure"%string) ∧
  (¬ is_mine board_3x3_corner_won (0, 0) →
   0 = 1 ∧
   getstate board_3x3_corner_lost =
     if decide (num_covered board_3x3_corner_lost
                ≤ num_mines board_3x3_corner_won
                < num_covered board_3x3_corner_won)
     then "win"%string else getstate board_3x3_corner_won) ∧
  (¬ is_mine board_3x3_corner_won (0, 0) →
   hint board_3x3_corner_won (0, 0) ≠ 0 →
   num_covered board_3x3_corner_lost = num_covered board_3x3_corner_won - 1 ∧
   getstate board_3x3_corner_lost =
     if num_covered board_3x3_corner_won - 1 =? num_mines board_3x3_corner_won
     then "win"%string else getstate board_3x3_corner_won) ∧
  (¬ is_mine board_3x3_corner_won (0, 0) →
   getstate board_3x3_corner_won = "in_progress"%string →
   (∀ x, in_bounds board_3x3_corner_won x → is_covered board_3x3_corner_won x →
         x ≠ (0, 0) → is_mine board_3x3_corner_won x) →
   getstate board_3x3_corner_lost = "win"%string ∧
   num_covered board_3x3_corner_lost = num_mines board_3x3_corner_lost).
Proof.
  apply (reveal_game_state mask_3x3_corner).
  - apply reachable_3x3_corner_won.
  - apply in_bounds_3x3; [vm_compute; reflexivity|lia|lia].
  - unfold is_covered. vm_compute. discriminate.
  - apply reveal_3x3_corner_mine.
Defined.

(** C4 as it is worded fails where a cascade runs: on the empty 3x3
    board [reveal(1, 1)] leaves [num_covered] at 8 after its own
    decrement, 8 is not [num_mines], and the state still becomes [win],
    through the cells the cascade uncovers.  Its last sentence fails once
    a mine has been uncovered: on the 3x3 board with a mine in the
    centre, with the mine and seven other cells revealed, [reveal(2, 2)]
    uncovers the last cell that is no mine and leaves [num_covered] at 0,
    one below [num_mines]. *)
Lemma reveal_game_state_counterexample :
  ¬ (∀ (m : ndarray) (b b' : MineSweeper) (row col ret : Z),
       reachable m b → in_bounds b (row, col) → is_covered b (row, col) →
       reveal b row col = Ok (b', ret) →
       getstate b' =
         if decide (is_mine b (row, col)) then "failure"%string
         else if num_covered b - 1 =? num_mines b then "win"%string
         else getstate b) ∧
  ¬ (∀ (m : ndarray) (b b' : MineSweeper) (row col ret : Z),
       reachable m b → in_bounds b (row, col) → is_covered b (row, col) →
       ¬ is_mine b (row, col) →
       (∀ x, in_bounds b x → is_covered b x → x ≠ (row, col) → is_mine b x) →
       reveal b row col = Ok (b', ret) →
       getstate b' = "win"%string ∧ num_covered b' = num_mines b').
Proof.
  split; intros H.
  - specialize (H mask_3x3_empty board_3x3_empty board_3x3_empty_won 1 1 1
                  reachable_3x3_empty).
    assert (K : getstate board_3x3_empty_won = "in_progress"%string).
    { rewrite H; [| | |apply reveal_3x3_empty_centre].
      - rewrite decide_False; [done|]. unfold is_mine. vm_compute. tauto.
      - apply in_bounds_3x3; [vm_compute; reflexivity|lia|lia].
      - unfold is_covered. vm_compute. discriminate. }
    vm_compute in K. discriminate.
  - destruct (H mask_3x3_centre board_3x3_centre_late board_3x3_centre_end 2 2 1
                reachable_3x3_centre_late) as [_ K].
    + apply in_bounds_3x3; [vm_compute; reflexivity|lia|lia].
    + unfold is_covered. vm_compute. discriminate.
    + unfold is_mine. vm_compute. tauto.
    + intros [r c] Hx Hc Hne. exfalso.
      apply in_bounds_3x3_cases in Hx as [Hr Hcl]; [|vm_compute; reflexivity].
      destruct Hr as [->|[->| ->]], Hcl as [->|[->| ->]];
        try (by apply Hne); apply Hc; vm_compute; reflexivity.
    + apply reveal_3x3_centre_last.
    + vm_compute in K. discriminate.
Qed.










(** ** The return value of a safe reveal *)

(** C5, as the code has it.  On every board of a game, a [reveal] at a
    covered cell on the board that is no mine, when it returns, returns
    1, whatever the count of the cell; the count, a number from 0 to 8
    and the number of mines around the cell, is what [getsquare] returns
    for the cell after the call.  The call returns whenever the cell's
    count is not zero and there is room for one activation, and whenever
    [depth], the nesting that the recursion limit allows to the
    activations past the guard, is at least the number of covered cells;
    under a smaller limit it can only fail by [RecursionError]. *)
Theorem safe_reveal_returns_one (m : ndarray) (depth : nat) (b : MineSweeper)
    (row col : Z) (Hreach : reachable m b)
    (Hin : in_bounds b (row, col)) (Hcov : is_covered b (row, col))
    (Hsafe : ¬ is_mine b (row, col)) :
  (∀ b' ret,
     reveal_rec NumPy depth b row col = Ok (b', ret) →
     ret = 1 ∧ getsquare b' row col = Ok (hint b (row, col))) ∧
  hint b (row, col) = adjacent_mines b (row, col) ∧
  0 ≤ hint b (row, col) ≤ 8 ∧
  (∀ e, reveal_rec NumPy depth b row col = Raise e → e = RecursionError) ∧
  (num_covered b ≤ Z.of_nat depth →
   is_Ok (reveal_rec NumPy depth b row col)) ∧
  (hint b (row, col) ≠ 0 → (1 ≤ depth)%nat →
   is_Ok (reveal_rec NumPy depth b row col)).
Proof.
  pose proof (reachable_board_inv _ _ Hreach) as Hi.
  pose proof (inv_shaped _ _ Hi) as Hsh.
  split; [|split; [|split; [|split; [|split]]]].
  - intros b' ret Hrun.
    assert (ret = 1) as ->.
    { destruct (reveal_rec_code _ _ _ _ _ _ _ Hsh Hrun)
        as [(_ & _ & K)|[(_ & _ & _ & K)|(-> & _)]]; [tauto|done|done]. }
    split; [done|].
    pose proof (reveal_rec_extends _ _ _ _ _ _ _ Hsh Hrun) as Hext.
    destruct (reveal_rec_closes _ _ _ _ _ _ _ Hsh
                (board_inv_safe_zeros _ _ Hi) Hrun) as [Htgt _].
    unfold getsquare. rewrite getsquare_in_bounds.
    + rewrite decide_False by auto.
      rewrite decide_False by (by rewrite (extends_is_mine _ _ _ Hext)).
      by rewrite (extends_hint _ _ _ Hext).
    + apply (ext_shaped _ _ Hext).
    + by apply (extends_in_bounds _ _ _ Hext).
  - by apply (hint_adjacent_mines m).
  - by apply (hint_adjacent_mines m).
  - intros e. by apply reveal_rec_raises.
  - intros Hd. rewrite (inv_num_covered _ _ Hi) in Hd.
    destruct (reveal_rec_total NumPy depth b row col Hsh) as (b' & ret & ->);
      [lia|by eexists].
  - intros Hnz Hd. destruct depth as [|d]; [lia|].
    rewrite reveal_rec_covered by done.
    rewrite decide_False by done. rewrite decide_False by done. by eexists.
Qed.

Lemma safe_reveal_returns_one_witness :
  (∀ b' ret,
     reveal_rec NumPy 9 board_3x3_two 0 1 = Ok (b', ret) →
     ret = 1 ∧ getsquare b' 0 1 = Ok (hint board_3x3_two (0, 1))) ∧
  hint board_3x3_two (0, 1) = adjacent_mines board_3x3_two (0, 1) ∧
  0 ≤ hint board_3x3_two (0, 1) ≤ 8 ∧
  (∀ e, reveal_rec NumPy 9 board_3x3_two 0 1 = Raise e → e = RecursionError) ∧
  (num_covered board_3x3_two ≤ Z.of_nat 9 →
   is_Ok (reveal_rec NumPy 9 board_3x3_two 0 1)) ∧
  (hint board_3x3_two (0, 1) ≠ 0 → (1 ≤ 9)%nat →
   is_Ok (reveal_rec NumPy 9 board_3x3_two 0 1)).
Proof.
  apply (safe_reveal_returns_one mask_3x3_two).
  - apply reachable_3x3_two.
  - apply in_bounds_3x3; [vm_compute; reflexivity|lia|lia].
  - unfold is_covered. vm_compute. discriminate.
  - unfold is_mine. vm_compute. tauto.
Defined.

(** C5 as it is worded fails: the value [reveal] returns does not carry
    the count.  On the 3x3 board with mines in two corners the cell
    (0, 1) has count 2 and the cell (2, 2) has count 0, and [reveal]
    returns 1 for either, so that no reading of the returned value gives
    the count.  Nor does every such call return: on the board of 32 rows
    and 32 columns without a mine, with a nesting of 1000 activations
    allowed, [reveal(0, 0)] raises [RecursionError]. *)
Lemma safe_reveal_returns_one_counterexample :
  ¬ (∃ hint_of : Z → Z,
       ∀ (m : ndarray) (b b' : MineSweeper) (row col ret : Z),
         reachable m b → in_bounds b (row, col) → is_covered b (row, col) →
         ¬ is_mine b (row, col) →
         reveal b row col = Ok (b', ret) →
         hint_of ret = hint b (row, col)) ∧
  ¬ (∀ (m : ndarray) (b : MineSweeper) (row col : Z),
       reachable m b → in_bounds b (row, col) → is_covered b (row, col) →
       ¬ is_mine b (row, col) →
       is_Ok (reveal_rec NumPy 1000 b row col)).
Proof.
  split.
  - intros [hint_of H].
    assert (H1 : hint_of 1 = hint board_3x3_two (0, 1)).
    { apply (H mask_3x3_two board_3x3_two
               (board_of (reveal board_3x3_two 0 1) board_3x3_two));
        [apply reachable_3x3_two
        |apply in_bounds_3x3; [vm_compute; reflexivity|lia|lia]| | |reflexivity].
      - unfold is_covered. vm_compute. discriminate.
      - unfold is_mine. vm_compute. tauto. }
    assert (H2 : hint_of 1 = hint board_3x3_two (2, 2)).
    { apply (H mask_3x3_two board_3x3_two
               (board_of (reveal board_3x3_two 2 2) board_3x3_two));
        [apply reachable_3x3_two
        |apply in_bounds_3x3; [vm_compute; reflexivity|lia|lia]| | |reflexivity].
      - unfold is_covered. vm_compute. discriminate.
      - unfold is_mine. vm_compute. tauto. }
    rewrite H1 in H2. vm_compute in H2. discriminate.
  - intros H.
    destruct (H _ board_32x32_empty 0 0 reachable_32x32_empty) as [x Hrun].
    + unfold in_bounds, in_range. simpl. lia.
    + unfold is_covered. vm_compute. discriminate.
    + unfold is_mine. vm_compute. tauto.
    + rewrite cascade_32x32_limit in Hrun by lia. discriminate.
Qed.

(** ** [fromdimensions] *)

Lemma setitem_wf (im : index_mode) (a a' : ndarray) (row col v : Z) :
  nd_wf a → setitem im a row col v = Ok a' → nd_wf a' ∧ shape a' = shape a.
Proof.
  intros [Hl Hrows]. unfold setitem.
  destruct (norm_index im (shape a).1 row) as [i|]; [|done].
  destruct (norm_index im (shape a).2 col) as [j|]; [|done].
  destruct (data a !! i) as [r|] eqn:Hr; [|done].
  intros [= <-]. split; [|done]. split; simpl.
  - by rewrite length_insert.
  - apply Forall_insert; [done|]. rewrite length_insert.
    rewrite Forall_lookup in Hrows. by apply (Hrows _ _ Hr).
Qed.

Lemma np_zeros_wf (dims : Z * Z) (z : ndarray) :
  np_zeros dims = Ok z →
  nd_wf z ∧ shape z = (Z.to_nat dims.1, Z.to_nat dims.2).
Proof.
  unfold np_zeros. destruct (_ || _); [done|]. intros [= <-].
  split; [|done]. split; simpl; [by rewrite length_replicate|].
  apply Forall_replicate. by rewrite length_replicate.
Qed.

(** [fromdimensions] on a board with a side of one or two cells. *)
Lemma fromdimensions_small (junk : nat → nat → Z)
    (choice : Z → Z → result (list Z)) (rows cols num_mines : Z) :
  0 < rows → 0 < cols → rows < 3 ∨ cols < 3 →
  ∃ e, fromdimensions junk choice (rows, cols) num_mines = Raise e.
Proof.
  intros Hrows Hcols Hsmall. unfold fromdimensions.
  destruct (np_zeros (rows, cols)) as [z|e] eqn:Hz; [|by eexists].
  apply np_zeros_wf in Hz as [Hwf Hsh]. simpl in Hsh. rewrite bind_Ok.
  destruct (choice _ _) as [l|e]; [|by eexists]. rewrite bind_Ok.
  destruct (for_each _ _ z) as [mines'|e] eqn:Hfe; [|by eexists].
  rewrite bind_Ok.
  assert (Hm : nd_wf mines' ∧ shape mines' = shape z).
  { revert Hfe. apply (for_each_ind (λ t, nd_wf t ∧ shape t = shape z)); [done|].
    intros i t t' [Ht Hs] _ Hstep.
    apply bind_Ok_inv in Hstep as (idx & _ & Hset).
    apply setitem_wf in Hset as [? ?]; [|done]. split; [done|congruence]. }
  destruct Hm as [Hwf' Hsh']. rewrite Hsh in Hsh'.
  exists ValueError.
  destruct (decide (cols < 3)) as [Hc|Hc].
  - apply init_narrow; [done| |]; rewrite Hsh'; simpl; lia.
  - apply init_low; [done| |]; rewrite Hsh'; simpl; lia.
Qed.

(** The board of scenario A of the specification, 1x1 without mines, is
    one of them. *)
Lemma fromdimensions_1x1_raises (junk : nat → nat → Z)
    (choice : Z → Z → result (list Z)) :
  ∃ e, fromdimensions junk choice (1, 1) 0 = Raise e.
Proof. apply fromdimensions_small; lia. Qed.

(** Without any cell there is nothing to convolve, and the constructor
    goes through: the 0x0 board is built when the sampler accepts an
    empty draw from an empty population. *)
Lemma fromdimensions_0x0_builds (junk : nat → nat → Z)
    (choice : Z → Z → result (list Z)) :
  choice 0 0 = Ok [] → is_Ok (fromdimensions junk choice (0, 0) 0).
Proof.
  intros H. unfold fromdimensions. cbn [np_zeros fst snd Z.ltb orb Z.compare].
  rewrite bind_Ok. change (0 * 0) with 0. rewrite H. by eexists.
Qed.

(** C7, where the code departs from it.  [fromdimensions] raises for
    every board with one or two rows, or one or two columns, whatever
    the number of mines asked for and whatever the sampler draws: the
    1x1 board without mines and the 2x2 board with one mine, both valid
    configurations, are never built. *)
Theorem fromdimensions_small_raises (junk : nat → nat → Z)
    (choice : Z → Z → result (list Z)) (rows cols num_mines : Z)
    (Hrows : 0 < rows) (Hcols : 0 < cols) (Hsmall : rows < 3 ∨ cols < 3) :
  ∃ e, fromdimensions junk choice (rows, cols) num_mines = Raise e.
Proof. by apply fromdimensions_small. Qed.

Lemma fromdimensions_small_raises_witness :
  ∃ e, fromdimensions no_junk (λ _ _, Ok [1]) (2, 2) 1 = Raise e.
Proof. apply fromdimensions_small_raises; lia. Defined.

Lemma count_nz_insert_one (row : list Z) (j : nat) :
  row !! j = Some 0 →
  count_nz (<[j := 1]> row) = S (count_nz row).
Proof.
  unfold count_nz. revert j. induction row as [|y row IH]; intros j Hj; [done|].
  destruct j as [|j]; simpl in *.
  - injection Hj as ->.
    rewrite (filter_cons_False _ 0) by (intros K; by apply K). done.
  - specialize (IH j Hj).
    destruct (decide (y ≠ 0)).
    + rewrite !filter_cons_True by done. simpl. by rewrite IH.
    + rewrite !filter_cons_False by done. done.
Qed.

Lemma count_nonzero_upd_one (a : ndarray) (row col : Z) :
  nd_wf a → in_range (shape a) row col → val a row col = 0 →
  count_nonzero (upd a row col 1) = S (count_nonzero a).
Proof.
  intros Hwf [Hr Hc] Hv. unfold count_nonzero, upd, val, cell in *.
  destruct (lookup_lt_is_Some_2 (data a) (Z.to_nat row)) as [r Hrow];
    [destruct Hwf as [-> _]; lia|].
  rewrite Hrow in *. simpl in *.
  destruct (lookup_lt_is_Some_2 r (Z.to_nat col)) as [x Hx];
    [rewrite (row_length _ _ _ Hwf Hrow); lia|].
  rewrite Hx in Hv. simpl in Hv. subst x.
  pose proof (sum_list_map_insert count_nz _ _ _ (<[Z.to_nat col := 1]> r) Hrow).
  pose proof (count_nz_insert_one _ _ Hx). lia.
Qed.

Lemma val_zeros (r c : nat) (row col : Z) :
  val (NdArray (r, c) (replicate r (replicate c 0))) row col = 0.
Proof.
  unfold val, cell. simpl.
  destruct (replicate r (replicate c 0) !! Z.to_nat row) as [x|] eqn:Hx; [|done].
  apply lookup_replicate in Hx as [-> _]. simpl.
  destruct (replicate c 0 !! Z.to_nat col) as [y|] eqn:Hy; [|done].
  by apply lookup_replicate in Hy as [-> _].
Qed.

Lemma count_nonzero_zeros (r c : nat) :
  count_nonzero (NdArray (r, c) (replicate r (replicate c 0))) = 0%nat.
Proof.
  unfold count_nonzero. simpl.
  assert (Hrow : count_nz (replicate c 0) = 0%nat).
  { unfold count_nz. induction c as [|c IH]; [done|]. cbn [replicate].
    by rewrite filter_cons_False by (intros K; by apply K). }
  induction r as [|r IH]; [done|]. simpl. by rewrite IH, Hrow.
Qed.

(** The cell a flat index addresses. *)
Lemma flat_index_cell (cols idx r c : Z) :
  0 < cols → 0 ≤ c < cols →
  (np_floordiv idx cols = r ∧ np_mod idx cols = c) ↔ idx = r * cols + c.
Proof.
  intros Hcols Hc. unfold np_floordiv, np_mod.
  destruct (Z.eqb_spec cols 0); [lia|]. split.
  - intros [<- <-]. pose proof (Z.div_mod idx cols). lia.
  - intros ->. split.
    + rewrite Z.div_add_l by lia. rewrite Z.div_small by lia. lia.
    + rewrite Z.add_comm, Z.mod_add by lia. apply Z.mod_small. lia.
Qed.

(** On boards of at least 3x3, with a sampler that draws [num_mines]
    distinct cells, [fromdimensions] builds the board with exactly those
    mines. *)
Lemma fromdimensions_builds (junk : nat → nat → Z)
    (choice : Z → Z → result (list Z)) (rows cols num_mines0 : Z) (l : list Z) :
  3 ≤ rows → 3 ≤ cols → 0 ≤ num_mines0 →
  choice (rows * cols) num_mines0 = Ok l →
  length l = Z.to_nat num_mines0 → NoDup l →
  (∀ x, x ∈ l → 0 ≤ x < rows * cols) →
  ∃ b mask,
    fromdimensions junk choice (rows, cols) num_mines0 = Ok b ∧
    nd_wf mask ∧ constructed mask b ∧
    size b = (Z.to_nat rows, Z.to_nat cols) ∧
    num_mines b = num_mines0 ∧
    (∀ r c, in_bounds b (r, c) → is_mine b (r, c) ↔ r * cols + c ∈ l).
Proof.
  intros Hrows Hcols Hk Hchoice Hlen Hnd Hrange. unfold fromdimensions.
  destruct (np_zeros (rows, cols)) as [z|e] eqn:Hz.
  2:{ unfold np_zeros in Hz. simpl in Hz.
      destruct (Z.ltb_spec rows 0); [lia|]. destruct (Z.ltb_spec cols 0); [lia|].
      done. }
  pose proof Hz as Hz'. apply np_zeros_wf in Hz' as [Hwf Hsh]. simpl in Hsh.
  assert (Hzv : ∀ r c, val z r c = 0 ∧ count_nonzero z = 0%nat).
  { unfold np_zeros in Hz. destruct (_ || _); [done|]. injection Hz as <-.
    intros r c. split; [apply val_zeros|apply count_nonzero_zeros]. }
  cbn [fst snd]. rewrite bind_Ok, Hchoice, bind_Ok.
  set (sh := (Z.to_nat rows, Z.to_nat cols)) in *.
  destruct (for_range_total
              (λ i t, nd_wf t ∧ shape t = sh ∧ count_nonzero t = i ∧
                 ∀ r c, in_range sh r c →
                   (val t r c = 1 ∧ r * cols + c ∈ take i l) ∨
                   (val t r c = 0 ∧ r * cols + c ∉ take i l))
              (Z.to_nat num_mines0)
              (λ mines i,
                 idx ← match l !! i with
                       | Some x => Ok x
                       | None => Raise IndexError
                       end;
                 setitem NumPy mines (np_floordiv idx cols) (np_mod idx cols) 1) z)
    as (mask & -> & Hmw & Hms & Hmc & Hmv).
  - split; [done|]. split; [done|]. split; [apply (Hzv 0 0)|].
    intros r c _. right. split; [apply Hzv|]. rewrite take_0. apply not_elem_of_nil.
  - intros i t Hi (Htw & Hts & Htc & Htv).
    destruct (lookup_lt_is_Some_2 l i) as [idx Hidx]; [lia|].
    rewrite Hidx, bind_Ok.
    assert (Hin : idx ∈ l) by (apply list_elem_of_lookup; eauto).
    pose proof (Hrange _ Hin) as Hir.
    set (r0 := np_floordiv idx cols). set (c0 := np_mod idx cols).
    assert (Hc0 : 0 ≤ c0 < cols).
    { unfold c0, np_mod. destruct (Z.eqb_spec cols 0); [lia|].
      apply Z.mod_pos_bound. lia. }
    assert (Hidx0 : idx = r0 * cols + c0).
    { apply (flat_index_cell cols idx r0 c0); [lia|done|done]. }
    assert (Hr0 : 0 ≤ r0 < rows) by nia.
    assert (Hrc0 : in_range sh r0 c0) by (unfold in_range, sh; simpl; lia).
    rewrite setitem_upd by (by rewrite ?Hts). eexists. split; [done|].
    assert (Hfresh : idx ∉ take i l).
    { intros K. apply list_elem_of_lookup in K as [j Hj].
      pose proof (lookup_lt_Some _ _ _ Hj) as Hjl. rewrite length_take in Hjl.
      rewrite lookup_take_lt in Hj by lia.
      pose proof (NoDup_lookup _ _ _ _ Hnd Hj Hidx). lia. }
    split; [by apply upd_wf|]. split; [by rewrite upd_shape|]. split.
    + rewrite count_nonzero_upd_one; [by rewrite Htc|done|by rewrite Hts|].
      destruct (Htv _ _ Hrc0) as [[_ K]|[K _]]; [|done]. by rewrite <- Hidx0 in K.
    + intros r c Hrc. rewrite val_upd; [|done|by rewrite Hts|apply Hrc|apply Hrc].
      rewrite (take_S_r _ _ _ Hidx).
      assert (Hflat : r * cols + c = idx ↔ r = r0 ∧ c = c0).
      { destruct Hrc as [_ Hc]. unfold sh in Hc. simpl in Hc. split.
        - intros H. symmetry in H.
          apply (flat_index_cell cols idx r c) in H as [H1 H2]; [|lia|lia].
          by rewrite <- H1, <- H2.
        - intros [-> ->]. by symmetry. }
      case_decide as Hd.
      * left. split; [done|]. apply elem_of_app. right.
        apply list_elem_of_singleton. by apply Hflat.
      * destruct (Htv _ _ Hrc) as [[Hv Hel]|[Hv Hnel]].
        -- left. split; [done|]. apply elem_of_app. by left.
        -- right. split; [done|]. intros K. apply elem_of_app in K as [K|K]; [done|].
           apply list_elem_of_singleton in K. apply Hd. by apply Hflat.
  - rewrite bind_Ok. rewrite <- Hlen, firstn_all in Hmv.
    destruct (init_large junk mask Hmw) as (b & Hb & Hcons);
      [rewrite Hms; unfold sh; simpl; lia..|].
    exists b, mask. split; [done|]. split; [done|]. split; [done|].
    pose proof (cons_size _ _ Hcons) as Hsz. rewrite Hms in Hsz.
    split; [done|].
    assert (Hmine : ∀ r c, in_range sh r c →
              val (mines b) r c ≠ 0 ↔ val mask r c ≠ 0).
    { intros r c Hrc. rewrite (cons_mines _ _ Hcons), val_gt0_int8.
      destruct (Hmv _ _ Hrc) as [[-> _]|[-> _]]; done. }
    split.
    + rewrite (cons_num_mines _ _ Hcons).
      destruct (cons_shaped _ _ Hcons) as [[Hbw Hbs] _ _].
      rewrite np_sum_count; [|done|].
      2:{ intros r c _. rewrite (cons_mines _ _ Hcons), val_gt0_int8.
          destruct (0 <? _); auto. }
      rewrite (count_nonzero_ext (mines b) mask); [lia|done|done| |].
      * by rewrite Hbs, Hsz, Hms.
      * intros r c Hrc. apply Hmine. by rewrite Hbs, Hsz in Hrc.
    + intros r c Hrc. unfold in_bounds in Hrc. rewrite Hsz in Hrc.
      unfold is_mine. simpl. rewrite (Hmine _ _ Hrc).
      destruct (Hmv _ _ Hrc) as [[-> ?]|[-> ?]]; split; done.
Qed.

(** ** The scenarios of the specification *)

(** Scenario A: the 1x1 board is refused by the constructor. *)
Example scenario_A_not_built (junk : nat → nat → Z) :
  __init__ junk mask_1x1 = Raise ValueError.
Proof. reflexivity. Qed.

(** Scenario B: one mine in the centre of a 3x3 board; [reveal(0, 0)]
    returns 1, the count of the cell is 1, the game goes on and nothing
    else is uncovered. *)
Example scenario_B :
  (b ← __init__ no_junk mask_3x3_centre;
   res ← reveal b 0 0;
   sq ← getsquare res.1 0 0;
   Ok (res.2, sq, getstate res.1, num_covered res.1, data (covered res.1)))
  = Ok (1, 1, "in_progress"%string, 8, [[0; 1; 1]; [1; 1; 1]; [1; 1; 1]]).
Proof. vm_compute. reflexivity. Qed.

(** Scenario C: no mine on a 5x5 board; [reveal(2, 2)] uncovers the 25
    cells and wins. *)
Example scenario_C :
  (b ← __init__ no_junk mask_5x5_empty;
   res ← reveal b 2 2;
   Ok (res.2, getstate res.1, num_covered res.1, data (covered res.1)))
  = Ok (1, "win"%string, 0, replicate 5 (replicate 5 0)).
Proof. vm_compute. reflexivity. Qed.

(** Scenario D: one mine in the corner of a 3x3 board; [reveal(0, 0)]
    returns 0, the game is lost and [getsquare(0, 0)] is -2. *)
Example scenario_D :
  (b ← __init__ no_junk mask_3x3_corner;
   res ← reveal b 0 0;
   sq ← getsquare res.1 0 0;
   Ok (res.2, getstate res.1, sq))
  = Ok (0, "failure"%string, -2).
Proof. vm_compute. reflexivity. Qed.

(** * Further properties of the class *)

(** ** What [reveal] touches *)

Lemma reveal_rec_extends_uncovered_at (im : index_mode) (depth : nat)
    (b b' : MineSweeper) (row col ret : Z) :
  shaped b → in_bounds b (row, col) → is_covered b (row, col) →
  reveal_rec im depth b row col = Ok (b', ret) →
  extends (uncovered_at b row col) b'.
Proof.
  intros Hsh Hin Hcov Hrun.
  destruct (extends_uncovered_at b row col Hsh Hin Hcov) as [Hext1 _].
  destruct (reveal_rec_cases _ _ _ _ _ _ _ Hsh Hrun)
    as [(_ & _ & K)|(_ & _ & depth' & -> & Hcase)]; [tauto|].
  destruct Hcase as [(_ & -> & _)|[(_ & _ & -> & _)|(_ & _ & _ & Hfe)]].
  - apply extends_set_game_state, extends_refl, (ext_shaped _ _ Hext1).
  - apply extends_refl, (ext_shaped _ _ Hext1).
  - revert Hfe. apply for_each_ind.
    + apply extends_refl, (ext_shaped _ _ Hext1).
    + intros rc t t' Ht _ Hstep. apply cascade_step_inv in Hstep as [r Hstep].
      eapply extends_trans; [done|].
      eapply reveal_rec_extends; [|done]. apply (ext_shaped _ _ Ht).
Qed.

Lemma reveal_rec_uncovers_target (im : index_mode) (depth : nat)
    (b b' : MineSweeper) (row col ret : Z) :
  shaped b → reveal_rec im depth b row col = Ok (b', ret) →
  in_bounds b (row, col) → ¬ is_covered b' (row, col).
Proof.
  intros Hsh Hrun Hin.
  destruct (decide (is_covered b (row, col))) as [Hcov|Hunc].
  - pose proof (reveal_rec_extends_uncovered_at _ _ _ _ _ _ _ Hsh Hin Hcov Hrun)
      as Hext.
    destruct (extends_uncovered_at b row col Hsh Hin Hcov) as [Hext1 _].
    apply (ext_mono _ _ Hext); [by apply (extends_in_bounds _ _ _ Hext1)|].
    rewrite is_covered_uncovered_at by done. tauto.
  - destruct (reveal_rec_code _ _ _ _ _ _ _ Hsh Hrun)
      as [(_ & -> & _)|[(_ & _ & ? & _)|(_ & _ & ? & _)]]; done.
Qed.

Lemma getsquare_extends (b b' : MineSweeper) (row col : Z) :
  shaped b → extends b b' → ¬ is_covered b (row, col) →
  getsquare b' row col = getsquare b row col.
Proof.
  intros Hsh Hext Hunc. unfold getsquare.
  destruct (decide (in_bounds b (row, col))) as [Hin|Hout].
  - rewrite !getsquare_in_bounds;
      [|done|done|apply (ext_shaped _ _ Hext)|by apply (extends_in_bounds _ _ _ Hext)].
    rewrite (decide_False (P := is_covered b' (row, col)))
      by (by apply (ext_mono _ _ Hext)).
    rewrite (decide_False (P := is_covered b (row, col))) by done.
    rewrite (extends_hint _ _ _ Hext).
    destruct (decide (is_mine b (row, col))) as [Hm|Hm].
    + by rewrite decide_True by (by apply (extends_is_mine _ _ _ Hext)).
    + by rewrite decide_False by (by rewrite (extends_is_mine _ _ _ Hext)).
  - rewrite !getsquare_out; [done|done|].
    by rewrite (extends_in_bounds _ _ _ Hext).
Qed.

(** X1.  [reveal] writes nothing but [covered], [num_covered] and
    [game_state]: the mines, the counts, the size and the number of
    mines are the same after every call, and what [getsquare] returns
    for a cell that was already uncovered, or for a coordinate off the
    board, is the same before and after. *)
Theorem reveal_keeps_mines_and_counts (b b' : MineSweeper) (row col ret : Z)
    (Hsh : shaped b) (Hrun : reveal b row col = Ok (b', ret)) :
  mines b' = mines b ∧ board b' = board b ∧ size b' = size b ∧
  num_mines b' = num_mines b ∧
  ∀ r c, ¬ is_covered b (r, c) → getsquare b' r c = getsquare b r c.
Proof.
  pose proof (reveal_rec_extends _ _ _ _ _ _ _ Hsh Hrun) as Hext.
  split; [apply (ext_mines _ _ Hext)|].
  split; [apply (ext_board _ _ Hext)|].
  split; [apply (ext_size _ _ Hext)|].
  split; [apply (ext_num_mines _ _ Hext)|].
  intros r c Hunc. by apply getsquare_extends.
Qed.

Lemma reveal_keeps_mines_and_counts_witness :
  mines board_3x3_corner_won = mines board_3x3_corner ∧
  board board_3x3_corner_won = board board_3x3_corner ∧
  size board_3x3_corner_won = size board_3x3_corner ∧
  num_mines board_3x3_corner_won = num_mines board_3x3_corner ∧
  ∀ r c, ¬ is_covered board_3x3_corner (r, c) →
         getsquare board_3x3_corner_won r c = getsquare board_3x3_corner r c.
Proof.
  apply (reveal_keeps_mines_and_counts _ _ 2 2 1 shaped_3x3_corner).
  apply reveal_3x3_corner_far.
Defined.

Lemma reveal_budget_positive (b : MineSweeper) (rc : Z * Z) :
  in_bounds b rc → ∃ d, ((size b).1 * (size b).2)%nat = S d.
Proof.
  intros [Hr Hc]. destruct ((size b).1 * (size b).2)%nat as [|d] eqn:E; [|eauto].
  exfalso. apply Nat.eq_mul_0 in E. lia.
Qed.

(** X2.  A [reveal] at a covered cell that is a mine, or whose count is
    not zero, uncovers that one cell and no other: it returns 0 for the
    mine and 1 otherwise, stores 0 at the cell of [covered] and takes
    one off [num_covered]. *)
Theorem reveal_single_cell (b : MineSweeper) (row col : Z)
    (Hsh : shaped b) (Hin : in_bounds b (row, col))
    (Hcov : is_covered b (row, col))
    (Hstop : is_mine b (row, col) ∨ hint b (row, col) ≠ 0) :
  ∃ b',
    reveal b row col
      = Ok (b', if decide (is_mine b (row, col)) then 0 else 1) ∧
    covered b' = upd (covered b) row col 0 ∧
    num_covered b' = num_covered b - 1 ∧
    ∀ x, in_bounds b x → is_covered b' x ↔ is_covered b x ∧ x ≠ (row, col).
Proof.
  destruct (reveal_budget_positive b _ Hin) as [d Hd].
  unfold reveal. rewrite Hd, reveal_rec_covered by done.
  destruct (uncovered_at_fields b row col) as (_ & _ & _ & _ & E5 & E6 & _).
  assert (Hone : ∀ x, in_bounds b x →
            is_covered (uncovered_at b row col) x ↔ is_covered b x ∧ x ≠ (row, col))
    by (intros; by apply is_covered_uncovered_at).
  destruct (decide (is_mine b (row, col))) as [Hm|Hm].
  - eexists. split; [done|]. done.
  - destruct Hstop as [?|Hnz]; [done|]. rewrite decide_False by done.
    eexists. split; [done|]. done.
Qed.

Lemma reveal_single_cell_witness :
  ∃ b',
    reveal board_3x3_corner 0 0
      = Ok (b', if decide (is_mine board_3x3_corner (0, 0)) then 0 else 1) ∧
    covered b' = upd (covered board_3x3_corner) 0 0 0 ∧
    num_covered b' = num_covered board_3x3_corner - 1 ∧
    ∀ x, in_bounds board_3x3_corner x →
         is_covered b' x ↔ is_covered board_3x3_corner x ∧ x ≠ (0, 0).
Proof.
  apply reveal_single_cell.
  - apply shaped_3x3_corner.
  - apply in_bounds_3x3; [vm_compute; reflexivity|lia|lia].
  - unfold is_covered. vm_compute. discriminate.
  - left. unfold is_mine. vm_compute. discriminate.
Defined.

(** X3.  Whatever a [reveal] did, the same call again is blocked: it
    returns -1 and leaves the board as the first call left it. *)
Theorem reveal_again_is_blocked (b b' : MineSweeper) (row col ret : Z)
    (Hsh : shaped b) (Hrun : reveal b row col = Ok (b', ret)) :
  reveal b' row col = Ok (b', -1).
Proof.
  pose proof (reveal_rec_extends _ _ _ _ _ _ _ Hsh Hrun) as Hext.
  unfold reveal.
  destruct (decide (in_bounds b (row, col))) as [Hin|Hout].
  - apply reveal_rec_uncovered; [by apply (extends_in_bounds _ _ _ Hext)|].
    apply uncovered_getitem;
      [apply (ext_shaped _ _ Hext)|by apply (extends_in_bounds _ _ _ Hext)|].
    by eapply reveal_rec_uncovers_target.
  - apply reveal_rec_out. by rewrite (extends_in_bounds _ _ _ Hext).
Qed.

Lemma reveal_again_is_blocked_witness :
  reveal board_3x3_corner_won 2 2 = Ok (board_3x3_corner_won, -1).
Proof.
  apply (reveal_again_is_blocked board_3x3_corner _ 2 2 1 shaped_3x3_corner).
  apply reveal_3x3_corner_far.
Defined.

(** ** The game state and the grids on the boards of a game *)

Lemma reachable_state_inv (m : ndarray) (b : MineSweeper) :
  reachable m b →
  (game_state b = "in_progress"%string ∨ game_state b = "win"%string
   ∨ game_state b = "failure"%string) ∧
  (game_state b = "failure"%string →
   ∃ x, in_bounds b x ∧ is_mine b x ∧ ¬ is_covered b x) ∧
  (game_state b = "win"%string → num_covered b ≤ num_mines b).
Proof.
  induction 1 as [junk b Hm Hrun|b b' row col ret Hreach IH Hrun].
  - pose proof (init_constructed junk m b Hm Hrun) as Hc.
    rewrite (cons_game_state _ _ Hc). split; [by left|]. split; done.
  - pose proof (reachable_board_inv _ _ Hreach) as Hi.
    pose proof (inv_shaped _ _ Hi) as Hsh.
    pose proof (board_inv_safe_zeros _ _ Hi) as Hsafe.
    pose proof (reveal_rec_extends _ _ _ _ _ _ _ Hsh Hrun) as Hext.
    destruct IH as (IH1 & IH2 & IH3).
    destruct (reveal_rec_state _ _ _ _ _ _ _ Hsh Hsafe Hrun) as [[-> Hgs]|[Hne Hgs]].
    + rewrite Hgs. split; [auto|]. split; [|done]. intros _.
      destruct (reveal_rec_code _ _ _ _ _ _ _ Hsh Hrun)
        as [(? & _)|[(_ & Hin & _ & Hmine)|(? & _)]]; [done| |done].
      exists (row, col). split; [by apply (extends_in_bounds _ _ _ Hext)|].
      split; [by apply (extends_is_mine _ _ _ Hext)|].
      by eapply reveal_rec_uncovers_target.
    + rewrite Hgs. unfold state_after_safe. case_decide as Hd.
      * split; [auto|]. split; [done|]. intros _.
        rewrite (ext_num_mines _ _ Hext). lia.
      * split; [done|]. split.
        -- intros Hf. destruct (IH2 Hf) as (x & Hx & Hmx & Hux).
           exists x. split; [by apply (extends_in_bounds _ _ _ Hext)|].
           split; [by apply (extends_is_mine _ _ _ Hext)|].
           by apply (ext_mono _ _ Hext).
        -- intros Hw. pose proof (IH3 Hw). rewrite (ext_num_mines _ _ Hext).
           pose proof (extends_num_covered_le _ _ Hext). lia.
Qed.

(** X4.  On every board of a game the state is one of [in_progress],
    [win] and [failure]; while it is [in_progress] no mine has been
    uncovered; when it is [failure] some mine is uncovered; when it is
    [win] the counter is at or below the number of mines; and
    [num_covered] lies between 0 and rows times cols. *)
Theorem game_state_invariants (m : ndarray) (b : MineSweeper)
    (Hreach : reachable m b) :
  (getstate b = "in_progress"%string ∨ getstate b = "win"%string
   ∨ getstate b = "failure"%string) ∧
  (getstate b = "in_progress"%string →
   ∀ x, in_bounds b x → is_mine b x → is_covered b x) ∧
  (getstate b = "failure"%string →
   ∃ x, in_bounds b x ∧ is_mine b x ∧ ¬ is_covered b x) ∧
  (getstate b = "win"%string → num_covered b ≤ num_mines b) ∧
  0 ≤ num_covered b ≤ Z.of_nat (size b).1 * Z.of_nat (size b).2.
Proof.
  pose proof (reachable_board_inv _ _ Hreach) as Hi.
  destruct (reachable_state_inv _ _ Hreach) as (H1 & H2 & H3).
  unfold getstate. split; [done|]. split; [apply (inv_in_progress _ _ Hi)|].
  split; [done|]. split; [done|].
  rewrite (inv_num_covered _ _ Hi).
  pose proof (shaped_count_le b (inv_shaped _ _ Hi)). lia.
Qed.

Lemma game_state_invariants_witness :
  (getstate board_3x3_corner_lost = "in_progress"%string
   ∨ getstate board_3x3_corner_lost = "win"%string
   ∨ getstate board_3x3_corner_lost = "failure"%string) ∧
  (getstate board_3x3_corner_lost = "in_progress"%string →
   ∀ x, in_bounds board_3x3_corner_lost x → is_mine board_3x3_corner_lost x →
        is_covered board_3x3_corner_lost x) ∧
  (getstate board_3x3_corner_lost = "failure"%string →
   ∃ x, in_bounds board_3x3_corner_lost x ∧ is_mine board_3x3_corner_lost x
        ∧ ¬ is_covered board_3x3_corner_lost x) ∧
  (getstate board_3x3_corner_lost = "win"%string →
   num_covered board_3x3_corner_lost ≤ num_mines board_3x3_corner_lost) ∧
  0 ≤ num_covered board_3x3_corner_lost
    ≤ Z.of_nat (size board_3x3_corner_lost).1
      * Z.of_nat (size board_3x3_corner_lost).2.
Proof.
  apply (game_state_invariants mask_3x3_corner).
  exact (reach_reveal _ _ _ _ _ _ reachable_3x3_corner_won reveal_3x3_corner_mine).
Defined.

(** An activation changes an entry of [covered] to zero or not at all. *)
Lemma reveal_rec_covered_vals (im : index_mode) (depth : nat) :
  ∀ (b b' : MineSweeper) (row col ret : Z),
    shaped b → reveal_rec im depth b row col = Ok (b', ret) →
    ∀ r c, 0 ≤ r → 0 ≤ c →
           val (covered b') r c = val (covered b) r c ∨ val (covered b') r c = 0.
Proof.
  induction depth as [|depth IH]; intros b b' row col ret Hsh Hrun;
    apply reveal_rec_cases in Hrun as
      [(-> & _ & _)|(Hin & Hcov & depth' & Hd & Hcase)]; try done; auto.
  injection Hd as <-.
  destruct (extends_uncovered_at b row col Hsh Hin Hcov) as [Hext1 _].
  destruct (uncovered_at_fields b row col) as (_ & _ & _ & _ & E5 & _).
  assert (H1 : ∀ r c, 0 ≤ r → 0 ≤ c →
            val (covered (uncovered_at b row col)) r c = val (covered b) r c
            ∨ val (covered (uncovered_at b row col)) r c = 0).
  { intros r c Hr Hc. rewrite E5. destruct Hsh as [_ _ [Hw Hs]].
    rewrite val_upd; [|done|by rewrite Hs|done|done]. case_decide; auto. }
  destruct Hcase as [(_ & -> & _)|[(_ & _ & -> & _)|(_ & _ & _ & Hfe)]];
    [done|done|].
  assert (G : shaped b' ∧
              ∀ r c, 0 ≤ r → 0 ≤ c →
                val (covered b') r c = val (covered b) r c
                ∨ val (covered b') r c = 0); [|apply G].
  revert Hfe.
  apply (for_each_ind
           (λ t, shaped t ∧
                 ∀ r c, 0 ≤ r → 0 ≤ c →
                   val (covered t) r c = val (covered b) r c
                   ∨ val (covered t) r c = 0)).
  - split; [apply (ext_shaped _ _ Hext1)|done].
  - intros rc t t' [Ht Hv] _ Hstep.
    split; [by eapply cascade_step_shaped|].
    apply cascade_step_inv in Hstep as [r' Hstep].
    intros r c Hr Hc.
    destruct (IH _ _ _ _ _ Ht Hstep r c Hr Hc) as [E|E]; [|by right].
    rewrite E. by apply Hv.
Qed.

Lemma reachable_covered_bool (m : ndarray) (b : MineSweeper) :
  reachable m b →
  ∀ r c, in_bounds b (r, c) → val (covered b) r c = 0 ∨ val (covered b) r c = 1.
Proof.
  induction 1 as [junk b Hm Hrun|b b' row col ret Hreach IH Hrun].
  - pose proof (init_constructed junk m b Hm Hrun) as Hc.
    intros r c Hin. right. rewrite (cons_covered _ _ Hc). by apply val_np_ones.
  - pose proof (inv_shaped _ _ (reachable_board_inv _ _ Hreach)) as Hsh.
    pose proof (reveal_rec_extends _ _ _ _ _ _ _ Hsh Hrun) as Hext.
    intros r c Hin. pose proof Hin as [[Hr _] [Hc _]]. simpl in Hr, Hc.
    destruct (reveal_rec_covered_vals _ _ _ _ _ _ _ Hsh Hrun r c Hr Hc) as [E|E];
      [|by left].
    rewrite E. apply IH. by apply (extends_in_bounds _ _ _ Hext).
Qed.

Lemma window_mines_range (b : MineSweeper) (rc : Z * Z) :
  mine_indicator b rc ≤ window_mines b rc ≤ 8 + mine_indicator b rc.
Proof.
  unfold window_mines. cbn [map foldr]. rewrite sum_indicators_count.
  pose proof (length_filter (λ n, in_bounds b n ∧ is_mine b n)
                (neighbours8 rc.1 rc.2)) as K.
  simpl in K. simpl. lia.
Qed.

(** X5.  On every board of a game the entries of [covered] and of
    [mines] are 0 or 1, and the count of a cell lies between 0 and 9: at
    least 1 on a mine, which counts itself, and at most 8 elsewhere. *)
Theorem grid_value_ranges (m : ndarray) (b : MineSweeper) (rc : Z * Z)
    (Hreach : reachable m b) (Hin : in_bounds b rc) :
  (val (covered b) rc.1 rc.2 = 0 ∨ val (covered b) rc.1 rc.2 = 1) ∧
  (val (mines b) rc.1 rc.2 = 0 ∨ val (mines b) rc.1 rc.2 = 1) ∧
  0 ≤ hint b rc ≤ 9 ∧
  (is_mine b rc → 1 ≤ hint b rc) ∧
  (¬ is_mine b rc → hint b rc ≤ 8).
Proof.
  pose proof (reachable_board_inv _ _ Hreach) as Hi.
  split; [destruct rc; by apply (reachable_covered_bool m)|].
  split.
  { rewrite (inv_mines _ _ Hi), val_gt0_int8. destruct (0 <? _); auto. }
  rewrite (hint_window_mines m) by done.
  pose proof (window_mines_range b rc) as Hw.
  pose proof (mine_indicator_range b rc) as Hr.
  split; [lia|]. split.
  - intros Hm. unfold mine_indicator in Hw. rewrite decide_True in Hw by done. lia.
  - intros Hm. unfold mine_indicator in Hw. rewrite decide_False in Hw by tauto. lia.
Qed.

Lemma grid_value_ranges_witness :
  (val (covered board_3x3_corner_won) 0 0 = 0
   ∨ val (covered board_3x3_corner_won) 0 0 = 1) ∧
  (val (mines board_3x3_corner_won) 0 0 = 0
   ∨ val (mines board_3x3_corner_won) 0 0 = 1) ∧
  0 ≤ hint board_3x3_corner_won (0, 0) ≤ 9 ∧
  (is_mine board_3x3_corner_won (0, 0) → 1 ≤ hint board_3x3_corner_won (0, 0)) ∧
  (¬ is_mine board_3x3_corner_won (0, 0) → hint board_3x3_corner_won (0, 0) ≤ 8).
Proof.
  apply (grid_value_ranges mask_3x3_corner _ (0, 0)).
  - apply reachable_3x3_corner_won.
  - apply in_bounds_3x3; [vm_compute; reflexivity|lia|lia].
Defined.

(** X6.  The codes of [getsquare] tell the cases apart: on every board of
    a game it returns -3 exactly off the board, -1 exactly at a covered
    cell, -2 exactly at an uncovered mine, and a count from 0 to 8
    exactly at an uncovered cell that is no mine. *)
Theorem getsquare_codes (m : ndarray) (b : MineSweeper) (row col : Z)
    (Hreach : reachable m b) :
  ∃ v,
    getsquare b row col = Ok v ∧
    -3 ≤ v ≤ 8 ∧
    (v = -3 ↔ ¬ in_bounds b (row, col)) ∧
    (v = -1 ↔ in_bounds b (row, col) ∧ is_covered b (row, col)) ∧
    (v = -2 ↔ in_bounds b (row, col) ∧ ¬ is_covered b (row, col)
              ∧ is_mine b (row, col)) ∧
    (0 ≤ v ↔ in_bounds b (row, col) ∧ ¬ is_covered b (row, col)
             ∧ ¬ is_mine b (row, col)).
Proof.
  pose proof (reachable_board_inv _ _ Hreach) as Hi.
  pose proof (inv_shaped _ _ Hi) as Hsh. unfold getsquare.
  assert (Hcases :
    ∀ v, -3 ≤ v ≤ 8 →
         (v = -3 ↔ ¬ in_bounds b (row, col)) →
         (v = -1 ↔ in_bounds b (row, col) ∧ is_covered b (row, col)) →
         (v = -2 ↔ in_bounds b (row, col) ∧ ¬ is_covered b (row, col)
                   ∧ is_mine b (row, col)) →
         (0 ≤ v ↔ in_bounds b (row, col) ∧ ¬ is_covered b (row, col)
                  ∧ ¬ is_mine b (row, col)) →
         getsquare_in NumPy b row col = Ok v →
         ∃ v, getsquare_in NumPy b row col = Ok v ∧ -3 ≤ v ≤ 8 ∧
              (v = -3 ↔ ¬ in_bounds b (row, col)) ∧
              (v = -1 ↔ in_bounds b (row, col) ∧ is_covered b (row, col)) ∧
              (v = -2 ↔ in_bounds b (row, col) ∧ ¬ is_covered b (row, col)
                        ∧ is_mine b (row, col)) ∧
              (0 ≤ v ↔ in_bounds b (row, col) ∧ ¬ is_covered b (row, col)
                       ∧ ¬ is_mine b (row, col))).
  { intros v ? ? ? ? ? ?. exists v. tauto. }
  destruct (decide (in_bounds b (row, col))) as [Hin|Hout].
  2:{ apply (Hcases (-3)); [lia|tauto|split; [lia|tauto]..|].
      by apply getsquare_out. }
  destruct (decide (is_covered b (row, col))) as [Hc|Hc].
  { apply (Hcases (-1)); [lia|split; [lia|tauto]|tauto|split; [lia|tauto]..|].
    rewrite getsquare_in_bounds by done. by rewrite decide_True. }
  destruct (decide (is_mine b (row, col))) as [Hm|Hm].
  { apply (Hcases (-2));
      [lia|split; [lia|tauto]|split; [lia|tauto]|tauto|split; [lia|tauto]|].
    rewrite getsquare_in_bounds by done.
    rewrite decide_False by done. by rewrite decide_True. }
  destruct (hint_adjacent_mines m b (row, col) Hi Hin Hm) as [_ Hr].
  apply (Hcases (hint b (row, col)));
    [lia|split; [lia|tauto]|split; [lia|tauto]|split; [lia|tauto]|
     split; [tauto|lia]|].
  rewrite getsquare_in_bounds by done. by rewrite !decide_False.
Qed.

Lemma getsquare_codes_witness :
  ∃ v,
    getsquare board_3x3_corner_won 1 1 = Ok v ∧
    -3 ≤ v ≤ 8 ∧
    (v = -3 ↔ ¬ in_bounds board_3x3_corner_won (1, 1)) ∧
    (v = -1 ↔ in_bounds board_3x3_corner_won (1, 1)
              ∧ is_covered board_3x3_corner_won (1, 1)) ∧
    (v = -2 ↔ in_bounds board_3x3_corner_won (1, 1)
              ∧ ¬ is_covered board_3x3_corner_won (1, 1)
              ∧ is_mine board_3x3_corner_won (1, 1)) ∧
    (0 ≤ v ↔ in_bounds board_3x3_corner_won (1, 1)
             ∧ ¬ is_covered board_3x3_corner_won (1, 1)
             ∧ ¬ is_mine board_3x3_corner_won (1, 1)).
Proof. apply (getsquare_codes mask_3x3_corner), reachable_3x3_corner_won. Defined.

(** ** The constructor on any grid *)

(** Arrays of one shape with the same entries are the same array. *)
Lemma nd_ext (a a' : ndarray) :
  nd_wf a → nd_wf a' → shape a = shape a' →
  (∀ r c, in_range (shape a) r c → val a r c = val a' r c) →
  a = a'.
Proof.
  intros Ha Ha' Hs Hv.
  pose proof (rows_Forall2 eq a a' Ha Ha' Hs Hv) as H.
  destruct a as [sh d], a' as [sh' d']. simpl in *. subst sh'. f_equal.
  apply list_eq_Forall2. eapply Forall2_impl; [done|].
  intros x y Hxy. by apply list_eq_Forall2.
Qed.

Lemma init_raises_ValueError (junk : nat → nat → Z) (m : ndarray) (e : exn) :
  nd_wf m → __init__ junk m = Raise e → e = ValueError.
Proof.
  intros Hm Hrun.
  destruct (decide ((shape m).2 < 3)%nat) as [Hc|Hc].
  - destruct (decide (0 < (shape m).1)%nat) as [Hr|Hr].
    { rewrite init_narrow in Hrun by done. by injection Hrun. }
    destruct (decide (0 < (shape m).2)%nat) as [Hc0|Hc0].
    { rewrite init_low in Hrun by (done || lia). by injection Hrun. }
    destruct m as [[r c] d]. simpl in *.
    assert (r = 0%nat) as -> by lia. assert (c = 0%nat) as -> by lia.
    destruct Hm as [Hl _]. simpl in Hl. destruct d; [|done]. done.
  - destruct (decide ((shape m).1 < 3)%nat) as [Hr|Hr].
    { rewrite init_low in Hrun by (done || lia). by injection Hrun. }
    destruct (init_large junk m Hm) as (b & Hb & _); [lia|lia|]. congruence.
Qed.

(** X7.  [__init__] accepts a grid exactly when it has no cell at all or
    at least three rows and three columns; on every other grid, a side
    of one or two cells or a single zero dimension, it raises
    [ValueError] and builds nothing. *)
Theorem init_accepts (junk : nat → nat → Z) (m : ndarray) (Hm : nd_wf m) :
  (is_Ok (__init__ junk m) ↔
   shape m = (0%nat, 0%nat) ∨ ((3 ≤ (shape m).1)%nat ∧ (3 ≤ (shape m).2)%nat)) ∧
  (¬ is_Ok (__init__ junk m) → __init__ junk m = Raise ValueError).
Proof.
  split; [split|].
  - intros [b Hb]. by eapply init_dims.
  - intros [Hz|[Hr Hc]].
    + destruct m as [sh d]. simpl in Hz. subst sh. destruct Hm as [Hl _].
      simpl in Hl. destruct d; [|done]. by eexists.
    + destruct (init_large junk m Hm Hr Hc) as (b & Hb & _). by exists b.
  - intros Hno. destruct (__init__ junk m) as [b|e] eqn:Hrun.
    + destruct Hno. by exists b.
    + by rewrite (init_raises_ValueError junk m e Hm Hrun).
Qed.

Lemma init_accepts_witness :
  (is_Ok (__init__ no_junk mask_1x1) ↔
   shape mask_1x1 = (0%nat, 0%nat)
   ∨ ((3 ≤ (shape mask_1x1).1)%nat ∧ (3 ≤ (shape mask_1x1).2)%nat)) ∧
  (¬ is_Ok (__init__ no_junk mask_1x1) →
   __init__ no_junk mask_1x1 = Raise ValueError).
Proof. apply init_accepts. split; [done|]. by repeat constructor. Defined.

Lemma constructed_unique (m : ndarray) (b1 b2 : MineSweeper) :
  constructed m b1 → constructed m b2 → b1 = b2.
Proof.
  intros H1 H2.
  assert (Hb : board b1 = board b2).
  { destruct (cons_shaped _ _ H1) as [_ [Hw1 Hs1] _].
    destruct (cons_shaped _ _ H2) as [_ [Hw2 Hs2] _].
    apply nd_ext; [done|done| |].
    - by rewrite Hs1, Hs2, (cons_size _ _ H1), (cons_size _ _ H2).
    - intros r c Hrc. rewrite Hs1 in Hrc.
      pose proof (cons_counts _ _ H1 (r, c) Hrc) as E1.
      assert (Hrc2 : in_bounds b2 (r, c)).
      { unfold in_bounds in *. by rewrite (cons_size _ _ H2), <- (cons_size _ _ H1). }
      pose proof (cons_counts _ _ H2 (r, c) Hrc2) as E2.
      unfold hint in E1, E2. simpl in E1, E2.
      by rewrite E1, E2, (cons_mines _ _ H1), (cons_mines _ _ H2). }
  destruct H1 as [_ S1 M1 N1 C1 K1 G1 _], H2 as [_ S2 M2 N2 C2 K2 G2 _].
  destruct b1, b2. simpl in *. subst. f_equal.
Qed.

(** X8.  What [np.empty] leaves in [board] never shows: [__init__] gives
    the same result, the same board or the same exception, whatever the
    uninitialised contents were. *)
Theorem init_ignores_uninitialised (junk1 junk2 : nat → nat → Z) (m : ndarray)
    (Hm : nd_wf m) :
  __init__ junk1 m = __init__ junk2 m.
Proof.
  destruct (__init__ junk1 m) as [b1|e1] eqn:H1;
    destruct (__init__ junk2 m) as [b2|e2] eqn:H2.
  - f_equal. apply (constructed_unique m); by eapply init_constructed.
  - exfalso. apply init_dims in H1 as [Hz|[Hr Hc]]; [| |done].
    + destruct m as [sh d]. simpl in Hz. subst sh. destruct Hm as [Hl _].
      simpl in Hl. destruct d; done.
    + destruct (init_large junk2 m Hm Hr Hc) as (b & Hb & _). congruence.
  - exfalso. apply init_dims in H2 as [Hz|[Hr Hc]]; [| |done].
    + destruct m as [sh d]. simpl in Hz. subst sh. destruct Hm as [Hl _].
      simpl in Hl. destruct d; done.
    + destruct (init_large junk1 m Hm Hr Hc) as (b & Hb & _). congruence.
  - by rewrite (init_raises_ValueError _ _ _ Hm H1),
               (init_raises_ValueError _ _ _ Hm H2).
Qed.

Lemma init_ignores_uninitialised_witness :
  __init__ (λ i j, Z.of_nat (i + j) - 100) mask_3x3_corner
  = __init__ no_junk mask_3x3_corner.
Proof. apply init_ignores_uninitialised, mask_3x3_corner_wf. Defined.

(** X9.  The board [__init__] returns: its size is the shape of the
    mask, a cell is a mine exactly where the mask is positive,
    [num_mines] is the number of those cells, every cell is covered,
    [getsquare] answers -1 everywhere on the board, [num_covered] is rows
    times cols and the state is [in_progress]. *)
Theorem init_board (junk : nat → nat → Z) (m : ndarray) (b : MineSweeper)
    (Hm : nd_wf m) (Hinit : __init__ junk m = Ok b) :
  size b = shape m ∧
  (∀ rc, in_bounds b rc → is_mine b rc ↔ 0 < val m rc.1 rc.2) ∧
  num_mines b = Z.of_nat (count_nonzero (mines b)) ∧
  (∀ row col, in_bounds b (row, col) →
     is_covered b (row, col) ∧ getsquare b row col = Ok (-1)) ∧
  num_covered b = Z.of_nat (size b).1 * Z.of_nat (size b).2 ∧
  getstate b = "in_progress"%string.
Proof.
  pose proof (init_constructed junk m b Hm Hinit) as Hc.
  pose proof (constructed_board_inv _ _ Hc) as Hi.
  split; [apply (cons_size _ _ Hc)|]. split.
  { intros rc _. unfold is_mine. rewrite (cons_mines _ _ Hc), val_gt0_int8.
    destruct (Z.ltb_spec 0 (val m rc.1 rc.2)); split; (done || lia). }
  split; [by apply (board_inv_num_mines m)|]. split.
  { intros row col Hin.
    assert (Hcov : is_covered b (row, col)).
    { unfold is_covered. rewrite (cons_covered _ _ Hc), val_np_ones; done. }
    split; [done|]. unfold getsquare.
    rewrite getsquare_in_bounds by (done || apply (cons_shaped _ _ Hc)).
    by rewrite decide_True. }
  split; [apply (cons_num_covered _ _ Hc)|apply (cons_game_state _ _ Hc)].
Qed.

Lemma init_board_witness :
  size board_3x3_two = shape mask_3x3_two ∧
  (∀ rc, in_bounds board_3x3_two rc →
         is_mine board_3x3_two rc ↔ 0 < val mask_3x3_two rc.1 rc.2) ∧
  num_mines board_3x3_two = Z.of_nat (count_nonzero (mines board_3x3_two)) ∧
  (∀ row col, in_bounds board_3x3_two (row, col) →
     is_covered board_3x3_two (row, col)
     ∧ getsquare board_3x3_two row col = Ok (-1)) ∧
  num_covered board_3x3_two
  = Z.of_nat (size board_3x3_two).1 * Z.of_nat (size board_3x3_two).2 ∧
  getstate board_3x3_two = "in_progress"%string.
Proof. exact (init_board no_junk _ _ mask_3x3_two_wf init_3x3_two). Defined.

(** X10.  On a board of at least 3x3, when the sampler hands back
    [num_mines] distinct indices of cells, [fromdimensions] returns a
    board of the dimensions asked for whose mines are exactly the cells
    drawn, index [i] being the cell [(i // cols, i % cols)], and whose
    [num_mines] is the number asked for. *)
Theorem fromdimensions_draws_mines (junk : nat → nat → Z)
    (choice : Z → Z → result (list Z)) (rows cols num_mines0 : Z) (l : list Z)
    (Hrows : 3 ≤ rows) (Hcols : 3 ≤ cols) (Hnum : 0 ≤ num_mines0)
    (Hchoice : choice (rows * cols) num_mines0 = Ok l)
    (Hlen : length l = Z.to_nat num_mines0) (Hdistinct : NoDup l)
    (Hrange : ∀ x, x ∈ l → 0 ≤ x < rows * cols) :
  ∃ b,
    fromdimensions junk choice (rows, cols) num_mines0 = Ok b ∧
    size b = (Z.to_nat rows, Z.to_nat cols) ∧
    num_mines b = num_mines0 ∧
    getstate b = "in_progress"%string ∧
    (∀ r c, in_bounds b (r, c) →
       is_covered b (r, c) ∧ (is_mine b (r, c) ↔ r * cols + c ∈ l)).
Proof.
  destruct (fromdimensions_builds junk choice rows cols num_mines0 l)
    as (b & mask & Hb & Hm & Hc & Hs & Hn & Hmines); try done.
  exists b. split; [done|]. split; [done|]. split; [done|].
  split; [apply (cons_game_state _ _ Hc)|].
  intros r c Hin. split; [|by apply Hmines].
  unfold is_covered. rewrite (cons_covered _ _ Hc), val_np_ones; done.
Qed.

Lemma fromdimensions_draws_mines_witness :
  ∃ b,
    fromdimensions no_junk (λ _ _, Ok [4; 0]) (3, 3) 2 = Ok b ∧
    size b = (Z.to_nat 3, Z.to_nat 3) ∧
    num_mines b = 2 ∧
    getstate b = "in_progress"%string ∧
    (∀ r c, in_bounds b (r, c) →
       is_covered b (r, c) ∧ (is_mine b (r, c) ↔ r * 3 + c ∈ [4; 0])).
Proof.
  apply (fromdimensions_draws_mines no_junk (λ _ _, Ok [4; 0]) 3 3 2 [4; 0]);
    try lia; try reflexivity.
  - apply NoDup_cons. split; [|apply NoDup_singleton].
    intros K. apply list_elem_of_singleton in K. discriminate.
  - intros x Hx. apply elem_of_cons in Hx as [->|Hx]; [lia|].
    apply list_elem_of_singleton in Hx as ->. lia.
Defined.

(** ** Winning, and the order of the moves *)

Lemma rows_Forall2_val (P : Z → Z → Prop) (a a' : ndarray) (r c : Z) :
  nd_wf a → nd_wf a' → shape a = shape a' →
  Forall2 (Forall2 P) (data a) (data a') →
  in_range (shape a) r c → P (val a r c) (val a' r c).
Proof.
  intros Ha Ha' Hs H [Hr Hc].
  destruct (lookup_lt_is_Some_2 (data a) (Z.to_nat r)) as [row Hrow];
    [destruct Ha as [-> _]; lia|].
  destruct (lookup_lt_is_Some_2 (data a') (Z.to_nat r)) as [row' Hrow'];
    [destruct Ha' as [-> _]; rewrite <- Hs; lia|].
  pose proof (Forall2_lookup_lr _ _ _ _ _ _ H Hrow Hrow') as Hrr.
  destruct (lookup_lt_is_Some_2 row (Z.to_nat c)) as [x Hx];
    [rewrite (row_length _ _ _ Ha Hrow); lia|].
  destruct (lookup_lt_is_Some_2 row' (Z.to_nat c)) as [y Hy];
    [rewrite (row_length _ _ _ Ha' Hrow'), <- Hs; lia|].
  pose proof (Forall2_lookup_lr _ _ _ _ _ _ Hrr Hx Hy) as Hxy.
  unfold val, cell. by rewrite Hrow, Hrow'; simpl; rewrite Hx, Hy.
Qed.

Lemma count_nz_sub (r r' : list Z) :
  Forall2 (λ x y, x ≠ 0 → y ≠ 0) r r' →
  (count_nz r ≤ count_nz r')%nat ∧
  (count_nz r = count_nz r' → Forall2 (λ x y, x ≠ 0 ↔ y ≠ 0) r r').
Proof.
  unfold count_nz. induction 1 as [|x y r r' Hxy _ [IH1 IH2]];
    [split; [done|constructor]|].
  destruct (decide (x ≠ 0)) as [Hx|Hx]; destruct (decide (y ≠ 0)) as [Hy|Hy].
  - rewrite !filter_cons_True by done. simpl. split; [lia|].
    intros E. constructor; [tauto|]. apply IH2. lia.
  - tauto.
  - rewrite (filter_cons_False _ x) by done. rewrite (filter_cons_True _ y) by done.
    simpl. split; [lia|]. intros E. lia.
  - rewrite !filter_cons_False by done. split; [done|].
    intros E. constructor; [tauto|]. by apply IH2.
Qed.

Lemma count_nonzero_sub (a a' : ndarray) :
  nd_wf a → nd_wf a' → shape a = shape a' →
  (∀ r c, in_range (shape a) r c → val a r c ≠ 0 → val a' r c ≠ 0) →
  (count_nonzero a ≤ count_nonzero a')%nat ∧
  (count_nonzero a = count_nonzero a' →
   ∀ r c, in_range (shape a) r c → val a r c ≠ 0 ↔ val a' r c ≠ 0).
Proof.
  intros Ha Ha' Hs Hp.
  pose proof (rows_Forall2 (λ x y, x ≠ 0 → y ≠ 0) a a' Ha Ha' Hs Hp) as H.
  assert (G : (sum_list (map count_nz (data a)) ≤ sum_list (map count_nz (data a')))%nat ∧
              (sum_list (map count_nz (data a)) = sum_list (map count_nz (data a')) →
               Forall2 (Forall2 (λ x y, x ≠ 0 ↔ y ≠ 0)) (data a) (data a'))).
  { induction H as [|r r' l l' Hr _ [IH1 IH2]]; [split; [done|constructor]|].
    destruct (count_nz_sub _ _ Hr) as [H1 H2]. simpl. split; [lia|].
    intros E. constructor; [apply H2; lia|apply IH2; lia]. }
  destruct G as [G1 G2]. split; [done|].
  intros E r c Hrc.
  by apply (rows_Forall2_val (λ x y, x ≠ 0 ↔ y ≠ 0) a a'); [| | |apply G2|].
Qed.

(** A call that hits no mine leaves every covered mine covered. *)
Lemma safe_reveal_keeps_mines_covered (im : index_mode) (depth : nat)
    (m : ndarray) (b b' : MineSweeper) (row col ret : Z) :
  board_inv m b → reveal_rec im depth b row col = Ok (b', ret) → ret ≠ 0 →
  ∀ x, in_bounds b x → is_mine b x → is_covered b x → is_covered b' x.
Proof.
  intros Hi Hrun Hret x Hin Hm Hc.
  pose proof (inv_shaped _ _ Hi) as Hsh.
  pose proof (board_inv_safe_zeros _ _ Hi) as Hsafe.
  destruct (decide (is_covered b' x)) as [|Hu]; [done|]. exfalso.
  pose proof (reveal_rec_sound _ _ _ _ _ _ _ Hsh Hrun x Hin Hc Hu) as Hr.
  apply (cascade_reach_safe _ _ _ Hsafe Hr); [|done].
  destruct (reveal_rec_code _ _ _ _ _ _ _ Hsh Hrun)
    as [(_ & -> & _)|[(-> & _)|(_ & _ & _ & Hnm)]]; done.
Qed.

(** X11.  A game that is in progress and becomes won by a [reveal] is
    won for good reason: the call returned 1, and on the board it leaves
    the covered cells are exactly the mines, with [num_covered] equal to
    [num_mines]. *)
Theorem win_in_play (m : ndarray) (b b' : MineSweeper) (row col ret : Z)
    (Hreach : reachable m b)
    (Hplay : getstate b = "in_progress"%string)
    (Hrun : reveal b row col = Ok (b', ret))
    (Hwin : getstate b' = "win"%string) :
  ret = 1 ∧
  num_covered b' = num_mines b' ∧
  ∀ x, in_bounds b' x → is_covered b' x ↔ is_mine b' x.
Proof.
  unfold getstate in *.
  pose proof (reachable_board_inv _ _ Hreach) as Hi.
  pose proof (reveal_rec_board_inv _ _ _ _ _ _ _ _ Hi Hrun) as Hi'.
  pose proof (inv_shaped _ _ Hi) as Hsh.
  pose proof (board_inv_safe_zeros _ _ Hi) as Hsafe.
  pose proof (reveal_rec_extends _ _ _ _ _ _ _ Hsh Hrun) as Hext.
  destruct (reveal_rec_state _ _ _ _ _ _ _ Hsh Hsafe Hrun) as [[_ K]|[Hne Hgs]];
    [congruence|].
  assert (Hret : ret = 1).
  { destruct (reveal_rec_code _ _ _ _ _ _ _ Hsh Hrun)
      as [(-> & -> & _)|[(-> & _)|(-> & _)]]; [congruence|done|done]. }
  split; [done|].
  unfold state_after_safe in Hgs. case_decide as Hd; [|congruence].
  destruct (inv_shaped _ _ Hi') as [[Hmw Hms] _ [Hcw Hcs]].
  destruct (count_nonzero_sub (mines b') (covered b')) as [Hle Heq];
    [done|done|by rewrite Hms, Hcs|..].
  { intros r c Hrc Hm. rewrite Hms in Hrc.
    change (is_covered b' (r, c)).
    apply (safe_reveal_keeps_mines_covered _ _ _ _ _ _ _ _ Hi Hrun Hne).
    - by apply (extends_in_bounds _ _ _ Hext).
    - by apply (extends_is_mine _ _ _ Hext).
    - apply (inv_in_progress _ _ Hi Hplay).
      + by apply (extends_in_bounds _ _ _ Hext).
      + by apply (extends_is_mine _ _ _ Hext). }
  pose proof (inv_num_covered _ _ Hi') as Hnc.
  pose proof (board_inv_num_mines _ _ Hi') as Hnm.
  rewrite (ext_num_mines _ _ Hext) in Hnm.
  split; [rewrite (ext_num_mines _ _ Hext); lia|].
  intros [r c] Hx. symmetry. apply Heq; [lia|by rewrite Hms].
Qed.

Lemma win_in_play_witness :
  1 = 1 ∧
  num_covered board_3x3_corner_won = num_mines board_3x3_corner_won ∧
  ∀ x, in_bounds board_3x3_corner_won x →
       is_covered board_3x3_corner_won x ↔ is_mine board_3x3_corner_won x.
Proof.
  apply (win_in_play mask_3x3_corner board_3x3_corner _ 2 2).
  - apply reachable_3x3_corner.
  - reflexivity.
  - apply reveal_3x3_corner_far.
  - vm_compute. reflexivity.
Defined.

Lemma reveal_all_covered (m : ndarray) (moves : list (Z * Z)) :
  ∀ (b b' : MineSweeper) (rets : list Z),
    reachable m b → reveal_all b moves = Ok (b', rets) →
    extends b b' ∧
    ∀ x, in_bounds b x →
         is_covered b' x ↔
         is_covered b x ∧ ∀ z, z ∈ moves → in_bounds b z → ¬ cascade_reach b z x.
Proof.
  induction moves as [|[row col] moves IH]; intros b b' rets Hreach Hrun;
    simpl in Hrun.
  { injection Hrun as <- <-.
    split; [apply extends_refl, (inv_shaped m), reachable_board_inv, Hreach|].
    intros x _. split; [|tauto]. intros Hc. split; [done|].
    intros z Hz. by apply elem_of_nil in Hz. }
  apply bind_Ok_inv in Hrun as ([b1 ret] & Hstep & Hrun).
  apply bind_Ok_inv in Hrun as ([b2 rets'] & Hrest & Hrun).
  simpl in *. injection Hrun as <- <-.
  pose proof (reachable_board_inv _ _ Hreach) as Hi.
  pose proof (inv_shaped _ _ Hi) as Hsh.
  pose proof (reveal_rec_extends _ _ _ _ _ _ _ Hsh Hstep) as Hext.
  destruct (IH _ _ _ (reach_reveal _ _ _ _ _ _ Hreach Hstep) Hrest) as [Hext' IHc].
  split; [by eapply extends_trans|].
  intros x Hx.
  rewrite IHc by (by apply (extends_in_bounds _ _ _ Hext)).
  assert (Hfirst : is_covered b1 x ↔
            is_covered b x ∧ (in_bounds b (row, col) → ¬ cascade_reach b (row, col) x)).
  { destruct (decide (in_bounds b (row, col))) as [Hin|Hout].
    - rewrite (reveal_rec_safe_covered _ _ m b b1 row col ret) by done. tauto.
    - unfold reveal in Hstep. rewrite reveal_rec_out in Hstep by done.
      injection Hstep as <- <-. tauto. }
  rewrite Hfirst. split.
  - intros [[Hc H1] H2]. split; [done|]. intros z Hz Hinz.
    apply elem_of_cons in Hz as [->|Hz]; [by apply H1|].
    intros Hr. apply (H2 z Hz); [by apply (extends_in_bounds _ _ _ Hext)|].
    by apply (extends_cascade_reach_iff _ _ _ _ Hext).
  - intros [Hc H]. split; [split; [done|]|].
    + intros Hin. apply H; [by left|done].
    + intros z Hz Hinz Hr. apply (extends_in_bounds _ _ _ Hext) in Hinz.
      apply (H z); [by right|done|].
      by apply (extends_cascade_reach_iff _ _ _ _ Hext).
Qed.

(** X12.  Which cells are uncovered after some [reveal] calls does not
    depend on their order, nor on repetitions: two sequences of calls at
    the same coordinates, run from the same board of a game, leave the
    same [covered] grid and the same [num_covered].  (The state they
    leave can differ.) *)
Theorem reveal_order_irrelevant (m : ndarray) (b b1 b2 : MineSweeper)
    (moves1 moves2 : list (Z * Z)) (rets1 rets2 : list Z)
    (Hreach : reachable m b)
    (Hsame : ∀ z, z ∈ moves1 ↔ z ∈ moves2)
    (Hrun1 : reveal_all b moves1 = Ok (b1, rets1))
    (Hrun2 : reveal_all b moves2 = Ok (b2, rets2)) :
  covered b1 = covered b2 ∧ num_covered b1 = num_covered b2.
Proof.
  destruct (reveal_all_covered _ _ _ _ _ Hreach Hrun1) as [Hext1 Hc1].
  destruct (reveal_all_covered _ _ _ _ _ Hreach Hrun2) as [Hext2 Hc2].
  pose proof (reachable_reveal_all _ _ _ _ _ Hreach Hrun1) as Hr1.
  pose proof (reachable_reveal_all _ _ _ _ _ Hreach Hrun2) as Hr2.
  destruct (ext_shaped _ _ Hext1) as [_ _ [Hw1 Hs1]].
  destruct (ext_shaped _ _ Hext2) as [_ _ [Hw2 Hs2]].
  assert (Hiff : ∀ x, in_bounds b x → is_covered b1 x ↔ is_covered b2 x).
  { intros x Hx. rewrite Hc1, Hc2 by done. split; intros [Hc H]; (split; [done|]);
      intros z Hz; apply H; by apply Hsame. }
  assert (Heq : covered b1 = covered b2).
  { apply nd_ext; [done|done| |].
    - by rewrite Hs1, Hs2, (ext_size _ _ Hext1), (ext_size _ _ Hext2).
    - intros r c Hrc. rewrite Hs1 in Hrc. change (in_bounds b1 (r, c)) in Hrc.
      pose proof (reachable_covered_bool _ _ Hr1 r c Hrc) as V1.
      assert (Hrc2 : in_bounds b2 (r, c)).
      { apply (extends_in_bounds _ _ _ Hext2).
        by apply (extends_in_bounds _ _ _ Hext1). }
      pose proof (reachable_covered_bool _ _ Hr2 r c Hrc2) as V2.
      apply (extends_in_bounds _ _ _ Hext1) in Hrc.
      pose proof (Hiff (r, c) Hrc) as K. unfold is_covered in K. simpl in K.
      destruct V1 as [E1|E1], V2 as [E2|E2]; rewrite E1, E2 in *; try done.
      + exfalso. by apply (proj2 K).
      + exfalso. by apply (proj1 K). }
  split; [done|].
  rewrite (inv_num_covered _ _ (reachable_board_inv _ _ Hr1)).
  rewrite (inv_num_covered _ _ (reachable_board_inv _ _ Hr2)).
  by rewrite Heq.
Qed.

Lemma reveal_order_irrelevant_witness :
  covered board_3x3_corner_lost = covered board_3x3_corner_hit_won ∧
  num_covered board_3x3_corner_lost = num_covered board_3x3_corner_hit_won.
Proof.
  apply (reveal_order_irrelevant mask_3x3_corner board_3x3_corner _ _
           [(2, 2); (0, 0)] [(0, 0); (2, 2)] [1; 0] [0; 1]).
  - apply reachable_3x3_corner.
  - intros z. rewrite !elem_of_cons. tauto.
  - vm_compute. reflexivity.
  - vm_compute. reflexivity.
Defined.

(** ** A board without mines *)







(** ** The text of a board *)

Lemma append_cons (ch : ascii) (s t : string) :
  String ch s +:+ t = String ch (s +:+ t).
Proof. reflexivity. Qed.

Lemma append_nil_r (s : string) : s +:+ "" = s.
Proof. induction s as [|ch s IH]; [done|]. by rewrite append_cons, IH. Qed.

Lemma append_assoc (s t u : string) : (s +:+ t) +:+ u = s +:+ (t +:+ u).
Proof. induction s as [|ch s IH]; [done|]. by rewrite !append_cons, IH. Qed.

Lemma length_append (s t : string) :
  String.length (s +:+ t) = (String.length s + String.length t)%nat.
Proof.
  induction s as [|ch s IH]; [done|]. rewrite append_cons. simpl. by rewrite IH.
Qed.

Lemma length_cat_upto (f : nat → string) (n w : nat) :
  (∀ k, (k < n)%nat → String.length (f k) = w) →
  String.length (cat_upto f n) = (n * w)%nat.
Proof.
  induction n as [|n IH]; intros Hf; [done|]. simpl.
  rewrite length_append, IH by (intros; apply Hf; lia).
  rewrite Hf by lia. lia.
Qed.

Lemma cat_upto_ext (f g : nat → string) (n : nat) :
  (∀ k, (k < n)%nat → f k = g k) → cat_upto f n = cat_upto g n.
Proof.
  induction n as [|n IH]; intros Hf; [done|]. simpl.
  rewrite IH by (intros; apply Hf; lia). by rewrite Hf by lia.
Qed.

(** The text of a cell is the glyph of its code, two characters wide. *)
Lemma glyph_cell (m : ndarray) (b : MineSweeper) (r c : nat) :
  board_inv m b → in_bounds b (Z.of_nat r, Z.of_nat c) →
  glyph (code_at b r c) =
    (if decide (is_covered b (Z.of_nat r, Z.of_nat c)) then " ."
     else if decide (is_mine b (Z.of_nat r, Z.of_nat c)) then " X"
     else if decide (hint b (Z.of_nat r, Z.of_nat c) = 0) then "  "
     else " " +:+ format_int (hint b (Z.of_nat r, Z.of_nat c)))%string ∧
  String.length (glyph (code_at b r c)) = 2%nat.
Proof.
  intros Hi Hin. unfold code_at, getsquare.
  rewrite getsquare_in_bounds by (done || apply (inv_shaped _ _ Hi)).
  destruct (decide (is_covered b _)) as [Hc|Hc]; [done|].
  destruct (decide (is_mine b _)) as [Hm|Hm]; [done|].
  destruct (hint_adjacent_mines m b _ Hi Hin Hm) as [_ Hr].
  set (h := hint b (Z.of_nat r, Z.of_nat c)) in *.
  assert (h = 0 ∨ h = 1 ∨ h = 2 ∨ h = 3 ∨ h = 4 ∨ h = 5 ∨ h = 6 ∨ h = 7 ∨ h = 8)
    as Hh by lia.
  destruct Hh as [->|[->|[->|[->|[->|[->|[->|[->| ->]]]]]]]]; by vm_compute.
Qed.

Lemma str_row (m : ndarray) (b : MineSweeper) (r : nat) (out0 : string) :
  board_inv m b → (r < (size b).1)%nat →
  for_each (seq 0 (size b).2)
    (λ out c,
       cov ← getitem NumPy (covered b) (Z.of_nat r) (Z.of_nat c);
       if negb (cov =? 0) then Ok (out +:+ " .")
       else
         is_mine ← getitem NumPy (mines b) (Z.of_nat r) (Z.of_nat c);
         if negb (is_mine =? 0) then Ok (out +:+ " X")
         else
           hint ← getitem NumPy (board b) (Z.of_nat r) (Z.of_nat c);
           if negb (hint =? 0)
           then Ok (out +:+ " " +:+ format_int hint)
           else Ok (out +:+ "  "))
    out0
  = Ok (out0 +:+ cat_upto (λ c, glyph (code_at b r c)) (size b).2).
Proof.
  intros Hi Hr.
  destruct (for_range_total
              (λ k t, t = out0 +:+ cat_upto (λ c, glyph (code_at b r c)) k)
              (size b).2
              (λ out c,
                 cov ← getitem NumPy (covered b) (Z.of_nat r) (Z.of_nat c);
                 if negb (cov =? 0) then Ok (out +:+ " .")
                 else
                   is_mine ← getitem NumPy (mines b) (Z.of_nat r) (Z.of_nat c);
                   if negb (is_mine =? 0) then Ok (out +:+ " X")
                   else
                     hint ← getitem NumPy (board b) (Z.of_nat r) (Z.of_nat c);
                     if negb (hint =? 0)
                     then Ok (out +:+ " " +:+ format_int hint)
                     else Ok (out +:+ "  "))
              out0) as (s & -> & ->); [| |done].
  - simpl. by rewrite append_nil_r.
  - intros k t Hk ->.
    assert (Hin : in_bounds b (Z.of_nat r, Z.of_nat k))
      by (split; simpl; lia).
    destruct (glyph_cell m b r k Hi Hin) as [Hg _].
    destruct (inv_shaped _ _ Hi) as [[Hmw Hms] [Hbw Hbs] [Hcw Hcs]].
    unfold in_bounds, is_covered, is_mine, hint in *. cbn [fst snd] in *.
    rewrite (getitem_val NumPy (covered b)) by (by rewrite ?Hcs). rewrite bind_Ok.
    cbn [cat_upto]. rewrite <- append_assoc, Hg.
    destruct (decide (val (covered b) (Z.of_nat r) (Z.of_nat k) ≠ 0)) as [Hc|Hc].
    { rewrite (proj2 (Z.eqb_neq _ _) Hc). eexists. split; done. }
    assert (val (covered b) (Z.of_nat r) (Z.of_nat k) = 0) as -> by lia.
    cbn [Z.eqb negb].
    rewrite (getitem_val NumPy (mines b)) by (by rewrite ?Hms). rewrite bind_Ok.
    destruct (decide (val (mines b) (Z.of_nat r) (Z.of_nat k) ≠ 0)) as [Hm|Hm].
    { rewrite (proj2 (Z.eqb_neq _ _) Hm). eexists. split; done. }
    assert (val (mines b) (Z.of_nat r) (Z.of_nat k) = 0) as -> by lia.
    cbn [Z.eqb negb].
    rewrite (getitem_val NumPy (board b)) by (by rewrite ?Hbs). rewrite bind_Ok.
    destruct (decide (val (board b) (Z.of_nat r) (Z.of_nat k) = 0)) as [Hz|Hz].
    { rewrite Hz. eexists. split; done. }
    rewrite (proj2 (Z.eqb_neq _ _) Hz). eexists. split; done.
Qed.

(** X14.  On every board of a game [__str__] raises nothing and prints,
    after a line feed, one line per row of the board: a bar, then for
    each cell in turn the two characters of what [getsquare] answers
    there (" ." covered, " X" a mine, two blanks for the count 0, a blank
    and the digit otherwise), then a blank, a bar and a line feed. *)
Theorem str_renders_getsquare (m : ndarray) (b : MineSweeper)
    (Hreach : reachable m b) :
  __str__ b = Ok (render b) ∧
  (∀ r c, (r < (size b).1)%nat → (c < (size b).2)%nat →
          String.length (glyph (code_at b r c)) = 2%nat) ∧
  String.length (render b) = (1 + (size b).1 * (2 * (size b).2 + 4))%nat.
Proof.
  pose proof (reachable_board_inv _ _ Hreach) as Hi.
  assert (Hw : ∀ r c, (r < (size b).1)%nat → (c < (size b).2)%nat →
                      String.length (glyph (code_at b r c)) = 2%nat).
  { intros r c Hr Hc. apply (glyph_cell m); [done|]. split; simpl; lia. }
  split; [|split; [done|]].
  - unfold __str__, render.
    destruct (for_range_total
                (λ k t, t = nl +:+ cat_upto
                               (λ r, "|" +:+ cat_upto (λ c, glyph (code_at b r c))
                                               (size b).2 +:+ " |" +:+ nl) k)
                (size b).1
                (λ out r,
                   let out := out +:+ "|" in
                   out ← for_each (seq 0 (size b).2)
                     (λ out c,
                        cov ← getitem NumPy (covered b) (Z.of_nat r) (Z.of_nat c);
                        if negb (cov =? 0) then Ok (out +:+ " .")
                        else
                          is_mine ← getitem NumPy (mines b) (Z.of_nat r) (Z.of_nat c);
                          if negb (is_mine =? 0) then Ok (out +:+ " X")
                          else
                            hint ← getitem NumPy (board b) (Z.of_nat r) (Z.of_nat c);
                            if negb (hint =? 0)
                            then Ok (out +:+ " " +:+ format_int hint)
                            else Ok (out +:+ "  "))
                     out;
                   Ok (out +:+ " |" +:+ nl))
                nl) as (s & Hs & ->); [done| |exact Hs].
    intros k t Hk ->. cbv zeta. rewrite (str_row m) by done. rewrite bind_Ok.
    eexists. split; [done|]. cbn [cat_upto].
    by rewrite !append_assoc.
  - unfold render. rewrite length_append.
    rewrite (length_cat_upto _ _ (2 * (size b).2 + 4)); [done|].
    intros r Hr. rewrite !length_append.
    rewrite (length_cat_upto _ _ 2) by (intros; by apply Hw). simpl. lia.
Qed.

Lemma str_renders_getsquare_witness :
  __str__ board_3x3_corner_lost = Ok (render board_3x3_corner_lost) ∧
  (∀ r c, (r < (size board_3x3_corner_lost).1)%nat →
          (c < (size board_3x3_corner_lost).2)%nat →
          String.length (glyph (code_at board_3x3_corner_lost r c)) = 2%nat) ∧
  String.length (render board_3x3_corner_lost)
  = (1 + (size board_3x3_corner_lost).1
         * (2 * (size board_3x3_corner_lost).2 + 4))%nat.
Proof.
  apply (str_renders_getsquare mask_3x3_corner).
  exact (reach_reveal _ _ _ _ _ _ reachable_3x3_corner_won reveal_3x3_corner_mine).
Defined.

(** The 3x3 board with a mine in the corner, won and then lost, as it
    prints. *)
Example str_3x3_corner_lost :
  __str__ board_3x3_corner_lost
  = Ok (nl +:+ "| X 1   |" +:+ nl +:+ "| 1 1   |" +:+ nl +:+ "|       |" +:+ nl).
Proof. vm_compute. reflexivity. Qed.

(** ** Boards read from an image *)

(** A sample between 0 and 1 is cast to 0, unless it is 1. *)
Lemma float_to_int8_unit (x : Q) :
  (0 <= x)%Q → (x <= 1)%Q →
  0 < int8 (1 - float_to_int8 x) ↔ (x < 1)%Q.
Proof.
  destruct x as [n d]. unfold Qle, Qlt, float_to_int8. simpl. intros H0 H1.
  destruct (decide (n < Z.pos d)) as [Hlt|Hge].
  - rewrite Z.quot_small by lia. split; [lia|]. intros _. by vm_compute.
  - assert (n = Z.pos d) as -> by lia.
    rewrite Z.quot_same by lia. split; [|lia]. by vm_compute.
Qed.

Lemma fromPNG_mask_wf (sh : nat * nat * nat) (px : list (list (list Q))) :
  pixels_wf sh px →
  nd_wf (rsub_int8 1 (asarray_int8
           ((sh.1.1, sh.1.2), map (map (λ p, default 0%Q (head p))) px))).
Proof.
  intros [Hl Hrows]. split; simpl.
  - by rewrite !length_map.
  - rewrite !Forall_fmap. eapply Forall_impl; [exact Hrows|].
    intros row [Hrow _]. simpl. by rewrite !length_map.
Qed.

Lemma fromPNG_mask_val (sh : nat * nat * nat) (px : list (list (list Q)))
    (r c : nat) :
  pixels_wf sh px → (r < sh.1.1)%nat → (c < sh.1.2)%nat →
  val (rsub_int8 1 (asarray_int8
         ((sh.1.1, sh.1.2), map (map (λ p, default 0%Q (head p))) px)))
      (Z.of_nat r) (Z.of_nat c)
  = int8 (1 - float_to_int8 (red_sample px r c)).
Proof.
  intros [Hl Hrows] Hr Hc. unfold val, cell, red_sample. simpl.
  rewrite !Nat2Z.id, !list_lookup_fmap.
  destruct (lookup_lt_is_Some_2 px r) as [row Hrow]; [lia|].
  rewrite Hrow. simpl. rewrite !list_lookup_fmap.
  destruct (Forall_lookup_1 _ _ _ _ Hrows Hrow) as [Hlen _].
  destruct (lookup_lt_is_Some_2 row c) as [p Hp]; [lia|].
  by rewrite Hp.
Qed.

(** X15.  For a colour image of at least 3x3 pixels whose first samples
    lie between 0 and 1, [fromPNG] returns a board with a cell to the
    pixel, all covered and in progress, on which a cell is a mine exactly
    when the first (red) sample of its pixel is below 1: only a pixel of
    full red is safe, whatever its other samples are. *)
Theorem fromPNG_mines (junk : nat → nat → Z) (imread : string → image)
    (image_path : string) (rows cols k : nat) (px : list (list (list Q)))
    (Hread : imread image_path = Colour (rows, cols, k) px)
    (Hwf : pixels_wf (rows, cols, k) px)
    (Hk : (1 ≤ k)%nat) (Hrows : (3 ≤ rows)%nat) (Hcols : (3 ≤ cols)%nat)
    (Hrange : ∀ r c, (r < rows)%nat → (c < cols)%nat →
                     (0 <= red_sample px r c)%Q ∧ (red_sample px r c <= 1)%Q) :
  ∃ b,
    fromPNG junk imread image_path = Ok b ∧
    size b = (rows, cols) ∧
    getstate b = "in_progress"%string ∧
    (∀ r c, (r < rows)%nat → (c < cols)%nat →
       is_covered b (Z.of_nat r, Z.of_nat c) ∧
       (is_mine b (Z.of_nat r, Z.of_nat c) ↔ (red_sample px r c < 1)%Q)).
Proof.
  unfold fromPNG. rewrite Hread. unfold first_channel. cbn [fst snd].
  destruct (Nat.eqb_spec k 0) as [->|_]; [lia|]. rewrite bind_Ok.
  pose proof (fromPNG_mask_wf (rows, cols, k) px Hwf) as Hm.
  cbn [fst snd] in Hm.
  destruct (init_large junk _ Hm) as (b & Hb & Hc); [done..|].
  exists b. split; [done|].
  pose proof (cons_size _ _ Hc) as Hs. simpl in Hs.
  split; [done|]. split; [apply (cons_game_state _ _ Hc)|].
  intros r c Hr Hcc. split.
  - unfold is_covered. rewrite (cons_covered _ _ Hc), val_np_ones; [done|].
    rewrite Hs. split; simpl; lia.
  - unfold is_mine. rewrite (cons_mines _ _ Hc), val_gt0_int8. cbn [fst snd].
    pose proof (fromPNG_mask_val (rows, cols, k) px r c Hwf Hr Hcc) as Hv.
    cbn [fst snd] in Hv. rewrite Hv.
    destruct (Hrange r c Hr Hcc) as [H0 H1].
    rewrite <- (float_to_int8_unit _ H0 H1).
    destruct (Z.ltb_spec 0 (int8 (1 - float_to_int8 (red_sample px r c))));
      split; (done || lia).
Qed.

Lemma fromPNG_mines_witness :
  ∃ b,
    fromPNG no_junk (λ _, image_3x3) "board.png" = Ok b ∧
    size b = (3, 3)%nat ∧
    getstate b = "in_progress"%string ∧
    (∀ r c, (r < 3)%nat → (c < 3)%nat →
       is_covered b (Z.of_nat r, Z.of_nat c) ∧
       (is_mine b (Z.of_nat r, Z.of_nat c) ↔
        (red_sample
           [ [ [1%Q; 1%Q; 1%Q]; [0%Q; 0%Q; 0%Q]; [0%Q; 1%Q; 0%Q] ];
             [ [1%Q; 0%Q; 0%Q]; [Qmake 1 2; Qmake 1 2; Qmake 1 2];
               [1%Q; 1%Q; 1%Q] ];
             [ [1%Q; 1%Q; 1%Q]; [1%Q; 1%Q; 1%Q]; [1%Q; 1%Q; 1%Q] ] ] r c
         < 1)%Q)).
Proof.
  apply (fromPNG_mines no_junk (λ _, image_3x3) "board.png" 3 3 3);
    [reflexivity| |lia|lia|lia|].
  - split; [reflexivity|]. repeat constructor.
  - intros r c Hr Hc.
    destruct r as [|[|[|r]]]; [| | |lia];
      (destruct c as [|[|[|c]]]; [| | |lia]);
      vm_compute; split; discriminate.
Defined.

(** The board of the 3x3 image: the black, the green and the grey pixel
    are mines, the red one is not. *)
Example fromPNG_3x3 :
  (b ← fromPNG no_junk (λ _, image_3x3) "board.png"; Ok (mines b))
  = Ok (grid (3, 3)%nat [ [0; 1; 1]; [0; 1; 0]; [0; 0; 0] ]).
Proof. vm_compute. reflexivity. Qed.
